(** * pistreaming: the live broadcast pipeline of [server.py]

    A shallow embedding of the camera-to-browser streaming server:
    the wire header ([JSMPEG_HEADER]), the WSGI dispatcher
    ([application], [http_app]), the encoder wrapper ([BroadcastOutput]),
    the pump loop ([BroadcastThread.run]) and the controller ([main]).

    The program is threaded and talks to external collaborators (camera,
    ffmpeg, ws4py, wsgiref).  Threads are modelled by interleaving: a
    schedule is a list of events, each one an atomic step of one thread or
    of the environment.  The collaborators are state records whose
    operations follow their documented contracts. *)

From Stdlib Require Import ZArith List String Ascii Bool Lia Sorted.
From Stdlib.Strings Require Import Byte.
From stdpp Require Import base option list sorting strings gmap pretty.
Import ListNotations.

Local Open Scope Z_scope.

(** ** Bytes and the wire header *)

Module Wire.

Definition bytes := list Byte.byte.

(** The byte whose value is [z mod 256]. *)
Definition byte_of_Z (z : Z) : Byte.byte :=
  match Byte.of_N (Z.to_N (z mod 256)) with
  | Some b => b
  | None => Byte.x00
  end.

Definition Z_of_byte (b : Byte.byte) : Z := Z.of_N (Byte.to_N b).

(** [struct] format ['H'] under ['>']: an unsigned 16-bit integer, most
    significant byte first; a value out of range raises [struct.error]. *)
Definition pack_H (v : Z) : option bytes :=
  if (0 <=? v) && (v <=? 65535)
  then Some [byte_of_Z (Z.shiftr v 8); byte_of_Z (Z.land v 255)]
  else None.

Definition unpack_H (b : bytes) : option Z :=
  match b with
  | [hi; lo] => Some (Z.lor (Z.shiftl (Z_of_byte hi) 8) (Z_of_byte lo))
  | _ => None
  end.

(** [struct] format ['4s']: exactly four bytes, the argument cut or padded
    with null bytes. *)
Definition pack_4s (s : bytes) : bytes := firstn 4 (s ++ repeat Byte.x00 4).

(** [JSMPEG_HEADER = Struct('>4sHH')], its [pack] method. *)
Definition JSMPEG_HEADER_pack (magic : bytes) (w h : Z) : option bytes :=
  wb ← pack_H w; hb ← pack_H h; Some (pack_4s magic ++ wb ++ hb).

Definition WIDTH : Z := 640.
Definition HEIGHT : Z := 480.
Definition FRAMERATE : Z := 24.
Definition HTTP_PORT : Z := 8082.
Definition WS_PORT : Z := HTTP_PORT.

(** [b'jsmp'] *)
Definition JSMPEG_MAGIC : bytes := [Byte.x6a; Byte.x73; Byte.x6d; Byte.x70].

End Wire.

(** ** Exceptions *)

Inductive exn :=
| KeyboardInterrupt
| IOError
| RuntimeError
| TypeError
| AttributeError
| ValueError
| BrokenPipeError
| OtherError (what : string).

(** A [threading.Thread]: not started yet, running, or finished, with the
    exception that ended it if there was one. *)
Inductive thread :=
| Unstarted
| Alive
| Ended (raised : option exn).

(** ** The WSGI dispatcher *)

Module Wsgi.

(** The request environment is a [dict] from [str] to [str].  WSGI
    (PEP 3333) hands header values over as strings of code points 0..255,
    which is what a Rocq [string] holds. *)
Abbreviation environ := (gmap string string).

(** [str.lower] on code points 0..255: [A-Z] and the accented capitals
    U+00C0..U+00DE (the multiplication sign U+00D7 apart) move up by 32. *)
Definition lower_char (c : ascii) : ascii :=
  let n := N_of_ascii c in
  if (((65 <=? n) && (n <=? 90)) ||
      (((192 <=? n) && (n <=? 222)) && negb (n =? 215)))%N
  then ascii_of_N (n + 32) else c.

Fixpoint lower (s : string) : string :=
  match s with
  | EmptyString => EmptyString
  | String c r => String (lower_char c) (lower r)
  end.

(** [environ.get(key, '')] *)
Definition get (e : environ) (key : string) : string := default EmptyString (e !! key).

(** The handler class given to ws4py, and the ws4py application object
    built from it. *)
Inductive handler_class := StreamingWebSocket.
Record WebSocketWSGIApplication := { handler_cls : handler_class }.

(** The module's globals, [None] until [main] fills them. *)
Record globals := {
  INDEX_TEMPLATE : option string;
  JSMPEG_CONTENT : option string;
  WSGI_WS_APP : option WebSocketWSGIApplication
}.

Definition no_globals : globals :=
  {| INDEX_TEMPLATE := None; JSMPEG_CONTENT := None; WSGI_WS_APP := None |}.

(** Values of template variables and headers that the model keeps
    symbolic: the text of an integer, a length, the current date. *)
Inductive value :=
| VStr (s : string)
| VInt (z : Z).

Inductive content :=
| Literal (s : string)
| Substituted (template : string) (vars : list (string * value)).

Inductive header_value :=
| HStr (s : string)
| HLength (c : content)
| HDate.

Record response := {
  status : string;
  headers : list (string * header_value);
  body : list content
}.

(** What a call of a WSGI application comes to. *)
Inductive outcome :=
| Upgraded (app : WebSocketWSGIApplication) (e : environ)
| Served (r : response)
| Raised (x : exn).

Definition COLOR : string := "#444".
Definition BGCOLOR : string := "#333".

Definition ok_response (content_type : string) (c : content) : response :=
  {| status := "200 OK";
     headers := [("Content-Type", HStr content_type);
                 ("Content-Length", HLength c);
                 ("Last-Modified", HDate)];
     body := [c] |}.

Definition http_app (g : globals) (e : environ) : outcome :=
  let path := get e "PATH_INFO" in
  if decide (path = "/") then
    Served {| status := "301 Moved Permanently";
              headers := [("Location", HStr "/index.html")];
              body := [] |}
  else if decide (path = "/jsmpg.js") then
    match JSMPEG_CONTENT g with
    | Some js => Served (ok_response "application/javascript" (Literal js))
    | None => Raised AttributeError
    end
  else if decide (path = "/index.html") then
    match INDEX_TEMPLATE g with
    | Some tpl =>
        Served (ok_response "text/html; charset=utf-8"
                  (Substituted tpl
                     [("WS_PORT", VInt Wire.WS_PORT); ("WIDTH", VInt Wire.WIDTH);
                      ("HEIGHT", VInt Wire.HEIGHT); ("COLOR", VStr COLOR);
                      ("BGCOLOR", VStr BGCOLOR)]))
    | None => Raised TypeError
    end
  else
    Served {| status := "404 Not Found";
              headers := [("Content-Type", HStr "text/plain")];
              body := [Literal "File not found"] |}.

Definition application (g : globals) (e : environ) : outcome :=
  if decide (lower (get e "HTTP_UPGRADE") = "websocket") then
    match WSGI_WS_APP g with
    | Some app => Upgraded app e
    | None => Raised TypeError
    end
  else http_app g e.

Definition lowercase_letter (b : ascii) : Prop := (97 <= N_of_ascii b <= 122)%N.

(** Two characters that differ at most by the case of an ASCII letter. *)
Definition same_letter (a b : ascii) : Prop :=
  a = b \/
  (exists n, (65 <= n <= 90)%N /\
     ((N_of_ascii a = n /\ N_of_ascii b = (n + 32)%N) \/
      (N_of_ascii b = n /\ N_of_ascii a = (n + 32)%N))).

(** Equality of strings up to the case of ASCII letters. *)
Fixpoint caseless (s t : string) : Prop :=
  match s, t with
  | EmptyString, EmptyString => True
  | String a s', String b t' => same_letter a b /\ caseless s' t'
  | _, _ => False
  end.

End Wsgi.

(** ** Viewer sessions and the broadcast hub *)

Module Hub.
Import Wire.

(** A binary message on a viewer's connection.  The constructor records
    which call wrote it; the bytes on the wire are its [payload]. *)
Inductive message :=
| Header (b : bytes)
| Chunk (b : bytes).

Definition payload (m : message) : bytes :=
  match m with Header b => b | Chunk b => b end.

(** Modelled from the spec: ws4py's [WebSocket] is not part of the
    repository.  One viewer: its identifier, what has been written to its
    connection (oldest first), its liveness flag, and whether the
    connection has failed (every later write on it fails).  The other
    fields are bookkeeping for the proofs: [joined] is the number of
    chunks the hub had broadcast when the session registered, [failed] and
    [closes] count the failed delivery attempts and the times the
    connection was closed. *)
Record session := {
  sid : nat;
  outbound : list message;
  alive : bool;
  broken : bool;
  joined : nat;
  failed : nat;
  closes : nat
}.

Definition connect (id seen : nat) : session :=
  {| sid := id; outbound := []; alive := true; broken := false;
     joined := seen; failed := 0; closes := 0 |}.

(** Modelled from the spec: [WebSocket.send(payload, binary=True)] writes
    the message to the connection; on a failed or terminated connection
    the write fails. *)
Definition send (s : session) (m : message) : option session :=
  if broken s || negb (alive s) then None
  else Some {| sid := sid s; outbound := outbound s ++ [m]; alive := alive s;
               broken := broken s; joined := joined s;
               failed := failed s; closes := closes s |}.

(** Whether a write on the session's connection goes through. *)
Definition deliverable (s : session) : bool := negb (broken s || negb (alive s)).

(** The session with one more message written. *)
Definition push (m : message) (s : session) : session :=
  {| sid := sid s; outbound := outbound s ++ [m]; alive := alive s;
     broken := broken s; joined := joined s;
     failed := failed s; closes := closes s |}.

(** The header every viewer is sent: "jsmp", 640 and 480 as 16-bit
    big-endian numbers. *)
Definition stream_header : bytes :=
  [Byte.x6a; Byte.x73; Byte.x6d; Byte.x70; Byte.x02; Byte.x80; Byte.x01; Byte.xe0].

(** [StreamingWebSocket.opened] *)
Definition opened (s : session) : option session :=
  h ← JSMPEG_HEADER_pack JSMPEG_MAGIC WIDTH HEIGHT; send s (Header h).

Definition close (s : session) : session :=
  {| sid := sid s; outbound := outbound s; alive := false;
     broken := broken s; joined := joined s;
     failed := failed s; closes := S (closes s) |}.

Definition note_failure (s : session) : session :=
  {| sid := sid s; outbound := outbound s; alive := alive s;
     broken := broken s; joined := joined s;
     failed := S (failed s); closes := closes s |}.

Definition fail_connection (s : session) : session :=
  {| sid := sid s; outbound := outbound s; alive := alive s;
     broken := true; joined := joined s;
     failed := failed s; closes := closes s |}.

(** The hub: the active set in registration order, the sessions that
    have left it (most recent first), the closed mark, the next free
    identifier, and the chunks it was asked to broadcast (oldest first). *)
Record hub := {
  active : list session;
  gone : list session;
  closed : bool;
  next_sid : nat;
  chunks : list bytes
}.

Definition empty : hub :=
  {| active := []; gone := []; closed := false; next_sid := 0; chunks := [] |}.

(** Modelled from the spec: ws4py's connection manager is not part of the
    repository.  [register] creates a session, sends the stream header
    synchronously (through [opened]) and only then adds the session to the
    active set; a closed hub rejects the call. *)
Definition register (h : hub) : option nat * hub :=
  if closed h then (None, h)
  else
    let s := connect (next_sid h) (length (chunks h)) in
    match opened s with
    | Some s' =>
        (Some (sid s'),
         {| active := active h ++ [s']; gone := gone h; closed := closed h;
            next_sid := S (next_sid h); chunks := chunks h |})
    | None =>
        (None,
         {| active := active h; gone := close s :: gone h; closed := closed h;
            next_sid := S (next_sid h); chunks := chunks h |})
    end.

(** What becomes of a session whose delivery failed. *)
Definition drop_failed (s : session) : session := close (note_failure s).

(** One delivery attempt: the session with the chunk written, or, when
    the write fails, the session closed after that one failure. *)
Definition deliver (chunk : bytes) (s : session) : session + session :=
  match send s (Chunk chunk) with
  | Some s' => inl s'
  | None => inr (drop_failed s)
  end.

(** The fan-out over the active set: the sessions kept, and the ones
    dropped by this broadcast (most recent first). *)
Fixpoint fan_out (chunk : bytes) (ss : list session) : list session * list session :=
  match ss with
  | [] => ([], [])
  | s :: rest =>
      let (kept, dropped) := fan_out chunk rest in
      match deliver chunk s with
      | inl s' => (s' :: kept, dropped)
      | inr s' => (kept, dropped ++ [s'])
      end
  end.

(** Modelled from the spec: [manager.broadcast(chunk, binary=True)]
    delivers the chunk to every active session; a failed delivery removes
    that session from the active set and closes its connection, and does
    not stop the delivery to the others. *)
Definition broadcast (chunk : bytes) (h : hub) : hub :=
  let (kept, dropped) := fan_out chunk (active h) in
  {| active := kept; gone := dropped ++ gone h; closed := closed h;
     next_sid := next_sid h; chunks := chunks h ++ [chunk] |}.

(** Modelled from the spec: [shutdown] marks the hub closed and
    disconnects every active session.  It is an operation of the hub that
    [server.py] never calls. *)
Definition shutdown (h : hub) : hub :=
  {| active := []; gone := reverse (close <$> active h) ++ gone h;
     closed := true; next_sid := next_sid h; chunks := chunks h |}.

(** The environment: a viewer's connection starts to fail. *)
Definition fail_peer (id : nat) (h : hub) : hub :=
  {| active := (fun s => if decide (sid s = id) then fail_connection s else s)
                 <$> active h;
     gone := gone h; closed := closed h; next_sid := next_sid h;
     chunks := chunks h |}.

(** The environment: a viewer disconnects; its session leaves the set. *)
Definition hang_up (id : nat) (h : hub) : hub :=
  {| active := filter (fun s => sid s ≠ id) (active h);
     gone := reverse (close <$> filter (fun s => sid s = id) (active h)) ++ gone h;
     closed := closed h; next_sid := next_sid h; chunks := chunks h |}.

Definition sessions (h : hub) : list session := active h ++ gone h.

(** One operation on the hub. *)
Inductive hub_move (h : hub) : hub -> Prop :=
| move_register : hub_move h (register h).2
| move_broadcast chunk : hub_move h (broadcast chunk h)
| move_shutdown : hub_move h (shutdown h)
| move_fail_peer id : hub_move h (fail_peer id h)
| move_hang_up id : hub_move h (hang_up id h).

(** The bookkeeping of a hub is in order: active sessions are alive and
    have never failed nor been closed; sessions that left are closed,
    once, after at most one failed delivery; identifiers are unique; a
    closed hub has no active session. *)
Definition tidy (h : hub) : Prop :=
  Forall (fun s => alive s = true /\ failed s = 0%nat /\ closes s = 0%nat)
         (active h) /\
  Forall (fun s => alive s = false /\ (failed s <= 1)%nat /\ closes s = 1%nat)
         (gone h) /\
  Forall (fun s => (sid s < next_sid h)%nat) (sessions h) /\
  NoDup (sid <$> sessions h) /\
  (closed h = true -> active h = []).

(** What a session was sent, given the chunks [cs] broadcast so far: the
    header, then every chunk broadcast since the session joined
    ([sent_all]), or the first few of them ([sent_some]). *)
Definition sent_all (cs : list bytes) (s : session) : Prop :=
  (joined s <= length cs)%nat /\
  outbound s = Header stream_header :: (Chunk <$> drop (joined s) cs).

Definition sent_some (cs : list bytes) (s : session) : Prop :=
  exists k, (joined s + k <= length cs)%nat /\
  outbound s = Header stream_header :: (Chunk <$> take k (drop (joined s) cs)).

Definition in_order (h : hub) : Prop :=
  Forall (sent_all (chunks h)) (active h) /\
  Forall (sent_some (chunks h)) (gone h).

(** The bytes a session's connection has carried. *)
Definition received (s : session) : bytes := concat (map payload (outbound s)).

End Hub.

(** ** The encoder process *)

Module Encoder.
Import Wire.

(** The [Popen] object of the ffmpeg child: the state of its pipes and of
    the process.  [stdout_pending] holds what the process has written and
    nobody has read yet; [emitted] is everything the process has written
    so far and [stdout_closes] counts the calls of [stdout.close()]. *)
Record Popen := {
  stdin_closed : bool;
  stdin_frames : list bytes;
  stdout_pending : bytes;
  emitted : bytes;
  stdout_closed : bool;
  stdout_closes : nat;
  returncode : option Z
}.

(** A freshly spawned process. *)
Definition spawn : Popen :=
  {| stdin_closed := false; stdin_frames := []; stdout_pending := [];
     emitted := [];
     stdout_closed := false; stdout_closes := 0; returncode := None |}.

(** The pipe after [n] of its pending bytes were taken. *)
Definition consume (n : nat) (c : Popen) : Popen :=
  {| stdin_closed := stdin_closed c; stdin_frames := stdin_frames c;
     stdout_pending := skipn n (stdout_pending c); emitted := emitted c;
     stdout_closed := stdout_closed c; stdout_closes := stdout_closes c;
     returncode := returncode c |}.

(** [stdout.read1(size)]: at most [size] of the pending bytes, with one
    read; empty when nothing is pending.  A closed file raises. *)
Definition read1 (size : Z) (c : Popen) : exn + (bytes * Popen) :=
  if stdout_closed c then inl ValueError
  else inr (firstn (Z.to_nat size) (stdout_pending c), consume (Z.to_nat size) c).

(** [poll()]: the exit status, [None] while the process runs. *)
Definition poll (c : Popen) : option Z := returncode c.

Definition exited (c : Popen) : bool :=
  match returncode c with Some _ => true | None => false end.

Definition stdout_close (c : Popen) : Popen :=
  {| stdin_closed := stdin_closed c; stdin_frames := stdin_frames c;
     stdout_pending := stdout_pending c; emitted := emitted c;
     stdout_closed := true; stdout_closes := S (stdout_closes c);
     returncode := returncode c |}.

Definition stdin_close (c : Popen) : Popen :=
  {| stdin_closed := true; stdin_frames := stdin_frames c;
     stdout_pending := stdout_pending c; emitted := emitted c;
     stdout_closed := stdout_closed c; stdout_closes := stdout_closes c;
     returncode := returncode c |}.

(** [stdin.write(b)]: the frame reaches the process; a closed pipe or a
    dead process raises. *)
Definition stdin_write (b : bytes) (c : Popen) : exn + Popen :=
  if stdin_closed c then inl ValueError
  else if exited c then inl BrokenPipeError
  else
    inr {| stdin_closed := stdin_closed c; stdin_frames := stdin_frames c ++ [b];
           stdout_pending := stdout_pending c; emitted := emitted c;
           stdout_closed := stdout_closed c; stdout_closes := stdout_closes c;
           returncode := returncode c |}.

(** [BroadcastOutput.write] *)
Definition write (b : bytes) (c : Popen) : exn + Popen := stdin_write b c.

(** The environment: the running process emits compressed bytes. *)
Definition emit (b : bytes) (c : Popen) : Popen :=
  if exited c then c
  else
    {| stdin_closed := stdin_closed c; stdin_frames := stdin_frames c;
       stdout_pending := stdout_pending c ++ b; emitted := emitted c ++ b;
       stdout_closed := stdout_closed c; stdout_closes := stdout_closes c;
       returncode := returncode c |}.

(** The environment: the process terminates with a status. *)
Definition terminate (status : Z) (c : Popen) : Popen :=
  if exited c then c
  else
    {| stdin_closed := stdin_closed c; stdin_frames := stdin_frames c;
       stdout_pending := stdout_pending c; emitted := emitted c;
       stdout_closed := stdout_closed c; stdout_closes := stdout_closes c;
       returncode := Some status |}.

End Encoder.

(** ** The pump loop *)

Module Pump.
Import Wire.

Definition READ_SIZE : Z := 32768.

Definition is_empty (b : bytes) : bool :=
  match b with [] => true | _ => false end.

(** One turn of the [while True] loop of [BroadcastThread.run], with the
    [finally] clause on the way out: the converter and the hub afterwards,
    the chunk handed to the hub if any, and the state of the thread. *)
Definition iteration (c : Encoder.Popen) (h : Hub.hub)
  : Encoder.Popen * Hub.hub * option bytes * thread :=
  match Encoder.read1 READ_SIZE c with
  | inl e => (Encoder.stdout_close c, h, None, Ended (Some e))
  | inr (buf, c') =>
      if negb (is_empty buf) then
        (c', Hub.broadcast buf h, Some buf, Alive)
      else
        match Encoder.poll c' with
        | Some _ => (Encoder.stdout_close c', h, None, Ended None)
        | None => (c', h, None, Alive)
        end
  end.

End Pump.

(** ** The controller: [main] and the threads it starts *)

Module Pipeline.
Import Wire.

(** Modelled from the spec: the camera library is not part of the
    repository.  The camera produces frames only while it is started and
    recording, hands each one to [output.write], and on
    [stop_recording()] first stops producing frames and then calls
    [output.flush()]. *)
Record Picamera2 := {
  started : bool;
  recording : bool;
  released : bool
}.

Definition fresh_camera : Picamera2 :=
  {| started := false; recording := false; released := false |}.

Definition set_started (b : bool) (cam : Picamera2) : Picamera2 :=
  {| started := b; recording := recording cam; released := released cam |}.

Definition set_recording (b : bool) (cam : Picamera2) : Picamera2 :=
  {| started := started cam; recording := b; released := released cam |}.

Definition release (cam : Picamera2) : Picamera2 :=
  {| started := started cam; recording := recording cam; released := true |}.

Definition producing (cam : Picamera2) : bool :=
  started cam && recording cam && negb (released cam).

(** The program points of [main], one per call on a collaborator.
    [FlushClose] and [FlushWait] are the two calls of
    [BroadcastOutput.flush], which [stop_recording] runs on the main
    thread. *)
Inductive point :=
| LoadFiles            (* io.open('index.html'), io.open('jsmpg.js') *)
| CameraNew            (* Picamera2() *)
| CameraConfigure      (* create_video_configuration, configure *)
| CameraStart          (* camera.start(), sleep(1) *)
| MakeWsApp            (* WebSocketWSGIApplication(...) *)
| MakeServer           (* make_server(...) *)
| InitManager          (* initialize_websockets_manager() *)
| MakeServerThread     (* Thread(target=serve_forever) *)
| SpawnEncoder         (* BroadcastOutput(camera): Popen *)
| MakeBroadcastThread  (* BroadcastThread(...) *)
| StartRecording       (* camera.start_recording(output) *)
| StartServerThread    (* server_thread.start() *)
| StartBroadcastThread (* broadcast_thread.start() *)
| Sleep                (* while True: sleep(1) *)
| StopRecording        (* camera.stop_recording(): frames stop *)
| FlushClose           (* ... flush: converter.stdin.close() *)
| FlushWait            (* ... flush: converter.wait() *)
| JoinBroadcast        (* broadcast_thread.join() *)
| ServerShutdown       (* combined_server.shutdown() *)
| JoinServer           (* server_thread.join() *)
| CameraStop           (* camera.stop() *)
| CameraClose          (* camera.close() *)
| Done.                (* main has returned or raised *)

Definition next (p : point) : point :=
  match p with
  | LoadFiles => CameraNew
  | CameraNew => CameraConfigure
  | CameraConfigure => CameraStart
  | CameraStart => MakeWsApp
  | MakeWsApp => MakeServer
  | MakeServer => InitManager
  | InitManager => MakeServerThread
  | MakeServerThread => SpawnEncoder
  | SpawnEncoder => MakeBroadcastThread
  | MakeBroadcastThread => StartRecording
  | StartRecording => StartServerThread
  | StartServerThread => StartBroadcastThread
  | StartBroadcastThread => Sleep
  | Sleep => Sleep
  | StopRecording => FlushClose
  | FlushClose => FlushWait
  | FlushWait => JoinBroadcast
  | JoinBroadcast => ServerShutdown
  | ServerShutdown => JoinServer
  | JoinServer => CameraStop
  | CameraStop => CameraClose
  | CameraClose => Done
  | Done => Done
  end.

(** The lifecycle flag of the spec, read off the program point. *)
Inductive PipelineState := Stopped | Starting | Running | Stopping.

Definition phase_of (p : point) : PipelineState :=
  match p with
  | LoadFiles | CameraNew | CameraConfigure | CameraStart | MakeWsApp
  | MakeServer | InitManager | MakeServerThread | SpawnEncoder
  | MakeBroadcastThread | StartRecording | StartServerThread
  | StartBroadcastThread => Starting
  | Sleep => Running
  | StopRecording | FlushClose | FlushWait | JoinBroadcast | ServerShutdown
  | JoinServer | CameraStop | CameraClose => Stopping
  | Done => Stopped
  end.

(** What the threads did, in the order it happened. *)
Inductive action :=
| Call (p : point)                (* main completed the call at [p] *)
| Broadcast (b : bytes)           (* the pump handed a chunk to the hub *)
| PumpExit (raised : option exn)  (* the pump left its loop; stdout closed *)
| FrameWritten                    (* the camera wrote a frame to the encoder *)
| FrameLost (e : exn)             (* ... and the write raised *)
| Registered (id : option nat)    (* an upgrade request reached the hub *)
| Answered (o : Wsgi.outcome).    (* any other request was answered *)

Record state := {
  pc : point;
  pending : option exn;   (* the exception on its way out of [main] *)
  disk : option (string * string);   (* index.html and jsmpg.js, if there *)
  globals : Wsgi.globals;
  camera : option Picamera2;
  server_made : bool;
  manager : option Hub.hub;
  converter : option Encoder.Popen;
  server_thread : thread;
  broadcast_thread : thread;
  trace : list action     (* newest first *)
}.

Definition initial (files : option (string * string)) : state :=
  {| pc := LoadFiles; pending := None; disk := files;
     globals := Wsgi.no_globals; camera := None; server_made := false;
     manager := None; converter := None;
     server_thread := Unstarted; broadcast_thread := Unstarted;
     trace := [] |}.

Definition history (st : state) : list action := rev (trace st).

Definition phase (st : state) : PipelineState := phase_of (pc st).

Definition set_pc (p : point) (st : state) : state :=
  {| pc := p; pending := pending st; disk := disk st; globals := globals st;
     camera := camera st; server_made := server_made st;
     manager := manager st; converter := converter st;
     server_thread := server_thread st;
     broadcast_thread := broadcast_thread st; trace := trace st |}.

Definition set_pending (e : option exn) (st : state) : state :=
  {| pc := pc st; pending := e; disk := disk st; globals := globals st;
     camera := camera st; server_made := server_made st;
     manager := manager st; converter := converter st;
     server_thread := server_thread st;
     broadcast_thread := broadcast_thread st; trace := trace st |}.

Definition set_globals (g : Wsgi.globals) (st : state) : state :=
  {| pc := pc st; pending := pending st; disk := disk st; globals := g;
     camera := camera st; server_made := server_made st;
     manager := manager st; converter := converter st;
     server_thread := server_thread st;
     broadcast_thread := broadcast_thread st; trace := trace st |}.

Definition set_camera (cam : option Picamera2) (st : state) : state :=
  {| pc := pc st; pending := pending st; disk := disk st;
     globals := globals st; camera := cam; server_made := server_made st;
     manager := manager st; converter := converter st;
     server_thread := server_thread st;
     broadcast_thread := broadcast_thread st; trace := trace st |}.

Definition set_server_made (b : bool) (st : state) : state :=
  {| pc := pc st; pending := pending st; disk := disk st;
     globals := globals st; camera := camera st; server_made := b;
     manager := manager st; converter := converter st;
     server_thread := server_thread st;
     broadcast_thread := broadcast_thread st; trace := trace st |}.

Definition set_manager (h : option Hub.hub) (st : state) : state :=
  {| pc := pc st; pending := pending st; disk := disk st;
     globals := globals st; camera := camera st;
     server_made := server_made st; manager := h; converter := converter st;
     server_thread := server_thread st;
     broadcast_thread := broadcast_thread st; trace := trace st |}.

Definition set_converter (c : option Encoder.Popen) (st : state) : state :=
  {| pc := pc st; pending := pending st; disk := disk st;
     globals := globals st; camera := camera st;
     server_made := server_made st; manager := manager st; converter := c;
     server_thread := server_thread st;
     broadcast_thread := broadcast_thread st; trace := trace st |}.

Definition set_server_thread (t : thread) (st : state) : state :=
  {| pc := pc st; pending := pending st; disk := disk st;
     globals := globals st; camera := camera st;
     server_made := server_made st; manager := manager st;
     converter := converter st; server_thread := t;
     broadcast_thread := broadcast_thread st; trace := trace st |}.

Definition set_broadcast_thread (t : thread) (st : state) : state :=
  {| pc := pc st; pending := pending st; disk := disk st;
     globals := globals st; camera := camera st;
     server_made := server_made st; manager := manager st;
     converter := converter st; server_thread := server_thread st;
     broadcast_thread := t; trace := trace st |}.

Definition log (a : action) (st : state) : state :=
  {| pc := pc st; pending := pending st; disk := disk st;
     globals := globals st; camera := camera st;
     server_made := server_made st; manager := manager st;
     converter := converter st; server_thread := server_thread st;
     broadcast_thread := broadcast_thread st; trace := a :: trace st |}.

(** The call at the current point has returned: note it and move on. *)
Definition finish (st : state) : state :=
  set_pc (next (pc st)) (log (Call (pc st)) st).

(** An exception [e] is raised at the current point of [main]: where the
    [try] blocks send it.  Line 157: [except IOError] prints and returns.
    Lines 168-177 stand outside every [try].  Lines 181-200 are under the
    outer [try] only.  Lines 203-209 are under the inner one, whose
    [except KeyboardInterrupt: pass] swallows the interrupt; its [finally]
    (lines 213-220) and the outer one (lines 222-223) pass an exception
    raised inside them on. *)
Definition unwind (e : exn) (st : state) : state :=
  match pc st with
  | LoadFiles =>
      match e with
      | IOError => set_pc Done (set_pending None st)
      | _ => set_pc Done (set_pending (Some e) st)
      end
  | CameraNew | CameraConfigure | CameraStart =>
      set_pc Done (set_pending (Some e) st)
  | MakeWsApp | MakeServer | InitManager | MakeServerThread | SpawnEncoder
  | MakeBroadcastThread | StartRecording =>
      set_pc CameraStop (set_pending (Some e) st)
  | StartServerThread | StartBroadcastThread | Sleep =>
      match e with
      | KeyboardInterrupt => set_pc StopRecording (set_pending None st)
      | _ => set_pc StopRecording (set_pending (Some e) st)
      end
  | StopRecording | FlushClose | FlushWait | JoinBroadcast | ServerShutdown
  | JoinServer =>
      set_pc CameraStop (set_pending (Some e) st)
  | CameraStop | CameraClose =>
      set_pc Done (set_pending (Some e) st)
  | Done => st
  end.

(** [Thread.join()]: raises on a thread never started, blocks while it
    runs. *)
Definition join (t : thread) (st : state) : state :=
  match t with
  | Unstarted => unwind RuntimeError st
  | Alive => st
  | Ended _ => finish st
  end.

(** One step of [main] when the call at the current point does not raise.
    A blocking call that cannot return yet leaves the state as it is.
    Line 218 is [shutdown()] of the server object: it makes
    [serve_forever] return, so the server thread ends, and touches no
    session of the hub. *)
Definition advance (st : state) : state :=
  match pc st with
  | LoadFiles =>
      match disk st with
      | Some (index_html, jsmpg_js) =>
          finish (set_globals
                    {| Wsgi.INDEX_TEMPLATE := Some index_html;
                       Wsgi.JSMPEG_CONTENT := Some jsmpg_js;
                       Wsgi.WSGI_WS_APP := Wsgi.WSGI_WS_APP (globals st) |} st)
      | None => unwind IOError st
      end
  | CameraNew => finish (set_camera (Some fresh_camera) st)
  | CameraConfigure => finish st
  | CameraStart => finish (set_camera (set_started true <$> camera st) st)
  | MakeWsApp =>
      finish (set_globals
                {| Wsgi.INDEX_TEMPLATE := Wsgi.INDEX_TEMPLATE (globals st);
                   Wsgi.JSMPEG_CONTENT := Wsgi.JSMPEG_CONTENT (globals st);
                   Wsgi.WSGI_WS_APP :=
                     Some {| Wsgi.handler_cls := Wsgi.StreamingWebSocket |} |} st)
  | MakeServer => finish (set_server_made true st)
  | InitManager => finish (set_manager (Some Hub.empty) st)
  | MakeServerThread => finish st
  | SpawnEncoder => finish (set_converter (Some Encoder.spawn) st)
  | MakeBroadcastThread => finish st
  | StartRecording => finish (set_camera (set_recording true <$> camera st) st)
  | StartServerThread => finish (set_server_thread Alive st)
  | StartBroadcastThread => finish (set_broadcast_thread Alive st)
  | Sleep => st
  | StopRecording => finish (set_camera (set_recording false <$> camera st) st)
  | FlushClose => finish (set_converter (Encoder.stdin_close <$> converter st) st)
  | FlushWait =>
      match converter st with
      | Some c => if Encoder.exited c then finish st else st
      | None => st
      end
  | JoinBroadcast => join (broadcast_thread st) st
  | ServerShutdown =>
      match server_thread st with
      | Alive => finish (set_server_thread (Ended None) st)
      | _ => st
      end
  | JoinServer => join (server_thread st) st
  | CameraStop => finish (set_camera (set_started false <$> camera st) st)
  | CameraClose => finish (set_camera (release <$> camera st) st)
  | Done => st
  end.

(** The events of a run: a step of the main thread, where the
    environment may make the call raise (an operator interrupt is
    [Main (Some KeyboardInterrupt)]); a turn of the pump loop; a frame
    from the camera; output or exit of the encoder process; a request
    handled by the server thread; a viewer whose connection fails or who
    leaves. *)
Inductive event :=
| Main (fault : option exn)
| PumpTurn
| Frame (b : bytes)
| Emit (b : bytes)
| Exit (status : Z)
| Request (e : Wsgi.environ)
| PeerFails (id : nat)
| PeerLeaves (id : nat).

Definition log_turn (sent : option bytes) (t : thread) (st : state) : state :=
  let st1 := match sent with Some b => log (Broadcast b) st | None => st end in
  match t with
  | Ended r => log (PumpExit r) st1
  | _ => st1
  end.

Definition pump_turn (st : state) : state :=
  match broadcast_thread st, converter st, manager st with
  | Alive, Some c, Some h =>
      let '(c', h', sent, t) := Pump.iteration c h in
      set_broadcast_thread t
        (set_converter (Some c') (set_manager (Some h') (log_turn sent t st)))
  | _, _, _ => st
  end.

Definition frame (b : bytes) (st : state) : state :=
  match camera st, converter st with
  | Some cam, Some c =>
      if producing cam then
        match Encoder.write b c with
        | inr c' => log FrameWritten (set_converter (Some c') st)
        | inl e => log (FrameLost e) st
        end
      else st
  | _, _ => st
  end.

Definition request (e : Wsgi.environ) (st : state) : state :=
  match server_thread st with
  | Alive =>
      match Wsgi.application (globals st) e with
      | Wsgi.Upgraded _ _ =>
          match manager st with
          | Some h =>
              let (id, h') := Hub.register h in
              log (Registered id) (set_manager (Some h') st)
          | None => st
          end
      | o => log (Answered o) st
      end
  | _ => st
  end.

Definition step (ev : event) (st : state) : state :=
  match ev with
  | Main None => advance st
  | Main (Some e) => unwind e st
  | PumpTurn => pump_turn st
  | Frame b => frame b st
  | Emit b => set_converter (Encoder.emit b <$> converter st) st
  | Exit status => set_converter (Encoder.terminate status <$> converter st) st
  | Request e => request e st
  | PeerFails id => set_manager (Hub.fail_peer id <$> manager st) st
  | PeerLeaves id => set_manager (Hub.hang_up id <$> manager st) st
  end.

Definition run (schedule : list event) (st : state) : state :=
  fold_left (fun s ev => step ev s) schedule st.

(** The position of a program point in the text of [main]. *)
Definition index (p : point) : nat :=
  match p with
  | LoadFiles => 0
  | CameraNew => 1
  | CameraConfigure => 2
  | CameraStart => 3
  | MakeWsApp => 4
  | MakeServer => 5
  | InitManager => 6
  | MakeServerThread => 7
  | SpawnEncoder => 8
  | MakeBroadcastThread => 9
  | StartRecording => 10
  | StartServerThread => 11
  | StartBroadcastThread => 12
  | Sleep => 13
  | StopRecording => 14
  | FlushClose => 15
  | FlushWait => 16
  | JoinBroadcast => 17
  | ServerShutdown => 18
  | JoinServer => 19
  | CameraStop => 20
  | CameraClose => 21
  | Done => 22
  end.

(** The calls of the stop sequence, in the order of lines 213-223. *)
Definition stop_sequence : list point :=
  [StopRecording; FlushClose; FlushWait; JoinBroadcast; ServerShutdown;
   JoinServer; CameraStop; CameraClose].

(** The place of a call in the stop sequence. *)
Definition rank (p : point) : nat := (index p - 14)%nat.

Definition in_stop_sequence (p : point) : bool :=
  match phase_of p with Stopping => true | _ => false end.

(** The calls of the stop sequence that a trace holds, in its order. *)
Fixpoint stop_calls (l : list action) : list point :=
  match l with
  | [] => []
  | Call p :: rest =>
      if in_stop_sequence p then p :: stop_calls rest else stop_calls rest
  | _ :: rest => stop_calls rest
  end.

(** *** What holds in every state of a run *)

Definition chunks_of (st : state) : list bytes :=
  match manager st with Some h => Hub.chunks h | None => [] end.

Definition output_of (st : state) : bytes :=
  match converter st with Some c => Encoder.emitted c | None => [] end.

Definition unread_of (st : state) : bytes :=
  match converter st with Some c => Encoder.stdout_pending c | None => [] end.

(** A chunk is not empty and fits the read buffer. *)
Definition chunk_ok (b : bytes) : Prop :=
  0 < Z.of_nat (length b) <= Pump.READ_SIZE.

(** The objects exist once [main] has passed the line that makes them,
    and the threads run only after their [start()]. *)
Record progress (st : state) : Prop := {
  manager_made : manager st <> None -> (index InitManager < index (pc st))%nat;
  converter_made : converter st <> None -> (index SpawnEncoder < index (pc st))%nat;
  pump_started :
    broadcast_thread st <> Unstarted ->
    (index StartBroadcastThread < index (pc st))%nat;
  server_started :
    server_thread st <> Unstarted ->
    (index StartServerThread < index (pc st))%nat;
  camera_there :
    (index CameraNew < index (pc st) <= index JoinServer)%nat ->
    camera st <> None;
  manager_there :
    (index InitManager < index (pc st) <= index JoinServer)%nat ->
    manager st <> None;
  converter_there :
    (index SpawnEncoder < index (pc st) <= index JoinServer)%nat ->
    converter st <> None;
  pump_has_objects :
    broadcast_thread st <> Unstarted ->
    manager st <> None /\ converter st <> None
}.

(** The hub's bookkeeping. *)
Definition hub_sound (st : state) : Prop :=
  forall h, manager st = Some h -> Hub.tidy h /\ Hub.in_order h.

(** The pump against the encoder's output pipe. *)
Record pump_sound (st : state) : Prop := {
  nothing_lost :
    output_of st = concat (chunks_of st) ++ unread_of st;
  chunks_bounded : Forall chunk_ok (chunks_of st);
  quiet_before_start : broadcast_thread st = Unstarted -> chunks_of st = [];
  stdout_state :
    match broadcast_thread st with
    | Ended r =>
        r = None /\
        exists c, converter st = Some c /\
                  Encoder.stdout_closed c = true /\
                  Encoder.stdout_closes c = 1%nat /\
                  Encoder.stdout_pending c = [] /\
                  Encoder.returncode c <> None
    | _ =>
        forall c, converter st = Some c ->
                  Encoder.stdout_closed c = false /\
                  Encoder.stdout_closes c = 0%nat
    end
}.

(** In a trace (newest first), no action of kind [use] comes after the
    action [torn]. *)
Fixpoint clean (torn : action) (use : action -> Prop) (t : list action) : Prop :=
  match t with
  | [] => True
  | a :: older => (use a -> torn ∉ older) /\ clean torn use older
  end.


Definition is_broadcast (a : action) : Prop :=
  match a with Broadcast _ => True | _ => False end.

Definition is_frame (a : action) : Prop :=
  match a with FrameWritten | FrameLost _ => True | _ => False end.

Definition is_pump (a : action) : Prop :=
  match a with Broadcast _ | PumpExit _ => True | _ => False end.

Definition is_registration (a : action) : Prop :=
  match a with Registered (Some _) => True | _ => False end.

(** Everything that acts on the camera: a call of [main] or a frame. *)
Definition is_camera_use (a : action) : Prop :=
  match a with Call _ | FrameWritten | FrameLost _ => True | _ => False end.

(** The stop calls of a trace (newest first) are in place: those made are
    made in the order of the text, each before the current point, and a
    run without a pending exception has made all of them up to there. *)
Record stop_order (st : state) : Prop := {
  stop_sorted :
    StronglySorted (fun p q => (rank q < rank p)%nat) (stop_calls (trace st));
  stop_behind :
    Forall (fun p => (index p < index (pc st))%nat) (stop_calls (trace st));
  stop_complete :
    pending st = None ->
    rev (stop_calls (trace st)) = take (rank (pc st)) stop_sequence \/
    (pc st = Done /\ stop_calls (trace st) = [])
}.

(** In a trace (newest first), every action [a] has an action of the
    given kind before it. *)
Fixpoint preceded (a : action) (kind : action -> Prop) (t : list action) : Prop :=
  match t with
  | [] => True
  | x :: older => (x = a -> Exists kind older) /\ preceded a kind older
  end.

Definition is_pump_exit (a : action) : Prop :=
  match a with PumpExit _ => True | _ => False end.

(** What the trace says about the objects: a thread joined has ended, the
    server is shut down only after the pump has ended and its thread has
    ended from then on, the encoder's input is closed only after the
    camera has stopped recording, and after [camera.close()] the camera is
    released and [main] is over. *)
Record teardown (st : state) : Prop := {
  joined_ended :
    (pc st = ServerShutdown \/ Call JoinBroadcast ∈ trace st \/
     Call ServerShutdown ∈ trace st) ->
    exists r, broadcast_thread st = Ended r;
  shutdown_stops :
    Call ServerShutdown ∈ trace st -> server_thread st = Ended None;
  exit_logged :
    Exists is_pump_exit (trace st) <-> (exists r, broadcast_thread st = Ended r);
  input_closed_after_stop :
    (pc st = FlushClose \/ Call FlushClose ∈ trace st) ->
    forall cam, camera st = Some cam -> recording cam = false;
  closed_is_over :
    Call CameraClose ∈ trace st ->
    pc st = Done /\ forall cam, camera st = Some cam -> released cam = true
}.

(** No use of a collaborator after it was torn down. *)
Record dependencies (st : state) : Prop := {
  hub_before_shutdown : clean (Call ServerShutdown) is_broadcast (trace st);
  viewers_before_shutdown : clean (Call ServerShutdown) is_registration (trace st);
  frames_before_close : clean (Call FlushClose) is_frame (trace st);
  camera_before_release : clean (Call CameraClose) is_camera_use (trace st);
  pump_over : forall r, clean (PumpExit r) is_pump (trace st);
  join_after_exit : preceded (Call JoinBroadcast) is_pump_exit (trace st)
}.

(** Everything above together. *)
Record sound (st : state) : Prop := {
  sound_progress : progress st;
  sound_hub : hub_sound st;
  sound_pump : pump_sound st;
  sound_stop : stop_order st;
  sound_teardown : teardown st;
  sound_dependencies : dependencies st
}.

(** The sessions of the hub, when there is one: the active set, and the
    sessions that left it. *)
Definition viewers (st : state) : list Hub.session :=
  match manager st with Some h => Hub.active h | None => [] end.

Definition departed (st : state) : list Hub.session :=
  match manager st with Some h => Hub.gone h | None => [] end.

End Pipeline.

(** ** Runs used as examples *)

Module Scenario.
Import Wire Pipeline.

Definition files : option (string * string) :=
  Some ("<canvas width=$WIDTH height=$HEIGHT>", "/* jsmpg */").

Definition interrupt : event := Main (Some KeyboardInterrupt).

(** Lines 157-206 without a fault: [main] reaches its sleep loop. *)
Definition boot : list event := repeat (Main None) 13.

Definition upgrade : Wsgi.environ := {[ "HTTP_UPGRADE" := "WebSocket" ]}.

Definition page : Wsgi.environ := {[ "PATH_INFO" := "/index.html" ]}.

(** The globals once the server is up. *)
Definition serving : Wsgi.globals := globals (run boot (initial files)).

Definition ws_app : Wsgi.WebSocketWSGIApplication :=
  {| Wsgi.handler_cls := Wsgi.StreamingWebSocket |}.

Definition A : bytes := [Byte.x00; Byte.x00; Byte.x01; Byte.xb3].
Definition B : bytes := [Byte.x41; Byte.x42].
Definition C : bytes := [Byte.xff].

(** Three viewers connect, then the encoder's output is read as the
    chunks [A], [B] and [C]. *)
Definition three_viewers : list event :=
  boot ++ [Request upgrade; Request upgrade; Request upgrade;
           Emit A; PumpTurn; Emit B; PumpTurn; Emit C; PumpTurn].

(** Viewer 1 joins after [A] and its connection fails after [B]. *)
Definition one_viewer_fails : list event :=
  boot ++ [Request upgrade; Emit A; PumpTurn; Request upgrade; Request upgrade;
           Emit B; PumpTurn; PeerFails 1].

(** The encoder dies on its own; the pump drains the pipe and leaves. *)
Definition end_of_stream : list event :=
  boot ++ [Request upgrade; Emit A; PumpTurn; Exit 1; PumpTurn].

(** One interrupt, and everything the stop sequence waits for happens. *)
Definition stop_once : list event :=
  boot ++ [Request upgrade; Emit A; PumpTurn;
           interrupt; Main None; Main None; Exit 0; Main None; PumpTurn;
           Main None; Main None; Main None; Main None; Main None].

(** The same with a second interrupt while [main] waits in
    [broadcast_thread.join()] (line 216). *)
Definition stop_twice : list event :=
  boot ++ [Request upgrade; Emit A; PumpTurn;
           interrupt; Main None; Main None; Exit 0; Main None; interrupt; PumpTurn;
           Main None; Main None; Main None; Main None; Main None].

(** [main] up to its wait in [broadcast_thread.join()]. *)
Definition stopping : list event :=
  boot ++ [interrupt; Main None; Main None; Exit 0; Main None].

(** [camera.start_recording(output)] raises (line 200). *)
Definition recording_fails : list event :=
  repeat (Main None) 10 ++
  [Main (Some (OtherError "start_recording")); Main None; Main None].

(** [camera.configure(config)] raises (line 175). *)
Definition configure_fails : list event :=
  [Main None; Main None; Main (Some (OtherError "configure"))].

End Scenario.

(** ** The encoder's command line *)

Module Command.

(** [s.split(sep)] for a separator of one character: the pieces of [s]
    between the separators, in order; never an empty list. *)
Fixpoint split (sep : ascii) (s : string) : list string :=
  match s with
  | EmptyString => [EmptyString]
  | String c r =>
      if Ascii.eqb c sep then EmptyString :: split sep r
      else match split sep r with
           | piece :: rest => String c piece :: rest
           | [] => [String c EmptyString]
           end
  end.

(** [c in s] for a character [c]. *)
Definition contains (c : ascii) (s : string) : bool :=
  existsb (Ascii.eqb c) (list_ascii_of_string s).

(** [s.rstrip(chars)]: [s] without the characters of the set [chars] at
    its end. *)
Fixpoint rstrip (chars : string) (s : string) : string :=
  match s with
  | EmptyString => EmptyString
  | String c r =>
      match rstrip chars r with
      | EmptyString =>
          if contains c chars then EmptyString else String c EmptyString
      | kept => String c kept
      end
  end.

(** [camera.camera_config['main']]: the size and the pixel format. *)
Record camera_config := { size : Z * Z; format : string }.

(** What [main] asks the camera for (line 172). *)
Definition requested : camera_config :=
  {| size := (Wire.WIDTH, Wire.HEIGHT); format := "YUV420" |}.

(** Line 110: the frame rate given to ffmpeg, read behind the ['@'] of the
    format when there is one; [None] stands for the [IndexError] of
    [split('@')[1]]. *)
Definition framerate (config : camera_config) : option string :=
  if contains "@" (format config)
  then rstrip "fps" <$> (split "@" (format config) !! 1%nat)
  else Some (pretty Wire.FRAMERATE).

(** ['%dx%d' % resolution] *)
Definition resolution_text (config : camera_config) : string :=
  pretty (size config).1 +:+ "x" +:+ pretty (size config).2.

(** Lines 111-121: the argument list handed to [Popen]. *)
Definition command (config : camera_config) : option (list string) :=
  rate ← framerate config;
  Some ["ffmpeg"; "-f"; "rawvideo"; "-pix_fmt"; "yuv420p";
        "-s"; resolution_text config; "-r"; rate; "-i"; "-";
        "-f"; "mpeg1video"; "-b"; "800k"; "-r"; rate; "-"].

(** The last character of a string, if it has one. *)
Fixpoint last_char (s : string) : option ascii :=
  match s with
  | EmptyString => None
  | String c EmptyString => Some c
  | String _ r => last_char r
  end.

(** The string ends in none of the characters of [chars]. *)
Definition ends_clean (chars : string) (s : string) : Prop :=
  match last_char s with
  | Some c => contains c chars = false
  | None => True
  end.

End Command.

(** ** The calls of [main] and what they leave behind *)

Module Conduct.
Import Wire Pipeline.

(** The program points of [main] in the order of its text. *)
Definition text : list point :=
  [LoadFiles; CameraNew; CameraConfigure; CameraStart; MakeWsApp; MakeServer;
   InitManager; MakeServerThread; SpawnEncoder; MakeBroadcastThread;
   StartRecording; StartServerThread; StartBroadcastThread; Sleep;
   StopRecording; FlushClose; FlushWait; JoinBroadcast; ServerShutdown;
   JoinServer; CameraStop; CameraClose].

(** The calls of lines 157-206, which bring the pipeline up. *)
Definition startup : list point := take 13 text.

(** The calls of [main] that a trace holds, in its order. *)
Fixpoint calls (l : list action) : list point :=
  match l with
  | [] => []
  | Call p :: rest => p :: calls rest
  | _ :: rest => calls rest
  end.

(** Both files have been read into the globals. *)
Definition loaded (g : Wsgi.globals) : Prop :=
  Wsgi.INDEX_TEMPLATE g <> None /\ Wsgi.JSMPEG_CONTENT g <> None.

(** The status lines [http_app] passes to [start_response]. *)
Definition statuses : list string :=
  ["200 OK"; "301 Moved Permanently"; "404 Not Found"].

(** A request handled by [http_app] got a response, not an exception. *)
Definition well_answered (a : action) : Prop :=
  match a with
  | Answered (Wsgi.Served r) => Wsgi.status r ∈ statuses
  | Answered _ => False
  | _ => True
  end.

(** The camera as the startup has it on reaching a point: made at line
    168, started at line 176, recording from line 200. *)
Definition camera_at (p : point) : option Picamera2 :=
  if (index p <=? index CameraNew)%nat then None
  else Some {| started := (index CameraStart <? index p)%nat;
               recording := (index StartRecording <? index p)%nat;
               released := false |}.

(** The calls of a trace (newest first) are made in the order of the
    text, each one before the current point, and on the way up all of
    them have been made. *)
Record ordered (st : state) : Prop := {
  calls_sorted :
    StronglySorted (fun p q => (index q < index p)%nat) (calls (trace st));
  calls_behind :
    Forall (fun p => (index p < index (pc st))%nat) (calls (trace st));
  calls_startup :
    (index (pc st) <= index Sleep)%nat ->
    pending st = None /\ rev (calls (trace st)) = take (index (pc st)) text
}.

(** What the startup has put in place when it reaches a point, and what
    the server thread finds when it runs. *)
Record equipped (st : state) : Prop := {
  camera_state :
    (index (pc st) <= index Sleep)%nat -> camera st = camera_at (pc st);
  files_loaded :
    (index LoadFiles < index (pc st) <= index Sleep)%nat \/
    server_thread st <> Unstarted ->
    loaded (globals st);
  app_made :
    (index MakeWsApp < index (pc st) <= index Sleep)%nat \/
    server_thread st <> Unstarted ->
    Wsgi.WSGI_WS_APP (globals st) <> None;
  server_alive :
    (index StartServerThread < index (pc st) <= index Sleep)%nat ->
    server_thread st = Alive;
  pump_begun :
    (index StartBroadcastThread < index (pc st) <= index Sleep)%nat ->
    broadcast_thread st <> Unstarted;
  answers_served : Forall well_answered (trace st)
}.

(** A blocking call of the stop sequence that has returned leaves what it
    waited for in place. *)
Record settled (st : state) : Prop := {
  input_closed :
    Call FlushClose ∈ trace st ->
    exists c, converter st = Some c /\ Encoder.stdin_closed c = true;
  encoder_waited :
    Call FlushWait ∈ trace st ->
    exists c, converter st = Some c /\ Encoder.exited c = true;
  server_joined :
    Call JoinServer ∈ trace st -> exists r, server_thread st = Ended r
}.

(** The pump is in its loop with an exited encoder whose unread output
    fits in [k] reads. *)
Definition draining (k : nat) (st : state) : Prop :=
  broadcast_thread st = Alive /\
  exists c h, converter st = Some c /\ manager st = Some h /\
              Encoder.stdout_closed c = false /\ Encoder.exited c = true /\
              (length (Encoder.stdout_pending c) <= k * Z.to_nat Pump.READ_SIZE)%nat.

(** The chunks handed to the hub that a trace or a history records, in
    its order. *)
Fixpoint broadcasts (l : list action) : list bytes :=
  match l with
  | [] => []
  | Broadcast b :: rest => b :: broadcasts rest
  | _ :: rest => broadcasts rest
  end.

(** The chunks broadcast since the viewer [id] registered, oldest first,
    read off a trace (newest first); [None] when the trace holds no
    registration of [id]. *)
Fixpoint heard (id : nat) (t : list action) : option (list bytes) :=
  match t with
  | [] => None
  | Registered (Some j) :: older =>
      if decide (j = id) then Some [] else heard id older
  | Broadcast b :: older => (fun cs => cs ++ [b]) <$> heard id older
  | _ :: older => heard id older
  end.

(** The hub's record of the chunks, and of the moment each session
    joined, agrees with what the threads did. *)
Record attended (st : state) : Prop := {
  chunks_logged : broadcasts (trace st) = rev (chunks_of st);
  sessions_logged :
    Forall (fun s => heard (Hub.sid s) (trace st)
                     = Some (drop (Hub.joined s) (chunks_of st)))
           (viewers st ++ departed st)
}.




(** The states of a run that found no files to serve. *)
Definition idle (st : state) : Prop :=
  disk st = None /\ camera st = None /\ manager st = None /\
  converter st = None /\ server_thread st = Unstarted /\
  broadcast_thread st = Unstarted /\ trace st = [] /\
  (pc st = LoadFiles \/ pc st = Done).

End Conduct.

(** * Proofs *)

Section WsgiFacts.
Import Wsgi.

Lemma N_of_ascii_bound a : (N_of_ascii a < 256)%N.
Proof. apply N_ascii_bounded. Qed.

Lemma lower_char_letter a b :
  lowercase_letter b -> lower_char a = b <-> same_letter a b.
Proof.
  unfold lowercase_letter, lower_char, same_letter. intros Hb.
  pose proof (N_of_ascii_bound a) as Ha.
  split.
  - destruct (_ || _)%bool eqn:E; intros H.
    + right. exists (N_of_ascii a).
      assert (Hn : N_of_ascii b = (N_of_ascii a + 32)%N).
      { rewrite <- H. apply N_ascii_embedding.
        rewrite orb_true_iff, !andb_true_iff, !N.leb_le in E. lia. }
      split; [lia | left; split; [reflexivity | exact Hn]].
    + left. exact H.
  - intros [-> | (n & Hn & [[H1 H2] | [H1 H2]])].
    + destruct (_ || _)%bool eqn:E; [| reflexivity].
      rewrite orb_true_iff, !andb_true_iff, !N.leb_le in E. lia.
    + destruct (_ || _)%bool eqn:E.
      * rewrite H1, <- H2. apply ascii_N_embedding.
      * rewrite orb_false_iff, !andb_false_iff, !N.leb_gt in E. lia.
    + lia.
Qed.

Lemma lower_caseless s t :
  Forall lowercase_letter (list_ascii_of_string t) ->
  lower s = t <-> caseless s t.
Proof.
  revert t. induction s as [| a s IH]; intros [| b t] Ht; simpl; try (split; [discriminate | tauto]).
  - tauto.
  - simpl in Ht. inversion Ht as [| ? ? Hb Ht']; subst.
    rewrite <- (lower_char_letter a b Hb), <- (IH t Ht').
    split; [intros [= -> ->]; auto | intros [-> ->]; reflexivity].
Qed.

Lemma websocket_lowercase :
  Forall lowercase_letter (list_ascii_of_string "websocket").
Proof. repeat constructor; unfold lowercase_letter; simpl; lia. Qed.

(** C8: a request whose Upgrade header equals "websocket" up to the case
    of its letters goes to the WebSocket application, every other request
    to the static-asset application [http_app]. *)
Theorem application_routes_upgrades (g : globals) (e : environ)
    (app : WebSocketWSGIApplication) :
  WSGI_WS_APP g = Some app ->
  (caseless (get e "HTTP_UPGRADE") "websocket" -> application g e = Upgraded app e) /\
  (~ caseless (get e "HTTP_UPGRADE") "websocket" -> application g e = http_app g e).
Proof.
  intros Happ. unfold application. rewrite Happ.
  pose proof (lower_caseless (get e "HTTP_UPGRADE") "websocket" websocket_lowercase) as H.
  destruct (decide _) as [E | E]; split; intros Hc; try reflexivity.
  - apply H in E. contradiction.
  - apply H in Hc. contradiction.
Qed.

Lemma application_routes_upgrades_witness :
  application Scenario.serving Scenario.upgrade
    = Upgraded Scenario.ws_app Scenario.upgrade /\
  application Scenario.serving Scenario.page
    = http_app Scenario.serving Scenario.page.
Proof.
  destruct (application_routes_upgrades Scenario.serving Scenario.upgrade
              Scenario.ws_app eq_refl) as [Hup _].
  destruct (application_routes_upgrades Scenario.serving Scenario.page
              Scenario.ws_app eq_refl) as [_ Hpage].
  split.
  - apply Hup. apply lower_caseless; [apply websocket_lowercase | vm_compute; reflexivity].
  - apply Hpage. vm_compute. intros H. exact H.
Defined.

End WsgiFacts.

Section HubFacts.
Import Wire Hub.

Lemma pack_stream_header :
  JSMPEG_HEADER_pack JSMPEG_MAGIC WIDTH HEIGHT = Some stream_header.
Proof. reflexivity. Qed.

Lemma send_spec s m :
  send s m = if deliverable s then Some (push m s) else None.
Proof. unfold send, deliverable. destruct (broken s || negb (alive s)); reflexivity. Qed.

Lemma opened_connect id seen :
  opened (connect id seen) = Some (push (Header stream_header) (connect id seen)).
Proof. reflexivity. Qed.

Lemma fan_out_spec chunk ss :
  fan_out chunk ss =
    (push (Chunk chunk) <$> filter (fun s => deliverable s = true) ss,
     reverse (drop_failed <$> filter (fun s => ~ deliverable s = true) ss)).
Proof.
  induction ss as [| s ss IH]; [reflexivity |].
  simpl. rewrite IH. unfold deliver. rewrite send_spec.
  rewrite !filter_cons.
  destruct (deliverable s) eqn:E.
  - rewrite decide_True by reflexivity. rewrite decide_False by (intros H; apply H; reflexivity).
    reflexivity.
  - rewrite decide_False by discriminate. rewrite decide_True by discriminate.
    rewrite fmap_cons, reverse_cons. reflexivity.
Qed.

Lemma broadcast_active chunk h :
  active (broadcast chunk h) =
    push (Chunk chunk) <$> filter (fun s => deliverable s = true) (active h).
Proof. unfold broadcast. rewrite fan_out_spec. reflexivity. Qed.

Lemma broadcast_gone chunk h :
  gone (broadcast chunk h) =
    reverse (drop_failed <$> filter (fun s => ~ deliverable s = true) (active h)) ++ gone h.
Proof. unfold broadcast. rewrite fan_out_spec. reflexivity. Qed.

Lemma broadcast_chunks chunk h : chunks (broadcast chunk h) = chunks h ++ [chunk].
Proof. unfold broadcast. destruct (fan_out chunk (active h)). reflexivity. Qed.

Lemma broadcast_closed chunk h : closed (broadcast chunk h) = closed h.
Proof. unfold broadcast. destruct (fan_out chunk (active h)). reflexivity. Qed.

Lemma broadcast_next_sid chunk h : next_sid (broadcast chunk h) = next_sid h.
Proof. unfold broadcast. destruct (fan_out chunk (active h)). reflexivity. Qed.

(** Moving part of the active set to the sessions that left, under maps
    that keep the identifiers, permutes the identifiers. *)
Lemma sids_moved (P Q : session -> Prop)
    `{!forall s, Decision (P s)} `{!forall s, Decision (Q s)}
    (f g : session -> session) (l k : list session) :
  (forall s, Q s <-> ~ P s) ->
  (forall s, sid (f s) = sid s) -> (forall s, sid (g s) = sid s) ->
  sid <$> ((f <$> filter P l) ++ reverse (g <$> filter Q l) ++ k)
  ≡ₚ sid <$> (l ++ k).
Proof.
  intros HQ Hf Hg. rewrite !fmap_app, fmap_reverse, reverse_Permutation.
  rewrite <- !list_fmap_compose.
  rewrite (list_fmap_ext (sid ∘ f) sid) by (intros; apply Hf).
  rewrite (list_fmap_ext (sid ∘ g) sid) by (intros; apply Hg).
  rewrite (list_filter_iff Q (fun s => ~ P s)) by exact HQ.
  rewrite app_assoc, <- fmap_app, filter_app_complement. reflexivity.
Qed.

Lemma Forall_moved (R : session -> Prop) (P : session -> Prop)
    `{!forall s, Decision (P s)} (g : session -> session) (l k : list session) :
  (forall s, s ∈ l -> P s -> R (g s)) -> Forall R k ->
  Forall R (reverse (g <$> filter P l) ++ k).
Proof.
  intros Hg Hk. rewrite Forall_app, Forall_reverse, Forall_fmap. split; [| exact Hk].
  apply Forall_forall. intros s Hs. apply list_elem_of_filter in Hs as [HP Hs].
  apply Hg; assumption.
Qed.

Lemma Forall_kept (R : session -> Prop) (P : session -> Prop)
    `{!forall s, Decision (P s)} (f : session -> session) (l : list session) :
  (forall s, s ∈ l -> P s -> R (f s)) ->
  Forall R (f <$> filter P l).
Proof.
  intros Hf. rewrite Forall_fmap. apply Forall_forall. intros s Hs.
  apply list_elem_of_filter in Hs as [HP Hs]. apply Hf; assumption.
Qed.

Lemma Forall_mono {A} (P Q : A -> Prop) (l : list A) :
  (forall x, P x -> Q x) -> Forall P l -> Forall Q l.
Proof. intros H HP. induction HP; constructor; auto. Qed.

Lemma bound_permuted (n : nat) (l k : list session) :
  sid <$> l ≡ₚ sid <$> k ->
  Forall (fun s => (sid s < n)%nat) k -> Forall (fun s => (sid s < n)%nat) l.
Proof.
  intros Hp Hk.
  apply (Forall_fmap sid (fun i => (i < n)%nat)).
  rewrite Hp. apply (Forall_fmap sid (fun i => (i < n)%nat)). exact Hk.
Qed.

Lemma tidy_empty : tidy empty.
Proof. repeat split; try constructor. Qed.

Lemma tidy_register h : tidy h -> tidy (register h).2.
Proof.
  intros Ht. unfold register.
  destruct (closed h) eqn:E; [exact Ht |].
  destruct Ht as (Ha & Hg & Hb & Hn & Hc).
  rewrite opened_connect. unfold tidy, sessions in *. simpl.
  split; [| split; [| split; [| split]]].
  - apply Forall_app. split; [exact Ha |]. repeat constructor.
  - exact Hg.
  - rewrite <- app_assoc. rewrite !Forall_app in *. destruct Hb as [Hb1 Hb2].
    repeat split.
    + eapply Forall_mono; [| exact Hb1]. simpl. intros; lia.
    + constructor; [simpl; lia | constructor].
    + eapply Forall_mono; [| exact Hb2]. simpl. intros; lia.
  - rewrite <- app_assoc, fmap_app. simpl.
    rewrite <- Permutation_middle, <- fmap_app. apply NoDup_cons. split; [| exact Hn].
    intros Hin. apply list_elem_of_fmap in Hin as (s & Hs & Hin).
    rewrite Forall_forall in Hb. specialize (Hb s Hin). lia.
  - discriminate.
Qed.

Lemma tidy_broadcast chunk h : tidy h -> tidy (broadcast chunk h).
Proof.
  intros (Ha & Hg & Hb & Hn & Hc). unfold tidy, sessions in *.
  rewrite broadcast_active, broadcast_gone, broadcast_closed, broadcast_next_sid.
  rewrite Forall_forall in Ha.
  split; [| split; [| split; [| split]]].
  - apply Forall_kept. intros s Hs _. exact (Ha s Hs).
  - apply Forall_moved; [| exact Hg]. intros s Hs _.
    destruct (Ha s Hs) as (_ & H1 & H2). simpl. rewrite H1, H2. auto.
  - eapply bound_permuted; [| exact Hb].
    apply sids_moved; [tauto | reflexivity | reflexivity].
  - rewrite sids_moved; [exact Hn | tauto | reflexivity | reflexivity].
  - intros E. rewrite (Hc E). reflexivity.
Qed.

Lemma tidy_shutdown h : tidy h -> tidy (shutdown h).
Proof.
  intros (Ha & Hg & Hb & Hn & Hc). unfold tidy, sessions in *. simpl.
  rewrite Forall_forall in Ha.
  assert (Hp : sid <$> reverse (close <$> active h) ++ gone h ≡ₚ sid <$> active h ++ gone h).
  { rewrite !fmap_app, fmap_reverse, reverse_Permutation, <- list_fmap_compose.
    reflexivity. }
  split; [| split; [| split; [| split]]].
  - constructor.
  - rewrite Forall_app, Forall_reverse, Forall_fmap. split; [| exact Hg].
    apply Forall_forall. intros s Hs. destruct (Ha s Hs) as (_ & H1 & H2).
    simpl. rewrite H1, H2. auto.
  - eapply bound_permuted; [exact Hp | exact Hb].
  - rewrite Hp. exact Hn.
  - reflexivity.
Qed.

Lemma tidy_fail_peer id h : tidy h -> tidy (fail_peer id h).
Proof.
  intros (Ha & Hg & Hb & Hn & Hc). unfold tidy, sessions in *. simpl.
  set (f := fun s => if decide (sid s = id) then fail_connection s else s).
  assert (Hf : forall s, sid (f s) = sid s).
  { intros s. unfold f. destruct (decide _); reflexivity. }
  assert (Hp : sid <$> (f <$> active h) ++ gone h = sid <$> active h ++ gone h).
  { rewrite !fmap_app, <- list_fmap_compose. f_equal.
    apply list_fmap_ext. intros; apply Hf. }
  split; [| split; [| split; [| split]]].
  - rewrite Forall_fmap. eapply Forall_mono; [| exact Ha]. intros s Hs.
    unfold f; simpl. destruct (decide _); exact Hs.
  - exact Hg.
  - eapply bound_permuted; [rewrite Hp; reflexivity | exact Hb].
  - rewrite Hp. exact Hn.
  - intros E. rewrite (Hc E). reflexivity.
Qed.

Lemma tidy_hang_up id h : tidy h -> tidy (hang_up id h).
Proof.
  intros (Ha & Hg & Hb & Hn & Hc). unfold tidy, sessions in *. simpl.
  rewrite Forall_forall in Ha.
  assert (Hp : sid <$> filter (fun s => sid s ≠ id) (active h)
                 ++ reverse (close <$> filter (fun s => sid s = id) (active h)) ++ gone h
               ≡ₚ sid <$> active h ++ gone h).
  { rewrite <- (sids_moved (fun s => sid s ≠ id) (fun s => sid s = id)
                     (@Datatypes.id session) close (active h) (gone h)).
    - rewrite list_fmap_id. reflexivity.
    - intros s. destruct (decide (sid s = id)); tauto.
    - reflexivity.
    - reflexivity. }
  split; [| split; [| split; [| split]]].
  - apply Forall_forall. intros s Hs. apply list_elem_of_filter in Hs as [_ Hs].
    exact (Ha s Hs).
  - apply Forall_moved; [| exact Hg]. intros s Hs _.
    destruct (Ha s Hs) as (_ & H1 & H2). simpl. rewrite H1, H2. auto.
  - eapply bound_permuted; [exact Hp | exact Hb].
  - rewrite Hp. exact Hn.
  - intros E. rewrite (Hc E). reflexivity.
Qed.

End HubFacts.

Section HubOrder.
Import Wire Hub.

Lemma sent_all_some cs s s' :
  joined s' = joined s -> outbound s' = outbound s ->
  sent_all cs s -> sent_some cs s'.
Proof.
  intros Hj Ho [Hle Hout]. exists (length cs - joined s)%nat.
  rewrite Hj, Ho. split; [lia |].
  rewrite take_ge by (rewrite length_drop; lia). exact Hout.
Qed.

Lemma sent_all_push cs c s :
  sent_all cs s -> sent_all (cs ++ [c]) (push (Chunk c) s).
Proof.
  intros [Hle Hout]. split; simpl.
  - rewrite length_app. lia.
  - rewrite Hout, drop_app_le, fmap_app by exact Hle. reflexivity.
Qed.

Lemma sent_some_more cs c s : sent_some cs s -> sent_some (cs ++ [c]) s.
Proof.
  intros (k & Hle & Hout). exists k. split.
  - rewrite length_app. lia.
  - rewrite Hout, drop_app_le, take_app_le by (try rewrite length_drop; lia).
    reflexivity.
Qed.

Lemma in_order_empty : in_order empty.
Proof. split; constructor. Qed.

Lemma in_order_register h : in_order h -> in_order (register h).2.
Proof.
  intros Ho. unfold register. destruct (closed h); [exact Ho |].
  rewrite opened_connect. destruct Ho as [Ha Hg]. split; simpl; [| exact Hg].
  apply Forall_app. split; [exact Ha |].
  constructor; [| constructor]. unfold sent_all. simpl. split; [lia |].
  rewrite drop_all. reflexivity.
Qed.

Lemma in_order_broadcast chunk h : in_order h -> in_order (broadcast chunk h).
Proof.
  intros [Ha Hg]. unfold in_order.
  rewrite broadcast_active, broadcast_gone, broadcast_chunks.
  rewrite Forall_forall in Ha. split.
  - apply Forall_kept. intros s Hs _. apply (sent_all_push _ _ _ (Ha s Hs)).
  - apply Forall_moved.
    + intros s Hs _. apply sent_some_more.
      apply (sent_all_some _ s); [reflexivity | reflexivity | exact (Ha s Hs)].
    + eapply Forall_mono; [| exact Hg]. intros s. apply sent_some_more.
Qed.

Lemma in_order_shutdown h : in_order h -> in_order (shutdown h).
Proof.
  intros [Ha Hg]. split; simpl; [constructor |].
  rewrite Forall_forall in Ha.
  rewrite Forall_app, Forall_reverse, Forall_fmap. split; [| exact Hg].
  apply Forall_forall. intros s Hs.
  apply (sent_all_some _ s); [reflexivity | reflexivity | exact (Ha s Hs)].
Qed.

Lemma in_order_fail_peer id h : in_order h -> in_order (fail_peer id h).
Proof.
  intros [Ha Hg]. split; simpl; [| exact Hg].
  rewrite Forall_fmap. eapply Forall_mono; [| exact Ha]. intros s Hs.
  simpl. destruct (decide _); exact Hs.
Qed.

Lemma in_order_hang_up id h : in_order h -> in_order (hang_up id h).
Proof.
  intros [Ha Hg]. rewrite Forall_forall in Ha. split; simpl.
  - apply Forall_forall. intros s Hs. apply list_elem_of_filter in Hs as [_ Hs].
    exact (Ha s Hs).
  - apply Forall_moved; [| exact Hg]. intros s Hs _.
    apply (sent_all_some _ s); [reflexivity | reflexivity | exact (Ha s Hs)].
Qed.

End HubOrder.

Ltac forward :=
  repeat match goal with
  | H : ?P -> _, H' : ?P |- _ => specialize (H H')
  | H : ?P -> _ |- _ =>
      first [specialize (H ltac:(congruence)) | specialize (H ltac:(lia))]
  end.

Ltac settle :=
  intros; forward; try lia; try tauto; try congruence;
  try solve [intuition (congruence || lia)].


Section PipelineFacts.
Import Wire Pipeline.


Lemma run_app s1 s2 st : run (s1 ++ s2) st = run s2 (run s1 st).
Proof. unfold run. apply fold_left_app. Qed.

Lemma run_invariant (P : state -> Prop) :
  (forall st ev, P st -> P (step ev st)) ->
  forall schedule st, P st -> P (run schedule st).
Proof.
  intros Hstep schedule. induction schedule as [| ev rest IH]; intros st HP; [exact HP |].
  simpl. apply IH, Hstep, HP.
Qed.

Lemma fmap_not_None {A B} (f : A -> B) (o : option A) : f <$> o <> None <-> o <> None.
Proof. destruct o; simpl; split; congruence. Qed.

Lemma progress_initial files : progress (initial files).
Proof. constructor; simpl; try congruence; lia. Qed.

Lemma progress_step st ev : progress st -> progress (step ev st).
Proof.
  intros [H1 H2 H3 H4 H5 H6 H7 H8].
  destruct ev as [[e |] | | b | b | z | e | id | id].
  - (* main raises *)
    unfold step, unwind. destruct (pc st) eqn:Epc; repeat case_match;
      constructor; simpl in *; rewrite ?Epc in *; simpl in *;
      settle.
  - (* main moves on *)
    unfold step, advance, join, unwind, finish.
    destruct (pc st) eqn:Epc; repeat case_match;
      constructor; simpl in *; rewrite ?Epc in *; simpl in *;
      rewrite ?fmap_not_None in *; settle.
  - (* the pump turns *)
    unfold step, pump_turn, log_turn. repeat case_match; subst;
      constructor; simpl in *; settle.
  - unfold step, frame. repeat case_match; subst;
      constructor; simpl in *; settle.
  - constructor; simpl in *; rewrite ?fmap_not_None in *; settle.
  - constructor; simpl in *; rewrite ?fmap_not_None in *; settle.
  - unfold step, request. repeat case_match; subst;
      constructor; simpl in *; settle.
  - constructor; simpl in *; rewrite ?fmap_not_None in *; settle.
  - constructor; simpl in *; rewrite ?fmap_not_None in *; settle.
Qed.


End PipelineFacts.

Section MoreFacts.
Import Wire Pipeline.
Import Hub (hub_move).

Lemma hub_move_tidy h h' : hub_move h h' -> Hub.tidy h -> Hub.tidy h'.
Proof.
  intros [] Ht; auto using tidy_register, tidy_broadcast, tidy_shutdown,
    tidy_fail_peer, tidy_hang_up.
Qed.

Lemma hub_move_in_order h h' : hub_move h h' -> Hub.in_order h -> Hub.in_order h'.
Proof.
  intros [] Ht; auto using in_order_register, in_order_broadcast,
    in_order_shutdown, in_order_fail_peer, in_order_hang_up.
Qed.

Lemma hub_move_closed h h' : hub_move h h' -> Hub.closed h = true -> Hub.closed h' = true.
Proof.
  intros [] Hc; simpl; auto.
  - unfold Hub.register. rewrite Hc. exact Hc.
  - rewrite broadcast_closed. exact Hc.
Qed.

(** What one turn of the pump loop does, case by case. *)
Lemma iteration_spec (c : Encoder.Popen) (h : Hub.hub) :
  let n := Z.to_nat Pump.READ_SIZE in
  let buf := take n (Encoder.stdout_pending c) in
  Pump.iteration c h =
    if Encoder.stdout_closed c then
      (Encoder.stdout_close c, h, None, Ended (Some ValueError))
    else if Pump.is_empty buf then
      match Encoder.returncode c with
      | Some _ => (Encoder.stdout_close (Encoder.consume n c), h, None, Ended None)
      | None => (Encoder.consume n c, h, None, Alive)
      end
    else (Encoder.consume n c, Hub.broadcast buf h, Some buf, Alive).
Proof.
  unfold Pump.iteration, Encoder.read1. simpl.
  destruct (Encoder.stdout_closed c); [reflexivity |].
  destruct (Pump.is_empty _); reflexivity.
Qed.

Lemma manager_step st ev :
  manager (step ev st) = manager st \/
  manager (step ev st) = Some Hub.empty /\ pc st = InitManager \/
  exists h h', manager st = Some h /\ manager (step ev st) = Some h' /\ hub_move h h'.
Proof.
  destruct ev as [[e |] | | b | b | z | e | id | id].
  - left. unfold step, unwind. repeat case_match; reflexivity.
  - unfold step, advance, join, unwind, finish.
    destruct (pc st) eqn:Epc; repeat case_match; simpl; auto.
  - unfold step, pump_turn. destruct (broadcast_thread st); auto.
    destruct (converter st) as [c |]; auto.
    destruct (manager st) as [h |] eqn:Em; auto.
    rewrite iteration_spec. cbv zeta.
    destruct (Encoder.stdout_closed c); [simpl; rewrite ?Em; auto |].
    destruct (Pump.is_empty _);
      [destruct (Encoder.returncode c); simpl; rewrite ?Em; auto |].
    right; right. eexists _, _. split; [reflexivity |]. split; [reflexivity |].
    constructor.
  - left. unfold step, frame. repeat case_match; reflexivity.
  - left. reflexivity.
  - left. reflexivity.
  - unfold step, request. destruct (server_thread st); auto.
    destruct (Wsgi.application _ _); auto.
    destruct (manager st) as [h |] eqn:Em; auto.
    destruct (Hub.register h) as [o h'] eqn:Er. simpl.
    right; right. exists h, h'. split; [reflexivity |]. split; [reflexivity |].
    change h' with (o, h').2. rewrite <- Er. constructor.
  - simpl. destruct (manager st) as [h |]; simpl; [| auto].
    right; right. eexists _, _. eauto using Hub.hub_move.
  - simpl. destruct (manager st) as [h |]; simpl; [| auto].
    right; right. eexists _, _. eauto using Hub.hub_move.
Qed.

Lemma hub_sound_initial files : hub_sound (initial files).
Proof. intros h. discriminate. Qed.

Lemma hub_sound_step st ev : hub_sound st -> hub_sound (step ev st).
Proof.
  intros Hs h' Hm.
  destruct (manager_step st ev) as [E | [[E _] | (h & h'' & E1 & E2 & Hmove)]].
  - apply Hs. congruence.
  - assert (h' = Hub.empty) by congruence. subst.
    split; [apply tidy_empty | apply in_order_empty].
  - assert (h'' = h') by congruence. subst.
    destruct (Hs h E1) as [Ht Ho].
    split; [eapply hub_move_tidy | eapply hub_move_in_order]; eassumption.
Qed.

End MoreFacts.

Ltac case_goal :=
  match goal with
  | |- context [match ?x with _ => _ end] => destruct x eqn:?
  end.

Section PumpFacts.
Import Wire Pipeline.

Lemma pump_sound_initial files : pump_sound (initial files).
Proof. constructor; simpl; auto. intros; discriminate. Qed.

Lemma take_chunk_ok (l : bytes) :
  Pump.is_empty (take (Z.to_nat Pump.READ_SIZE) l) = false ->
  chunk_ok (take (Z.to_nat Pump.READ_SIZE) l).
Proof.
  intros H. unfold chunk_ok. rewrite length_take.
  destruct (take _ l) eqn:E; [discriminate |].
  assert (length (take (Z.to_nat Pump.READ_SIZE) l) <> 0%nat) by (rewrite E; discriminate).
  rewrite length_take in *. unfold Pump.READ_SIZE in *. lia.
Qed.

Lemma is_empty_nil (b : bytes) : Pump.is_empty b = true -> b = [].
Proof. destruct b; [reflexivity | discriminate]. Qed.

Lemma take_nil_pending (n : nat) (l : bytes) : (0 < n)%nat -> take n l = [] -> l = [].
Proof. destruct n, l; simpl; intros; try lia; congruence. Qed.

Lemma pump_sound_view st st' :
  converter st' = converter st -> manager st' = manager st ->
  broadcast_thread st' = broadcast_thread st ->
  pump_sound st -> pump_sound st'.
Proof.
  intros E1 E2 E3 [N B Q S].
  constructor; unfold output_of, unread_of, chunks_of in *; rewrite ?E1, ?E2, ?E3;
    assumption.
Qed.

Lemma pump_sound_step st ev : progress st -> pump_sound st -> pump_sound (step ev st).
Proof.
  intros Hp Hs.
  pose proof (pump_started st Hp) as P1.
  pose proof (converter_made st Hp) as P2.
  pose proof (manager_made st Hp) as P3.
  destruct ev as [[e |] | | b | b | z | e | id | id].
  - unfold step, unwind.
    repeat case_goal; (apply (pump_sound_view st); [reflexivity .. | exact Hs]).
  - unfold step, advance, join, unwind, finish.
    destruct (pc st) eqn:Epc; simpl in P1, P2, P3; repeat case_goal;
      try (apply (pump_sound_view st); [reflexivity .. | exact Hs]).
    + (* InitManager: nothing has been spawned yet *)
      assert (Ec : converter st = None) by (destruct (converter st); [exfalso; forward; lia | reflexivity]).
      assert (Eb : broadcast_thread st = Unstarted) by (destruct (broadcast_thread st); [reflexivity | exfalso; forward; lia ..]).
      destruct Hs as [N B Q S].
      constructor; unfold output_of, unread_of, chunks_of in *; simpl in *;
        rewrite ?Ec, ?Eb in *; auto; try discriminate.
    + (* SpawnEncoder: the pump has not started, nothing was broadcast *)
      assert (Eb : broadcast_thread st = Unstarted) by (destruct (broadcast_thread st); [reflexivity | exfalso; forward; lia ..]).
      destruct Hs as [N B Q S].
      constructor; unfold output_of, unread_of, chunks_of in *; simpl in *;
        rewrite ?Eb in *; auto.
      * rewrite (Q eq_refl). reflexivity.
      * intros c [= <-]. auto.
    + (* StartBroadcastThread *)
      assert (Eb : broadcast_thread st = Unstarted) by (destruct (broadcast_thread st); [reflexivity | exfalso; forward; lia ..]).
      destruct Hs as [N B Q S].
      constructor; unfold output_of, unread_of, chunks_of in *; simpl in *;
        rewrite ?Eb in *; auto; try discriminate.
    + (* FlushClose *)
      destruct Hs as [N B Q S].
      constructor; unfold output_of, unread_of, chunks_of in *; simpl in *; auto.
      * destruct (converter st); exact N.
      * destruct (broadcast_thread st); auto.
        -- intros c Hc. destruct (converter st) as [c0 |]; [| discriminate].
           injection Hc as <-. apply (S c0 eq_refl).
        -- intros c Hc. destruct (converter st) as [c0 |]; [| discriminate].
           injection Hc as <-. apply (S c0 eq_refl).
        -- destruct S as [-> (c & Ec & S)]. split; [reflexivity |].
           rewrite Ec. exists (Encoder.stdin_close c). auto.
  - (* the pump turns *)
    unfold step, pump_turn.
    destruct (broadcast_thread st) eqn:Eb; try exact Hs.
    destruct (converter st) as [c |] eqn:Ec; try exact Hs.
    destruct (manager st) as [h |] eqn:Em; try exact Hs.
    destruct Hs as [N B Q S].
    unfold output_of, unread_of, chunks_of in *. rewrite Eb, Ec, Em in *.
    destruct (S c eq_refl) as [S1 S2].
    rewrite iteration_spec. cbv zeta. rewrite S1.
    destruct (Pump.is_empty _) eqn:Ebuf.
    + apply is_empty_nil, take_nil_pending in Ebuf; [| unfold Pump.READ_SIZE; lia].
      destruct (Encoder.returncode c) eqn:Er;
        constructor; unfold output_of, unread_of, chunks_of; simpl;
        rewrite ?Em, ?Ebuf, ?drop_nil; try rewrite Ebuf in N; auto; try discriminate.
      * split; [reflexivity |]. eexists. split; [reflexivity |]. simpl.
        rewrite S2, Ebuf, Er, drop_nil. repeat split; auto.
      * intros c' [= <-]. simpl. auto.
    + constructor; unfold output_of, unread_of, chunks_of; simpl; try discriminate.
      * rewrite broadcast_chunks, concat_app. simpl. rewrite app_nil_r, <- app_assoc.
        rewrite take_drop. exact N.
      * rewrite broadcast_chunks. apply Forall_app. split; [exact B |].
        constructor; [| constructor]. apply take_chunk_ok. exact Ebuf.
      * intros c' [= <-]. simpl. auto.
  - (* a frame from the camera *)
    unfold step, frame.
    destruct (camera st); try exact Hs.
    destruct (converter st) as [c |] eqn:Ec; try exact Hs.
    destruct (producing _); try exact Hs.
    destruct (Encoder.write b c) as [x | c'] eqn:Ew;
      [apply (pump_sound_view st); [reflexivity .. | exact Hs] |].
    unfold Encoder.write, Encoder.stdin_write in Ew.
    destruct (Encoder.stdin_closed c); [discriminate |].
    destruct (Encoder.exited c); [discriminate |]. injection Ew as <-.
    destruct Hs as [N B Q S].
    constructor; unfold output_of, unread_of, chunks_of in *; simpl;
      rewrite ?Ec in *; auto.
    destruct (broadcast_thread st).
    + intros c' [= <-]. apply (S c eq_refl).
    + intros c' [= <-]. apply (S c eq_refl).
    + destruct S as [-> (c0 & [= <-] & S)]. split; [reflexivity |].
      eexists. split; [reflexivity |]. exact S.
  - (* the encoder emits *)
    simpl. destruct (converter st) as [c |] eqn:Ec;
      [| apply (pump_sound_view st); [simpl; rewrite ?Ec; reflexivity .. | exact Hs]].
    simpl. unfold Encoder.emit. destruct (Encoder.exited c) eqn:Ex;
      [apply (pump_sound_view st); [simpl; rewrite ?Ec; reflexivity .. | exact Hs] |].
    destruct Hs as [N B Q S].
    constructor; unfold output_of, unread_of, chunks_of in *; simpl;
      rewrite ?Ec in *; auto.
    + rewrite N, app_assoc. reflexivity.
    + destruct (broadcast_thread st).
      * intros c' [= <-]. apply (S c eq_refl).
      * intros c' [= <-]. apply (S c eq_refl).
      * destruct S as [-> (c0 & [= <-] & S)]. unfold Encoder.exited in Ex.
        destruct (Encoder.returncode c); [discriminate | tauto].
  - (* the encoder exits *)
    simpl. destruct (converter st) as [c |] eqn:Ec;
      [| apply (pump_sound_view st); [simpl; rewrite ?Ec; reflexivity .. | exact Hs]].
    simpl. unfold Encoder.terminate. destruct (Encoder.exited c) eqn:Ex;
      [apply (pump_sound_view st); [simpl; rewrite ?Ec; reflexivity .. | exact Hs] |].
    destruct Hs as [N B Q S].
    constructor; unfold output_of, unread_of, chunks_of in *; simpl;
      rewrite ?Ec in *; auto.
    destruct (broadcast_thread st).
    + intros c' [= <-]. apply (S c eq_refl).
    + intros c' [= <-]. apply (S c eq_refl).
    + destruct S as [-> (c0 & [= <-] & S)]. unfold Encoder.exited in Ex.
      destruct (Encoder.returncode c); [discriminate | tauto].
  - (* a request *)
    unfold step, request.
    destruct (server_thread st); try exact Hs.
    destruct (Wsgi.application _ _);
      try (apply (pump_sound_view st); [reflexivity .. | exact Hs]).
    destruct (manager st) as [h |] eqn:Em; try exact Hs.
    destruct (Hub.register h) as [o h'] eqn:Er.
    assert (Ech : Hub.chunks h' = Hub.chunks h).
    { unfold Hub.register in Er. destruct (Hub.closed h); [congruence |].
      rewrite opened_connect in Er. injection Er as _ <-. reflexivity. }
    destruct Hs as [N B Q S].
    constructor; unfold output_of, unread_of, chunks_of in *; simpl;
      rewrite ?Em, ?Ech in *; auto.
  - destruct Hs as [N B Q S].
    constructor; unfold output_of, unread_of, chunks_of in *; simpl;
      destruct (manager st); auto.
  - destruct Hs as [N B Q S].
    constructor; unfold output_of, unread_of, chunks_of in *; simpl;
      destruct (manager st); auto.
Qed.

End PumpFacts.

Section StopFacts.
Import Wire Pipeline.

Lemma stop_calls_range t :
  Forall (fun p => (14 <= index p <= 21)%nat) (stop_calls t).
Proof.
  induction t as [| a t IH]; simpl; [constructor |].
  destruct a; try exact IH.
  destruct (in_stop_sequence p) eqn:E; [| exact IH].
  constructor; [| exact IH]. destruct p; simpl in *; try discriminate; lia.
Qed.

Lemma stop_calls_elem p t :
  in_stop_sequence p = true -> Call p ∈ t <-> p ∈ stop_calls t.
Proof.
  intros Hp. induction t as [| a t IH]; simpl.
  - rewrite !elem_of_nil. tauto.
  - rewrite elem_of_cons.
    destruct a as [q | | | | | |]; try (rewrite <- IH; split; [intros [[=] | H]; exact H | auto]).
    destruct (in_stop_sequence q) eqn:E.
    + rewrite elem_of_cons, <- IH. split; intros [H | H]; auto; left; congruence.
    + rewrite <- IH. split; [intros [[= H] | H]; [congruence | exact H] | auto].
Qed.

Lemma stop_calls_app t1 t2 : stop_calls (t1 ++ t2) = stop_calls t1 ++ stop_calls t2.
Proof.
  induction t1 as [| a t1 IH]; simpl; [reflexivity |].
  destruct a; try exact IH. destruct (in_stop_sequence p); simpl; congruence.
Qed.

Lemma stop_calls_rev t : stop_calls (rev t) = rev (stop_calls t).
Proof.
  induction t as [| a t IH]; simpl; [reflexivity |].
  rewrite stop_calls_app, IH. simpl.
  destruct a; simpl; rewrite ?app_nil_r; try reflexivity.
  destruct (in_stop_sequence p); simpl; rewrite ?app_nil_r; reflexivity.
Qed.

Lemma stop_order_initial files : stop_order (initial files).
Proof. constructor; simpl; auto; constructor. Qed.

(** Nothing of the stop sequence has been called before it starts. *)
Lemma stop_calls_none st :
  stop_order st -> (index (pc st) <= 14)%nat -> stop_calls (trace st) = [].
Proof.
  intros [_ Hb _] Hle. pose proof (stop_calls_range (trace st)) as Hr.
  destruct (stop_calls (trace st)) as [| p l]; [reflexivity |].
  inversion Hb; inversion Hr; subst. lia.
Qed.

Lemma stop_order_view st st' :
  pc st' = pc st -> pending st' = pending st ->
  stop_calls (trace st') = stop_calls (trace st) ->
  stop_order st -> stop_order st'.
Proof.
  intros E1 E2 E3 [H1 H2 H3]. constructor; rewrite ?E1, ?E2, ?E3; assumption.
Qed.

Lemma stop_order_unwind e st : stop_order st -> stop_order (unwind e st).
Proof.
  intros Hs. pose proof (stop_calls_none st Hs) as Hn. destruct Hs as [H1 H2 H3].
  unfold unwind. destruct (pc st) eqn:Epc; simpl in Hn; repeat case_goal;
    constructor; simpl; rewrite ?Epc; try assumption; try exact H1;
    try (eapply Forall_mono; [| exact H2]; simpl; intros; lia);
    try (intros Hp;
         first [ discriminate Hp
               | right; split; [reflexivity | apply Hn; lia]
               | left; rewrite Hn by lia; reflexivity ]).
Qed.

Lemma stop_order_finish st st' :
  pc st' = pc st -> pending st' = pending st -> trace st' = trace st ->
  pc st <> Done ->
  stop_order st -> stop_order (finish st').
Proof.
  intros E1 E2 E3 Hd Hs. pose proof (stop_calls_none st Hs) as Hn.
  pose proof (stop_calls_range (trace st)) as Hr.
  destruct Hs as [H1 H2 H3].
  unfold finish. rewrite E1.
  destruct (pc st) eqn:Epc; try congruence; simpl in Hn;
    constructor; simpl; rewrite ?E1, ?E2, ?E3, ?Epc; simpl;
    try exact H1;
    try (eapply Forall_mono; [| exact H2]; simpl; intros; lia);
    try (intros Hp; specialize (H3 Hp); destruct H3 as [H3 | [[=] _]];
         first [ left; rewrite Hn by lia; reflexivity
               | left; simpl; rewrite H3; reflexivity ]).
  all: try (constructor; [exact H1 |]).
  all: try (constructor; [simpl; lia |]).
  all: try (rewrite Forall_forall in *; intros q Hq;
            specialize (H2 q Hq); specialize (Hr q Hq); unfold rank; simpl in *; lia).
Qed.

Lemma stop_order_step st ev : stop_order st -> stop_order (step ev st).
Proof.
  intros Hs. destruct ev as [[e |] | | b | b | z | e | id | id].
  - apply stop_order_unwind, Hs.
  - unfold step, advance, join.
    destruct (pc st) eqn:Epc; repeat case_goal;
      first [ exact Hs
            | apply stop_order_unwind, Hs
            | apply (stop_order_finish st);
              [reflexivity | reflexivity | reflexivity | congruence | exact Hs] ].
  - unfold step, pump_turn, log_turn. repeat case_goal;
      first [exact Hs | apply (stop_order_view st); [reflexivity .. | exact Hs]].
  - unfold step, frame. repeat case_goal;
      first [exact Hs | apply (stop_order_view st); [reflexivity .. | exact Hs]].
  - apply (stop_order_view st); [reflexivity .. | exact Hs].
  - apply (stop_order_view st); [reflexivity .. | exact Hs].
  - unfold step, request. repeat case_goal;
      first [exact Hs | apply (stop_order_view st); [reflexivity .. | exact Hs]].
  - apply (stop_order_view st); [reflexivity .. | exact Hs].
  - apply (stop_order_view st); [reflexivity .. | exact Hs].
Qed.

End StopFacts.

Ltac split_all :=
  repeat match goal with
  | H : _ \/ _ |- _ => destruct H
  | H : _ /\ _ |- _ => destruct H
  | H : exists _, _ |- _ => destruct H
  end.

Ltac recall :=
  repeat match goal with
  | H : Pipeline.broadcast_thread _ = _ |- _ => rewrite H
  | H : Pipeline.server_thread _ = _ |- _ => rewrite H
  end.

Ltac unpack :=
  repeat match goal with
  | H : Some _ = Some _ |- _ => injection H as <-
  end.

Ltac membership :=
  intros; rewrite ?elem_of_cons, ?Exists_cons in *; split_all;
  try discriminate; try congruence.

Section TeardownFacts.
Import Wire Pipeline.

Lemma call_behind st p :
  stop_order st -> in_stop_sequence p = true -> Call p ∈ trace st ->
  (index p < index (pc st))%nat.
Proof.
  intros [_ Hb _] Hp Hin. apply stop_calls_elem in Hin; [| exact Hp].
  rewrite Forall_forall in Hb. apply Hb, Hin.
Qed.

Lemma teardown_initial files : teardown (initial files).
Proof.
  constructor; simpl; rewrite ?elem_of_nil, ?Exists_nil; try tauto;
    try (intros [H | [H | H]]; [discriminate | inversion H ..]).
  - split; [tauto | intros [r [=]]].
  - intros [[=] | []].
Qed.

Lemma teardown_view st st' :
  pc st' = pc st -> camera st' = camera st ->
  server_thread st' = server_thread st ->
  broadcast_thread st' = broadcast_thread st ->
  (forall p, Call p ∈ trace st' <-> Call p ∈ trace st) ->
  (Exists is_pump_exit (trace st') <-> Exists is_pump_exit (trace st)) ->
  teardown st -> teardown st'.
Proof.
  intros E1 E2 E3 E4 Ht Hx [J C X I O].
  constructor; rewrite ?E1, ?E2, ?E3, ?E4, ?Ht, ?Hx; assumption.
Qed.

Lemma register_closed h : Hub.closed (Hub.register h).2 = Hub.closed h.
Proof.
  unfold Hub.register. destruct (Hub.closed h) eqn:E; [exact E |].
  rewrite opened_connect. reflexivity.
Qed.

Ltac same_calls :=
  intros; simpl; rewrite ?elem_of_cons, ?Exists_cons; simpl;
  split; intros; split_all; try discriminate; try contradiction; auto.

Lemma teardown_step st ev :
  progress st -> stop_order st -> teardown st -> teardown (step ev st).
Proof.
  intros Hp Hs Ht. pose proof Ht as [J C X I O].
  pose proof (call_behind st JoinBroadcast Hs eq_refl) as B1.
  pose proof (call_behind st ServerShutdown Hs eq_refl) as B2.
  pose proof (call_behind st FlushClose Hs eq_refl) as B3.
  pose proof (call_behind st CameraClose Hs eq_refl) as B4.
  pose proof (pump_started st Hp) as P1.
  pose proof (server_started st Hp) as P2.
  pose proof (manager_there st Hp) as P3.
  destruct ev as [[e |] | | b | b | z | e | id | id].
  - unfold step, unwind. destruct (pc st) eqn:Epc; repeat case_goal;
      constructor; simpl in *; rewrite ?Epc; try assumption;
      try (membership; forward; try lia; eauto; fail).
  - unfold step, advance, join, unwind, finish.
    destruct (pc st) eqn:Epc; repeat case_goal;
      constructor; simpl in *; rewrite ?Epc; simpl; try assumption;
      try (membership; forward; try lia; eauto; fail).
    all: try (rewrite Exists_cons; simpl; rewrite X;
              split; [intros [[] | H]; exact H | intros H; right; exact H]).
    all: try (recall; assumption).
    all: try (recall; rewrite Exists_cons; simpl; rewrite X;
              split; [intros [[] | H]; exact H | intros H; right; exact H]).
    all: try (destruct (camera st) as [cam0 |]; simpl in *;
              membership; unpack; simpl; forward; try lia; eauto; fail).
    all: try (intros _; reflexivity).
    + split; [| intros [r [=]]].
      rewrite Exists_cons. intros [[] | H]. apply X in H as [r H].
      exfalso. assert (broadcast_thread st <> Unstarted) by congruence. forward. lia.
    + recall. intros H. apply elem_of_cons in H as [[=] | H]. exact (C H).
    + intros _. split; [reflexivity |].
      destruct (camera st); simpl; intros cam [= <-]; reflexivity.
  - (* the pump turns *)
    unfold step, pump_turn.
    destruct (broadcast_thread st) eqn:Eb; try exact Ht.
    destruct (converter st) as [c |] eqn:Ec; try exact Ht.
    destruct (manager st) as [h |] eqn:Em; try exact Ht.
    assert (Hno : forall p, Call p ∈ trace st ->
                  p = JoinBroadcast \/ p = ServerShutdown -> False).
    { intros p Hin Hor.
      assert (exists r, Alive = Ended r) as [r [=]].
      apply J. destruct Hor; subst; auto. }
    assert (Hpc : pc st <> ServerShutdown).
    { intros E. assert (exists r, Alive = Ended r) as [r [=]]. apply J. auto. }
    assert (Hx : ~ Exists is_pump_exit (trace st)).
    { intros H. apply X in H as [r H]. discriminate. }
    rewrite iteration_spec. cbv zeta. unfold log_turn.
    destruct (Encoder.stdout_closed c); [| destruct (Pump.is_empty _);
      [destruct (Encoder.returncode c) |]];
      constructor; simpl; rewrite ?elem_of_cons, ?Exists_cons; simpl;
      try assumption;
      try (intros; split_all; try discriminate; try contradiction;
           exfalso; eauto; fail);
      try (split; intros; split_all; try discriminate; try contradiction; eauto; fail).
    all: try (intros [H | [[=] | H]]; apply I; auto; fail).
    all: try (intros [[=] | H]; auto; fail).
  - (* a frame *)
    unfold step, frame. repeat case_goal;
      first [ exact Ht
            | apply (teardown_view st); try exact Ht; try reflexivity; try same_calls; eauto ].
  - apply (teardown_view st); try exact Ht; try reflexivity; try same_calls; eauto.
  - apply (teardown_view st); try exact Ht; try reflexivity; try same_calls; eauto.
  - (* a request *)
    unfold step, request.
    destruct (server_thread st) eqn:Et; try exact Ht.
    destruct (Wsgi.application _ _);
      try (apply (teardown_view st); try exact Ht; try reflexivity; try same_calls; eauto; fail).
    destruct (manager st) as [h |] eqn:Em; try exact Ht.
    destruct (Hub.register h) as [o h'] eqn:Er.
    apply (teardown_view st); try exact Ht; try reflexivity; try same_calls; try exact Ht;
      try (simpl; congruence).
  - apply (teardown_view st); try exact Ht; try reflexivity; try same_calls; try exact Ht.
  - apply (teardown_view st); try exact Ht; try reflexivity; try same_calls; try exact Ht.
Qed.

End TeardownFacts.

Section DependencyFacts.
Import Wire Pipeline.

Lemma dependencies_initial files : dependencies (initial files).
Proof. constructor; simpl; auto. Qed.

Lemma dependencies_view st st' :
  trace st' = trace st -> dependencies st -> dependencies st'.
Proof. intros E [D1 D2 D3 D4 D5 D6]. constructor; rewrite E; assumption. Qed.

Lemma dependencies_log st st' a :
  trace st' = a :: trace st -> dependencies st ->
  (is_broadcast a -> Call ServerShutdown ∉ trace st) ->
  (is_registration a -> Call ServerShutdown ∉ trace st) ->
  (is_frame a -> Call FlushClose ∉ trace st) ->
  (is_camera_use a -> Call CameraClose ∉ trace st) ->
  (is_pump a -> ~ Exists is_pump_exit (trace st)) ->
  (a = Call JoinBroadcast -> Exists is_pump_exit (trace st)) ->
  dependencies st'.
Proof.
  intros E [D1 D2 D3 D4 D5 D6] H1 H2 H3 H4 H5 H6.
  constructor; rewrite E; simpl; auto.
  intros r. split; [| apply D5]. intros Hp Hin. apply (H5 Hp).
  apply Exists_exists. exists (PumpExit r). split; [exact Hin | exact I].
Qed.

Lemma dependencies_finish st st' :
  trace st' = trace st -> pc st' = pc st -> pc st <> Done ->
  (pc st = JoinBroadcast -> exists r, broadcast_thread st = Ended r) ->
  teardown st -> dependencies st -> dependencies (finish st').
Proof.
  intros E1 E2 Hd Hj [J C X I O] Hdep.
  apply (dependencies_log st _ (Call (pc st)));
    [ simpl; rewrite E1, E2; reflexivity | exact Hdep | simpl; try tauto .. ].
  intros [= Hpc]. apply X, Hj, Hpc.
Qed.

Lemma dependencies_step st ev :
  teardown st -> dependencies st -> dependencies (step ev st).
Proof.
  intros Ht Hd. pose proof Ht as [J C X I O].
  destruct ev as [[e |] | | b | b | z | e | id | id].
  - unfold step, unwind. repeat case_goal;
      first [exact Hd | apply (dependencies_view st); [reflexivity | exact Hd]].
  - unfold step, advance, join, unwind.
    destruct (pc st) eqn:Epc; repeat case_goal;
      first [ exact Hd
            | apply (dependencies_view st); [reflexivity | exact Hd]
            | apply (dependencies_finish st);
              [reflexivity | reflexivity | congruence
              | try (intros; congruence); eauto | exact Ht | exact Hd] ].
  - unfold step, pump_turn.
    destruct (broadcast_thread st) eqn:Eb; try exact Hd.
    destruct (converter st) as [c |] eqn:Ec; try exact Hd.
    destruct (manager st) as [h |] eqn:Em; try exact Hd.
    assert (Hx : ~ Exists is_pump_exit (trace st)).
    { intros H. apply X in H as [r H]. discriminate. }
    assert (Hno : Call ServerShutdown ∉ trace st).
    { intros H. assert (exists r, Alive = Ended r) as [r [=]]. apply J. auto. }
    rewrite iteration_spec. cbv zeta. unfold log_turn.
    destruct (Encoder.stdout_closed c); [| destruct (Pump.is_empty _);
      [destruct (Encoder.returncode c) |]];
      first [ apply (dependencies_view st); [reflexivity | exact Hd]
            | eapply (dependencies_log st); [reflexivity | exact Hd | simpl ..];
              try tauto; intros; try discriminate; auto ].
  - unfold step, frame.
    destruct (camera st) as [cam |] eqn:Ecam; try exact Hd.
    destruct (converter st) as [c |] eqn:Ec; try exact Hd.
    destruct (producing cam) eqn:Epr; try exact Hd.
    unfold producing in Epr. rewrite !andb_true_iff, negb_true_iff in Epr.
    destruct Epr as [[_ Hrec] Hrel].
    assert (H3 : Call FlushClose ∉ trace st).
    { intros H. rewrite (I (or_intror H) cam eq_refl) in Hrec. discriminate. }
    assert (H4 : Call CameraClose ∉ trace st).
    { intros H. apply O in H as [_ H]. rewrite (H cam eq_refl) in Hrel. discriminate. }
    destruct (Encoder.write b c);
      (eapply (dependencies_log st); [reflexivity | exact Hd | simpl ..];
       try tauto; intros; try discriminate; auto).
  - apply (dependencies_view st); [reflexivity | exact Hd].
  - apply (dependencies_view st); [reflexivity | exact Hd].
  - unfold step, request.
    destruct (server_thread st) eqn:Et; try exact Hd.
    assert (H2 : Call ServerShutdown ∉ trace st).
    { intros H. apply C in H. congruence. }
    destruct (Wsgi.application _ _);
      try (eapply (dependencies_log st); [reflexivity | exact Hd | simpl ..];
           try tauto; intros; try discriminate; auto; fail).
    destruct (manager st) as [h |]; try exact Hd.
    destruct (Hub.register h) as [o h'].
    eapply (dependencies_log st); [reflexivity | exact Hd | simpl ..];
      try tauto; intros; try discriminate; auto.
  - apply (dependencies_view st); [reflexivity | exact Hd].
  - apply (dependencies_view st); [reflexivity | exact Hd].
Qed.

End DependencyFacts.

Section Reachable.
Import Wire Pipeline.

Lemma sound_initial files : sound (initial files).
Proof.
  constructor; auto using progress_initial, hub_sound_initial, pump_sound_initial,
    stop_order_initial, teardown_initial, dependencies_initial.
Qed.

Lemma sound_step st ev : sound st -> sound (step ev st).
Proof.
  intros [H1 H2 H3 H4 H5 H6].
  constructor; auto using progress_step, hub_sound_step, pump_sound_step,
    stop_order_step, teardown_step, dependencies_step.
Qed.

Lemma sound_run files schedule : sound (run schedule (initial files)).
Proof. apply run_invariant; [intros; apply sound_step; assumption | apply sound_initial]. Qed.

Lemma elem_of_rev {A} (x : A) (l : list A) : x ∈ rev l <-> x ∈ l.
Proof. rewrite !list_elem_of_In. symmetry. apply in_rev. Qed.



End Reachable.

Section WireFacts.
Import Wire.

Lemma Z_of_byte_of_Z z : Z_of_byte (byte_of_Z z) = z mod 256.
Proof.
  unfold Z_of_byte, byte_of_Z.
  assert (Hlt : (Z.to_N (z mod 256) < 256)%N).
  { pose proof (Z.mod_pos_bound z 256). lia. }
  destruct (Byte.of_N (Z.to_N (z mod 256))) as [b |] eqn:E.
  - apply Byte.to_of_N in E. rewrite E.
    pose proof (Z.mod_pos_bound z 256). lia.
  - apply Byte.of_N_None_iff in E. lia.
Qed.

(** Two bytes, most significant first, give the number back. *)
Lemma unpack_pack_H v b : pack_H v = Some b -> unpack_H b = Some v /\ length b = 2%nat.
Proof.
  unfold pack_H. destruct ((0 <=? v) && (v <=? 65535)) eqn:E; [| discriminate].
  intros [= <-]. split; [| reflexivity]. simpl. rewrite !Z_of_byte_of_Z.
  apply andb_true_iff in E as [E1 E2]. apply Z.leb_le in E1, E2.
  f_equal. rewrite Z.shiftr_div_pow2, Z.shiftl_mul_pow2 by lia.
  change 255 with (Z.ones 8). rewrite Z.land_ones by lia.
  change (2 ^ 8) with 256.
  rewrite (Z.mod_small (v / 256)) by (split; [apply Z.div_pos; lia | apply Z.div_lt_upper_bound; lia]).
  rewrite Z.mod_mod by lia.
  rewrite <- Z.lxor_lor, <- Z.add_nocarry_lxor.
  - pose proof (Z.div_mod v 256). lia.
  - change 256 with (2 ^ 8). rewrite <- Z.shiftl_mul_pow2, <- Z.land_ones by lia.
    apply Z.bits_inj'. intros n Hn. rewrite Z.land_spec, Z.bits_0.
    destruct (Z.ltb_spec n 8).
    + rewrite Z.shiftl_spec_low by lia. reflexivity.
    + rewrite Z.land_spec, Z.ones_spec_high by lia. rewrite !andb_false_r. reflexivity.
  - change 256 with (2 ^ 8). rewrite <- Z.shiftl_mul_pow2, <- Z.land_ones by lia.
    apply Z.bits_inj'. intros n Hn. rewrite Z.land_spec, Z.bits_0.
    destruct (Z.ltb_spec n 8).
    + rewrite Z.shiftl_spec_low by lia. reflexivity.
    + rewrite Z.land_spec, Z.ones_spec_high by lia. rewrite !andb_false_r. reflexivity.
Qed.

Lemma pack_4s_length s : length (pack_4s s) = 4%nat.
Proof.
  unfold pack_4s. rewrite length_take, length_app, repeat_length. lia.
Qed.

(** The layout of a packed header: eight bytes, the tag, then width and
    height as 16-bit big-endian numbers. *)
Lemma header_layout magic w h b :
  JSMPEG_HEADER_pack magic w h = Some b ->
  length b = 8%nat /\ take 4 b = pack_4s magic /\
  unpack_H (take 2 (drop 4 b)) = Some w /\ unpack_H (drop 6 b) = Some h.
Proof.
  unfold JSMPEG_HEADER_pack.
  destruct (pack_H w) as [wb |] eqn:Ew; [| discriminate].
  destruct (pack_H h) as [hb |] eqn:Eh; [| discriminate].
  simpl. intros [= <-].
  apply unpack_pack_H in Ew as [Ew Lw], Eh as [Eh Lh].
  pose proof (pack_4s_length magic) as Lm.
  repeat split.
  - rewrite !length_app. lia.
  - rewrite take_app_length' by (symmetry; exact Lm). reflexivity.
  - rewrite drop_app_length' by (symmetry; exact Lm).
    rewrite take_app_length' by (symmetry; exact Lw). exact Ew.
  - rewrite app_assoc, drop_app_length' by (rewrite length_app; lia). exact Eh.
Qed.

End WireFacts.

Section StreamClaims.
Import Wire Pipeline.

Lemma payload_chunks (cs : list bytes) : map Hub.payload (Hub.Chunk <$> cs) = cs.
Proof. induction cs as [| c cs IH]; simpl; [reflexivity | f_equal; exact IH]. Qed.

Lemma received_header_chunks s cs :
  Hub.outbound s = Hub.Header Hub.stream_header :: (Hub.Chunk <$> cs) ->
  Hub.received s = Hub.stream_header ++ concat cs.
Proof.
  intros E. unfold Hub.received. rewrite E.
  change (concat (Hub.stream_header :: map Hub.payload (Hub.Chunk <$> cs))
          = Hub.stream_header ++ concat cs).
  rewrite payload_chunks. reflexivity.
Qed.

Lemma hub_of_run files schedule h :
  manager (run schedule (initial files)) = Some h -> Hub.tidy h /\ Hub.in_order h.
Proof. apply (sound_hub _ (sound_run files schedule)). Qed.

(** C3: the header is the eight bytes "jsmp", width and height as 16-bit
    big-endian numbers; [opened] sends just that; and whatever the run,
    every session, active or gone, was sent the header exactly once, as the
    first message, with only chunks after it. *)
Theorem header_once_before_chunks (files : option (string * string))
    (schedule : list event) :
  let st := run schedule (initial files) in
  JSMPEG_HEADER_pack JSMPEG_MAGIC WIDTH HEIGHT = Some Hub.stream_header /\
  length Hub.stream_header = 8%nat /\
  take 4 Hub.stream_header = JSMPEG_MAGIC /\
  unpack_H (take 2 (drop 4 Hub.stream_header)) = Some WIDTH /\
  unpack_H (drop 6 Hub.stream_header) = Some HEIGHT /\
  (forall s, Hub.opened s = Hub.send s (Hub.Header Hub.stream_header)) /\
  Forall (fun s => exists cs,
            Hub.outbound s = Hub.Header Hub.stream_header :: (Hub.Chunk <$> cs))
         (viewers st ++ departed st).
Proof.
  intros st.
  destruct (header_layout _ _ _ _ pack_stream_header) as (L & M & W & H).
  repeat (split; [first [reflexivity | assumption] |]).
  unfold viewers, departed.
  destruct (manager st) as [h |] eqn:Em; [| constructor].
  destruct (hub_of_run files schedule h Em) as [_ [Ha Hg]].
  apply Forall_app. split.
  - eapply Forall_mono; [| exact Ha]. intros s [_ Hs]. eauto.
  - eapply Forall_mono; [| exact Hg]. intros s (k & _ & Hs). eauto.
Qed.

(** The scenario of the spec: three viewers, then chunks A, B and C. *)
Example three_viewers_receive_ABC :
  let st := run Scenario.three_viewers (initial Scenario.files) in
  map Hub.received (viewers st) =
    repeat (Hub.stream_header ++ Scenario.A ++ Scenario.B ++ Scenario.C) 3.
Proof. vm_compute. reflexivity. Qed.

(** C9: a read returns at most 32768 bytes; a turn of the loop hands the
    hub the bytes read when there are some and nothing otherwise; so every
    chunk the hub was ever given is non-empty and at most 32768 bytes
    long. *)
Theorem broadcast_chunks_bounded (files : option (string * string))
    (schedule : list event) :
  let st := run schedule (initial files) in
  Forall (fun b => 0 < Z.of_nat (length b) <= 32768) (chunks_of st) /\
  (forall c, match Encoder.read1 Pump.READ_SIZE c with
             | inr (buf, _) => Z.of_nat (length buf) <= 32768
             | inl _ => True
             end) /\
  (forall c h, match Pump.iteration c h with
               | (_, h', Some buf, _) =>
                   0 < Z.of_nat (length buf) <= 32768 /\ h' = Hub.broadcast buf h
               | (_, h', None, _) => h' = h
               end).
Proof.
  intros st. split; [| split].
  - apply (chunks_bounded _ (sound_pump _ (sound_run files schedule))).
  - intros c. unfold Encoder.read1. destruct (Encoder.stdout_closed c); [exact I |].
    rewrite length_take. unfold Pump.READ_SIZE. lia.
  - intros c h. rewrite iteration_spec. cbv zeta.
    destruct (Encoder.stdout_closed c); [reflexivity |].
    destruct (Pump.is_empty _) eqn:E; [destruct (Encoder.returncode c); reflexivity |].
    split; [apply take_chunk_ok, E | reflexivity].
Qed.

(** C10: with the output pipe open, a turn of the loop leaves the loop
    exactly when the read is empty and [poll()] gives an exit status, and
    then closes the pipe; an empty read with the process alive changes
    nothing and the loop goes on; a non-empty read is broadcast.  In every
    run, a pump that has ended has ended normally, on an empty pipe and an
    exited process, with the pipe closed once; before that the pipe has
    not been closed. *)
Theorem pump_leaves_on_end_of_stream (files : option (string * string))
    (schedule : list event) :
  let st := run schedule (initial files) in
  (forall c h, Encoder.stdout_closed c = false ->
     let n := Z.to_nat Pump.READ_SIZE in
     Pump.iteration c h =
       match take n (Encoder.stdout_pending c), Encoder.poll c with
       | [], Some _ => (Encoder.stdout_close (Encoder.consume n c), h, None, Ended None)
       | [], None => (Encoder.consume n c, h, None, Alive)
       | buf, _ => (Encoder.consume n c, Hub.broadcast buf h, Some buf, Alive)
       end) /\
  match broadcast_thread st with
  | Ended r =>
      r = None /\
      exists c, converter st = Some c /\
                Encoder.stdout_closed c = true /\
                Encoder.stdout_closes c = 1%nat /\
                Encoder.stdout_pending c = [] /\
                Encoder.returncode c <> None
  | _ =>
      forall c, converter st = Some c ->
                Encoder.stdout_closed c = false /\ Encoder.stdout_closes c = 0%nat
  end.
Proof.
  intros st. split.
  - intros c h Hopen n. rewrite iteration_spec. cbv zeta. rewrite Hopen.
    fold n. unfold Encoder.poll.
    destruct (take n (Encoder.stdout_pending c)); simpl; [| reflexivity].
    destruct (Encoder.returncode c); reflexivity.
  - apply (stdout_state _ (sound_pump _ (sound_run files schedule))).
Qed.

Lemma pump_leaves_on_end_of_stream_witness :
  let st := run Scenario.end_of_stream (initial Scenario.files) in
  broadcast_thread st = Ended None /\
  (exists c, converter st = Some c /\
             Encoder.stdout_closes c = 1%nat /\ Encoder.returncode c = Some 1) /\
  Pump.iteration Encoder.spawn Hub.empty =
    (Encoder.consume (Z.to_nat Pump.READ_SIZE) Encoder.spawn, Hub.empty, None, Alive).
Proof.
  destruct (pump_leaves_on_end_of_stream Scenario.files Scenario.end_of_stream)
    as [Hturn Hend].
  split; [vm_compute; reflexivity |]. split.
  - eexists. split; [vm_compute; reflexivity |]. split; reflexivity.
  - rewrite (Hturn Encoder.spawn Hub.empty eq_refl). reflexivity.
Defined.

End StreamClaims.

Section HubClaims.
Import Wire Pipeline.

Lemma same_sid_same_session (l : list Hub.session) x y :
  NoDup (Hub.sid <$> l) -> x ∈ l -> y ∈ l -> Hub.sid x = Hub.sid y -> x = y.
Proof.
  induction l as [| a l IH]; simpl; intros Hn Hx Hy E.
  - inversion Hx.
  - apply NoDup_cons in Hn as [Ha Hn].
    apply elem_of_cons in Hx as [-> | Hx], Hy as [-> | Hy]; auto.
    + exfalso. apply Ha. rewrite E. apply list_elem_of_fmap_2, Hy.
    + exfalso. apply Ha. rewrite <- E. apply list_elem_of_fmap_2, Hx.
Qed.

Lemma broadcast_keeps_out chunk g (s' : Hub.session) (id : nat) :
  s' ∈ Hub.gone g -> (forall x, x ∈ Hub.active g -> Hub.sid x <> id) ->
  s' ∈ Hub.gone (Hub.broadcast chunk g) /\
  (forall x, x ∈ Hub.active (Hub.broadcast chunk g) -> Hub.sid x <> id).
Proof.
  intros Hg Ha. rewrite broadcast_gone, broadcast_active. split.
  - apply elem_of_app. right. exact Hg.
  - intros x Hx. apply list_elem_of_fmap in Hx as (y & -> & Hy).
    apply list_elem_of_filter in Hy as [_ Hy]. apply (Ha y Hy).
Qed.

(** C5: in the hub of any run, when the delivery of a chunk to an active
    session fails, [broadcast] moves that session out of the active set,
    closed, with this one failed attempt on its record and nothing
    written; every session whose delivery succeeds stays active with the
    chunk written; and no later broadcast touches the session again or
    brings it back. *)
Theorem failed_session_dropped_once (files : option (string * string))
    (schedule : list event) (h : Hub.hub) (chunk : bytes) (s : Hub.session) :
  manager (run schedule (initial files)) = Some h ->
  s ∈ Hub.active h ->
  Hub.send s (Hub.Chunk chunk) = None ->
  let h' := Hub.broadcast chunk h in
  let s' := Hub.drop_failed s in
  s' ∈ Hub.gone h' /\
  Hub.failed s' = 1%nat /\ Hub.closes s' = 1%nat /\ Hub.alive s' = false /\
  Hub.outbound s' = Hub.outbound s /\
  (forall x, x ∈ Hub.active h' -> Hub.sid x <> Hub.sid s) /\
  (forall x x', x ∈ Hub.active h -> Hub.send x (Hub.Chunk chunk) = Some x' ->
                x' ∈ Hub.active h' /\
                Hub.outbound x' = Hub.outbound x ++ [Hub.Chunk chunk]) /\
  (forall later,
     let h'' := fold_left (fun g c => Hub.broadcast c g) later h' in
     s' ∈ Hub.gone h'' /\
     forall x, x ∈ Hub.active h'' -> Hub.sid x <> Hub.sid s).
Proof.
  intros Hm Hs Hfail h' s'.
  destruct (hub_of_run files schedule h Hm) as [(Ha & _ & _ & Hn & _) _].
  rewrite send_spec in Hfail.
  destruct (Hub.deliverable s) eqn:Ed; [discriminate |].
  assert (Hgone : s' ∈ Hub.gone h').
  { unfold h'. rewrite broadcast_gone. apply elem_of_app. left.
    apply elem_of_reverse, list_elem_of_fmap_2, list_elem_of_filter.
    split; [congruence | exact Hs]. }
  assert (Hout : forall x, x ∈ Hub.active h' -> Hub.sid x <> Hub.sid s).
  { unfold h'. rewrite broadcast_active. intros x Hx E.
    apply list_elem_of_fmap in Hx as (y & -> & Hy).
    apply list_elem_of_filter in Hy as [Hd Hy]. simpl in E.
    unfold Hub.sessions in Hn. rewrite fmap_app in Hn. apply NoDup_app in Hn as [Hn _].
    rewrite (same_sid_same_session _ y s Hn Hy Hs E) in Hd. congruence. }
  rewrite Forall_forall in Ha. destruct (Ha s Hs) as (_ & Hf & Hc).
  split; [exact Hgone |]. simpl. rewrite Hf, Hc.
  repeat (split; [reflexivity |]). split; [exact Hout |]. split.
  - intros x x' Hx Hsend. rewrite send_spec in Hsend.
    destruct (Hub.deliverable x) eqn:Ex; [| discriminate]. injection Hsend as <-.
    split; [| reflexivity]. unfold h'. rewrite broadcast_active.
    apply list_elem_of_fmap_2, list_elem_of_filter. split; assumption.
  - intros later. revert Hgone Hout. generalize h'.
    induction later as [| c later IH]; intros g Hg Ho; simpl; [split; assumption |].
    destruct (broadcast_keeps_out c g s' (Hub.sid s) Hg Ho) as [Hg' Ho'].
    apply IH; assumption.
Qed.

Lemma failed_session_dropped_once_witness :
  let h := default Hub.empty
             (manager (run Scenario.one_viewer_fails (initial Scenario.files))) in
  let s := Hub.fail_connection
             (Hub.push (Hub.Chunk Scenario.B)
                (Hub.push (Hub.Header Hub.stream_header) (Hub.connect 1 1))) in
  Hub.drop_failed s ∈ Hub.gone (Hub.broadcast Scenario.C h) /\
  Hub.failed (Hub.drop_failed s) = 1%nat /\
  (forall x, x ∈ Hub.active (Hub.broadcast Scenario.C h) -> Hub.sid x <> 1%nat).
Proof.
  intros h s.
  destruct (failed_session_dropped_once Scenario.files Scenario.one_viewer_fails
              h Scenario.C s) as (H1 & H2 & _ & _ & _ & H3 & _).
  - vm_compute. reflexivity.
  - vm_compute. right. left.
  - vm_compute. reflexivity.
  - split; [exact H1 |]. split; [exact H2 | exact H3].
Defined.

End HubClaims.

Section ControllerClaims.
Import Wire Pipeline.

Lemma StronglySorted_rev {A} (R : A -> A -> Prop) (l : list A) :
  StronglySorted (fun x y => R y x) l -> StronglySorted R (rev l).
Proof.
  induction 1 as [| a l Hs IH Ha]; simpl; [constructor |].
  apply StronglySorted_app. split; [| split; [exact IH | repeat constructor]].
  intros x y Hx Hy. apply list_elem_of_singleton in Hy as ->.
  rewrite elem_of_rev in Hx. rewrite Forall_forall in Ha. apply Ha, Hx.
Qed.

Lemma StronglySorted_NoDup (l : list point) :
  StronglySorted (fun p q => (rank p < rank q)%nat) l -> NoDup l.
Proof.
  induction 1 as [| a l Hs IH Ha]; constructor; [| exact IH].
  intros Hin. rewrite Forall_forall in Ha. specialize (Ha a Hin). lia.
Qed.

Lemma history_sorted files schedule :
  StronglySorted (fun p q => (rank p < rank q)%nat)
    (stop_calls (history (run schedule (initial files)))).
Proof.
  unfold history. rewrite stop_calls_rev. apply StronglySorted_rev.
  apply (stop_sorted _ (sound_stop _ (sound_run files schedule))).
Qed.

End ControllerClaims.

Section LifecycleClaims.
Import Wire Pipeline.

Lemma other_threads_leave_main st ev :
  (forall f, ev <> Main f) ->
  pc (step ev st) = pc st /\ pending (step ev st) = pending st.
Proof.
  intros Hev. destruct ev as [f | | b | b | z | e | id | id];
    [exfalso; apply (Hev f); reflexivity | ..].
  - unfold step, pump_turn, log_turn. repeat case_goal; split; reflexivity.
  - unfold step, frame. repeat case_goal; split; reflexivity.
  - split; reflexivity.
  - split; reflexivity.
  - unfold step, request. repeat case_goal; split; reflexivity.
  - split; reflexivity.
  - split; reflexivity.
Qed.

Lemma sleep_idle st n : pc st = Sleep -> run (repeat (Main None) n) st = st.
Proof.
  intros Hpc. induction n as [| n IH]; simpl; [reflexivity |].
  unfold advance. rewrite Hpc. exact IH.
Qed.

Lemma classic_main ev : (exists f, ev = Main f) \/ (forall f, ev <> Main f).
Proof. destruct ev; [left; eauto | right; discriminate ..]. Qed.

Lemma phase_moves_forward st ev :
  match phase st with
  | Starting => True
  | Running => phase (step ev st) = Running \/ phase (step ev st) = Stopping
  | Stopping => phase (step ev st) = Stopping \/ phase (step ev st) = Stopped
  | Stopped => phase (step ev st) = Stopped
  end.
Proof.
  destruct (classic_main ev) as [[f ->] | Hev].
  - unfold phase. destruct f as [e |]; unfold step, advance, join, unwind, finish;
      destruct (pc st) eqn:Epc; simpl; auto;
      repeat case_goal; simpl; rewrite ?Epc; simpl; auto.
  - destruct (other_threads_leave_main st ev Hev) as [E _].
    unfold phase. rewrite E. destruct (phase_of (pc st)); auto.
Qed.

Lemma stop_calls_once files schedule :
  NoDup (stop_calls (history (run schedule (initial files)))).
Proof. apply StronglySorted_NoDup, history_sorted. Qed.

(** C2, as the spec has it, fails: the encoder ends, the pump drains the
    pipe and leaves its loop, and however long [main] goes on without an
    interrupt, the controller stays Running, no call of the stop sequence
    is made and the viewer's session stays open. *)
Lemma end_of_stream_leaves_controller_running :
  let st := run Scenario.end_of_stream (initial Scenario.files) in
  broadcast_thread st = Ended None /\
  forall n,
    let st' := run (repeat (Main None) n) st in
    phase st' = Running /\
    stop_calls (history st') = [] /\
    map Hub.closes (viewers st') = [0%nat].
Proof.
  intros st. split; [vm_compute; reflexivity |].
  intros n st'. unfold st'. rewrite sleep_idle by (vm_compute; reflexivity).
  vm_compute. repeat split; reflexivity.
Qed.

(** C7, as the spec has it, fails: with one interrupt the stop sequence
    runs through and [main] returns; with a second interrupt while [main]
    waits for the pump, the threads are not joined, the server is not shut
    down and goes on serving, and [main] ends with the interrupt as an
    error. *)
Lemma second_interrupt_abandons_stop_sequence :
  let once := run Scenario.stop_once (initial Scenario.files) in
  let twice := run Scenario.stop_twice (initial Scenario.files) in
  pc once = Done /\ pending once = None /\
  stop_calls (history once) = stop_sequence /\
  pc twice = Done /\ pending twice = Some KeyboardInterrupt /\
  stop_calls (history twice)
    = [StopRecording; FlushClose; FlushWait; CameraStop; CameraClose] /\
  server_thread twice = Alive.
Proof. vm_compute. repeat split; reflexivity. Qed.

(** C7, amended: in every run each call of the stop sequence is made at
    most once; the interrupt that reaches [main] in its sleep loop is
    swallowed and starts the sequence; once [main] is over nothing moves
    it any more.  An exception raised in the main thread while the
    sequence runs, a second interrupt among them, is not swallowed: the
    calls left in the block it hits are skipped, the trace is as it was,
    and the exception is the one [main] now carries out. *)
Theorem stop_sequence_runs_at_most_once (files : option (string * string))
    (schedule : list event) :
  let st := run schedule (initial files) in
  NoDup (stop_calls (history st)) /\
  (forall s, pc s = Sleep ->
     step (Main (Some KeyboardInterrupt)) s
       = set_pc StopRecording (set_pending None s)) /\
  (forall s f, pc s = Done -> step (Main f) s = s) /\
  (forall s e, phase s = Stopping ->
     let s' := step (Main (Some e)) s in
     pending s' = Some e /\ trace s' = trace s /\
     (pc s' = CameraStop \/ pc s' = Done) /\
     (index (pc s) < index (pc s'))%nat).
Proof.
  intros st. split; [apply stop_calls_once |]. split; [| split].
  - intros s Hpc. simpl. unfold unwind. rewrite Hpc. reflexivity.
  - intros s [e |] Hpc; simpl; unfold advance, unwind; rewrite Hpc; reflexivity.
  - intros s e Hph s'. unfold s', phase in *. simpl. unfold unwind.
    destruct (pc s) eqn:Epc; try discriminate; simpl; rewrite ?Epc; simpl;
      repeat split; auto; lia.
Qed.

Lemma stop_sequence_runs_at_most_once_witness :
  let s := run Scenario.stopping (initial Scenario.files) in
  pc s = JoinBroadcast /\
  pc (step Scenario.interrupt s) = CameraStop /\
  pending (step Scenario.interrupt s) = Some KeyboardInterrupt.
Proof.
  intros s.
  destruct (stop_sequence_runs_at_most_once Scenario.files Scenario.boot)
    as (_ & _ & _ & H).
  destruct (H s KeyboardInterrupt) as (H1 & _ & H2 & H3).
  - vm_compute. reflexivity.
  - split; [vm_compute; reflexivity |]. split; [| exact H1].
    destruct H2 as [H2 | H2]; [exact H2 |].
    vm_compute in H2. discriminate H2.
Defined.

(** C6: the code does not release what it holds on every startup failure.
    When [camera.start_recording(output)] raises (line 200), the encoder
    has been spawned (line 197) and [main] ends with the error, the camera
    stopped and closed, but the encoder's input still open and the process
    never waited for; when [camera.configure(config)] raises (line 175),
    [main] ends with the camera it has opened (line 168) never closed. *)
Theorem startup_failure_leaves_resources :
  let st := run Scenario.recording_fails (initial Scenario.files) in
  let st' := run Scenario.configure_fails (initial Scenario.files) in
  pc st = Done /\ pending st = Some (OtherError "start_recording") /\
  Encoder.stdin_closed <$> converter st = Some false /\
  Encoder.returncode <$> converter st = Some None /\
  stop_calls (history st) = [CameraStop; CameraClose] /\
  released <$> camera st = Some true /\
  pc st' = Done /\ pending st' = Some (OtherError "configure") /\
  released <$> camera st' = Some false /\
  stop_calls (history st') = [].
Proof. vm_compute. repeat split; reflexivity. Qed.

End LifecycleClaims.

(** * More of the program *)

Section CommandFacts.
Import Command.

Lemma split_cons sep s : exists piece rest, split sep s = piece :: rest.
Proof.
  induction s as [| c r (piece & rest & IH)]; simpl; [eauto |].
  destruct (Ascii.eqb c sep); [eauto |]. rewrite IH. eauto.
Qed.

(** A string that holds the separator splits in two pieces or more. *)
Lemma split_second sep s :
  contains sep s = true -> exists piece, split sep s !! 1%nat = Some piece.
Proof.
  unfold contains. induction s as [| c r IH]; simpl; [discriminate |].
  rewrite (Ascii.eqb_sym sep c).
  destruct (Ascii.eqb c sep) eqn:E; simpl.
  - intros _. destruct (split_cons sep r) as (piece & rest & ->). eauto.
  - intros H. destruct (IH H) as [piece Hp].
    destruct (split sep r) as [| p rest]; [discriminate |]. simpl in *. eauto.
Qed.

Lemma split_none sep s : contains sep s = false -> split sep s = [s].
Proof.
  unfold contains. induction s as [| c r IH]; simpl; [reflexivity |].
  rewrite (Ascii.eqb_sym sep c).
  destruct (Ascii.eqb c sep); simpl; [discriminate |].
  intros H. rewrite (IH H). reflexivity.
Qed.

Lemma split_at sep a b :
  contains sep a = false -> split sep (a +:+ String sep b) = a :: split sep b.
Proof.
  unfold contains. induction a as [| c r IH]; simpl.
  - rewrite Ascii.eqb_refl. reflexivity.
  - rewrite (Ascii.eqb_sym sep c).
    destruct (Ascii.eqb c sep); simpl; [discriminate |].
    intros H. rewrite (IH H). reflexivity.
Qed.

Lemma rstrip_clean chars s : ends_clean chars (rstrip chars s).
Proof.
  unfold ends_clean. induction s as [| c r IH]; simpl; [exact I |].
  destruct (rstrip chars r) as [| d k] eqn:E.
  - destruct (contains c chars) eqn:Ec; simpl; [exact I | exact Ec].
  - simpl in *. exact IH.
Qed.

Lemma rstrip_fixed chars s : ends_clean chars s -> rstrip chars s = s.
Proof.
  unfold ends_clean. induction s as [| c r IH]; simpl; [reflexivity |].
  destruct r as [| d k].
  - simpl. intros ->. reflexivity.
  - intros H. rewrite (IH H). reflexivity.
Qed.

Lemma rstrip_suffix chars s t :
  Forall (fun c => contains c chars = true) (list_ascii_of_string t) ->
  rstrip chars (s +:+ t) = rstrip chars s.
Proof.
  intros Ht. induction s as [| c r IH]; simpl.
  - change ("" +:+ t) with t.
    induction t as [| d k IHk]; [reflexivity |].
    inversion Ht as [| ? ? Hd Hk]; subst. simpl. rewrite (IHk Hk), Hd. reflexivity.
  - change (String c r +:+ t) with (String c (r +:+ t)). simpl.
    rewrite IH. reflexivity.
Qed.

(** X12: the frame rate computed at line 110 never fails: the index
    [1] into the split format is guarded by the test for ['@'].  Without
    an ['@'] the rate is "24"; a format [name@rate] followed by "fps"
    gives [rate]; a rate read from the format ends in none of the
    characters f, p, s; the argument list always has 18 entries with the
    rate as the input and the output rate. *)
Theorem framerate_of_format (config : camera_config) (name rate : string) :
  contains "@" name = false -> contains "@" rate = false ->
  ends_clean "fps" rate ->
  (exists r, framerate config = Some r /\
             (contains "@" (format config) = true -> ends_clean "fps" r) /\
             exists argv, command config = Some argv /\
                          length argv = 18%nat /\
                          argv !! 8%nat = Some r /\ argv !! 16%nat = Some r) /\
  framerate {| size := size config; format := name |} = Some "24" /\
  framerate {| size := size config; format := name +:+ "@" +:+ rate +:+ "fps" |}
    = Some rate.
Proof.
  intros Hname Hrate Hclean. split; [| split].
  - unfold command, framerate.
    destruct (contains "@" (format config)) eqn:E.
    + destruct (split_second _ _ E) as [piece ->]. simpl.
      eexists. split; [reflexivity |].
      split; [intros _; apply rstrip_clean |].
      eexists. repeat split; reflexivity.
    + eexists. split; [reflexivity |]. split; [discriminate |].
      eexists. repeat split; reflexivity.
  - unfold framerate. simpl. rewrite Hname. reflexivity.
  - unfold framerate. cbn [format].
    change (name +:+ "@" +:+ rate +:+ "fps")
      with (name +:+ String "@" (rate +:+ "fps")).
    rewrite split_at by exact Hname.
    assert (Hc : contains "@" (name +:+ String "@" (rate +:+ "fps")) = true).
    { unfold contains. clear. induction name as [| c r IH]; simpl; [reflexivity |].
      rewrite IH. apply orb_true_r. }
    rewrite Hc.
    assert (Hr : contains "@" (rate +:+ "fps") = false).
    { revert Hrate. unfold contains. clear. induction rate as [| c r IH]; simpl;
        [reflexivity |].
      intros H. apply orb_false_iff in H as [-> H]. simpl. apply IH, H. }
    rewrite (split_none _ _ Hr). simpl.
    rewrite rstrip_suffix by (repeat constructor).
    rewrite rstrip_fixed by exact Hclean. reflexivity.
Qed.

Lemma framerate_of_format_witness :
  framerate {| size := (1280, 720); format := "YUV420" |} = Some "24" /\
  framerate {| size := (1280, 720); format := "YUV420@30fps" |} = Some "30" /\
  command Command.requested =
    Some ["ffmpeg"; "-f"; "rawvideo"; "-pix_fmt"; "yuv420p"; "-s"; "640x480";
          "-r"; "24"; "-i"; "-"; "-f"; "mpeg1video"; "-b"; "800k"; "-r";
          "24"; "-"].
Proof.
  destruct (framerate_of_format {| size := (1280, 720); format := "x" |}
              "YUV420" "30" eq_refl eq_refl eq_refl) as (_ & H1 & H2).
  split; [exact H1 |]. split; [exact H2 |]. reflexivity.
Defined.

End CommandFacts.

Section HeaderFacts.
Import Wire.

Lemma pack_H_range v : (exists b, pack_H v = Some b) <-> 0 <= v <= 65535.
Proof.
  unfold pack_H. destruct (_ && _) eqn:E.
  - apply andb_true_iff in E as [H1 H2]. split; [lia | eauto].
  - apply andb_false_iff in E. split; [intros [b [=]] | lia].
Qed.

(** X1: [JSMPEG_HEADER.pack] succeeds exactly when width and height are
    both in 0..65535.  The packed header then has eight bytes, begins with
    the magic when that has four bytes, and gives width and height back
    when bytes 4-5 and 6-7 are read as big-endian 16-bit numbers; so two
    headers with the same bytes carry the same dimensions. *)
Theorem header_pack_round_trip (magic : bytes) (w h : Z) :
  ((exists b, JSMPEG_HEADER_pack magic w h = Some b) <->
   0 <= w <= 65535 /\ 0 <= h <= 65535) /\
  (forall b, JSMPEG_HEADER_pack magic w h = Some b ->
     length b = 8%nat /\
     (length magic = 4%nat -> take 4 b = magic) /\
     unpack_H (take 2 (drop 4 b)) = Some w /\
     unpack_H (drop 6 b) = Some h) /\
  (forall w' h' b, JSMPEG_HEADER_pack magic w h = Some b ->
     JSMPEG_HEADER_pack magic w' h' = Some b -> w' = w /\ h' = h).
Proof.
  split; [| split].
  - unfold JSMPEG_HEADER_pack. rewrite <- !pack_H_range. split.
    + intros [b Hb]. destruct (pack_H w); [| discriminate].
      destruct (pack_H h); [| discriminate]. eauto.
    + intros [[wb ->] [hb ->]]. simpl. eauto.
  - intros b Hb. destruct (header_layout _ _ _ _ Hb) as (L & M & W & H).
    repeat split; try assumption.
    intros Hm. rewrite M. unfold pack_4s.
    rewrite take_app_length' by (symmetry; exact Hm). reflexivity.
  - intros w' h' b Hb Hb'.
    destruct (header_layout _ _ _ _ Hb) as (_ & _ & W & H).
    destruct (header_layout _ _ _ _ Hb') as (_ & _ & W' & H').
    split; congruence.
Qed.

Lemma header_pack_round_trip_witness :
  JSMPEG_HEADER_pack JSMPEG_MAGIC 1920 1080 =
    Some (JSMPEG_MAGIC ++ [Byte.x07; Byte.x80; Byte.x04; Byte.x38]) /\
  JSMPEG_HEADER_pack JSMPEG_MAGIC 65536 1080 = None /\
  take 4 (JSMPEG_MAGIC ++ [Byte.x07; Byte.x80; Byte.x04; Byte.x38]) = JSMPEG_MAGIC.
Proof.
  destruct (header_pack_round_trip JSMPEG_MAGIC 1920 1080) as (_ & Hl & _).
  destruct (Hl _ eq_refl) as (_ & Hm & _).
  split; [reflexivity |]. split; [reflexivity |]. apply Hm. reflexivity.
Defined.

End HeaderFacts.

Section AssetFacts.
Import Wsgi.

Lemma http_app_loaded g e :
  INDEX_TEMPLATE g <> None -> JSMPEG_CONTENT g <> None ->
  exists r, http_app g e = Served r /\
    (status r = "301 Moved Permanently" /\ get e "PATH_INFO" = "/" \/
     status r = "200 OK" /\
       (get e "PATH_INFO" = "/index.html" \/ get e "PATH_INFO" = "/jsmpg.js") \/
     status r = "404 Not Found" /\ get e "PATH_INFO" <> "/" /\
       get e "PATH_INFO" <> "/index.html" /\ get e "PATH_INFO" <> "/jsmpg.js").
Proof.
  intros Hi Hj. unfold http_app.
  destruct (INDEX_TEMPLATE g) as [tpl |]; [| congruence].
  destruct (JSMPEG_CONTENT g) as [js |]; [| congruence].
  repeat destruct (decide _); eexists; (split; [reflexivity |]); simpl;
    first [ left; split; [reflexivity | assumption]
          | right; left; split; [reflexivity | auto]
          | right; right; auto ].
Qed.

(** X2: once both files are loaded, [http_app] answers every request and
    raises on none: 301 exactly for the path "/", 200 exactly for
    "/index.html" and "/jsmpg.js", 404 for every other path, a request
    without PATH_INFO included.  A 200 response has one body part and a
    Content-Length header computed from that same content; the other
    responses carry no Content-Length. *)
Theorem http_app_statuses (g : globals) (e : environ) :
  INDEX_TEMPLATE g <> None -> JSMPEG_CONTENT g <> None ->
  exists r, http_app g e = Served r /\
    (status r = "301 Moved Permanently" <-> get e "PATH_INFO" = "/") /\
    (status r = "200 OK" <->
       get e "PATH_INFO" = "/index.html" \/ get e "PATH_INFO" = "/jsmpg.js") /\
    (status r = "404 Not Found" <->
       get e "PATH_INFO" <> "/" /\ get e "PATH_INFO" <> "/index.html" /\
       get e "PATH_INFO" <> "/jsmpg.js") /\
    (e !! "PATH_INFO" = None -> status r = "404 Not Found") /\
    (status r = "200 OK" ->
       exists c, body r = [c] /\ ("Content-Length", HLength c) ∈ headers r) /\
    (status r <> "200 OK" -> forall name v, (name, v) ∈ headers r ->
       name <> "Content-Length").
Proof.
  intros Hi Hj. destruct (http_app_loaded g e Hi Hj) as (r & Hr & Hs).
  exists r. split; [exact Hr |].
  assert (Hpath : e !! "PATH_INFO" = None -> get e "PATH_INFO" = "").
  { unfold get. intros ->. reflexivity. }
  split; [| split; [| split; [| split; [| split]]]].
  - destruct Hs as [[H1 H2] | [[H1 H2] | [H1 H2]]]; rewrite H1;
      intuition congruence.
  - destruct Hs as [[H1 H2] | [[H1 H2] | [H1 H2]]]; rewrite H1;
      intuition congruence.
  - destruct Hs as [[H1 H2] | [[H1 H2] | [H1 H2]]]; rewrite H1;
      intuition congruence.
  - intros Hnone. apply Hpath in Hnone.
    destruct Hs as [[H1 H2] | [[H1 H2] | [H1 H2]]]; rewrite H1;
      intuition congruence.
  - intros H. revert Hr H. unfold http_app.
    destruct (INDEX_TEMPLATE g) as [tpl |]; [| congruence].
    destruct (JSMPEG_CONTENT g) as [js |]; [| congruence].
    repeat destruct (decide _); intros [= <-]; simpl; try discriminate;
      intros _; eexists; (split; [reflexivity |]);
      rewrite !elem_of_cons; auto.
  - intros H name v. revert Hr H. unfold http_app.
    destruct (INDEX_TEMPLATE g) as [tpl |]; [| congruence].
    destruct (JSMPEG_CONTENT g) as [js |]; [| congruence].
    repeat destruct (decide _); intros [= <-]; simpl; try congruence;
      intros _ Hin; apply list_elem_of_singleton in Hin; congruence.
Qed.

Lemma http_app_statuses_witness :
  exists r, http_app Scenario.serving Scenario.page = Served r /\
            status r = "200 OK" /\ length (body r) = 1%nat.
Proof.
  destruct (http_app_statuses Scenario.serving Scenario.page) as (r & Hr & _ & H200 & _).
  - vm_compute. discriminate.
  - vm_compute. discriminate.
  - exists r. split; [exact Hr |].
    assert (Hs : status r = "200 OK") by (apply H200; left; reflexivity).
    split; [exact Hs |].
    revert Hr. vm_compute. intros [= <-]. reflexivity.
Defined.

(** X3: the only response of [http_app] with a Location header is the
    redirect of the path "/", which has an empty body; and the same
    request sent again to the location it names is answered 200, with no
    further redirect. *)
Theorem redirect_target_is_served (g : globals) (e : environ) (r : response)
    (target : string) :
  INDEX_TEMPLATE g <> None ->
  http_app g e = Served r -> ("Location", HStr target) ∈ headers r ->
  get e "PATH_INFO" = "/" /\ body r = [] /\
  exists r', http_app g (<["PATH_INFO" := target]> e) = Served r' /\
             status r' = "200 OK" /\
             forall name v, (name, v) ∈ headers r' -> name <> "Location".
Proof.
  intros Hi. unfold http_app at 1.
  destruct (decide (get e "PATH_INFO" = "/")) as [Hp | Hp].
  - intros [= <-]. simpl. intros Hin. apply list_elem_of_singleton in Hin.
    injection Hin as ->.
    split; [exact Hp |]. split; [reflexivity |].
    unfold http_app, get. rewrite lookup_insert. simpl.
    destruct (INDEX_TEMPLATE g) as [tpl |]; [| congruence].
    eexists. split; [reflexivity |]. split; [reflexivity |].
    simpl. intros name v Hin. rewrite !elem_of_cons, elem_of_nil in Hin.
    destruct Hin as [[= -> _] | [[= -> _] | [[= -> _] | []]]]; discriminate.
  - destruct (decide _).
    + destruct (JSMPEG_CONTENT g); [| discriminate].
      intros [= <-]. simpl. intros Hin. rewrite !elem_of_cons, elem_of_nil in Hin.
      destruct Hin as [[=] | [[=] | [[=] | []]]].
    + destruct (decide _).
      * destruct (INDEX_TEMPLATE g); [| discriminate].
        intros [= <-]. simpl. intros Hin. rewrite !elem_of_cons, elem_of_nil in Hin.
        destruct Hin as [[=] | [[=] | [[=] | []]]].
      * intros [= <-]. simpl. intros Hin. apply list_elem_of_singleton in Hin.
        discriminate.
Qed.

Lemma redirect_target_is_served_witness :
  exists r', http_app Scenario.serving (<["PATH_INFO" := "/index.html"]> {[ "PATH_INFO" := "/" ]})
             = Served r' /\ status r' = "200 OK".
Proof.
  destruct (redirect_target_is_served Scenario.serving {[ "PATH_INFO" := "/" ]}
              {| status := "301 Moved Permanently";
                 headers := [("Location", HStr "/index.html")];
                 body := [] |} "/index.html")
    as (_ & _ & r' & Hr & Hs & _).
  - vm_compute. discriminate.
  - reflexivity.
  - apply elem_of_cons; left; reflexivity.
  - exists r'. split; [exact Hr | exact Hs].
Defined.

End AssetFacts.

Section OrderFacts.
Import Wire Pipeline Conduct.

Lemma calls_elem p t : Call p ∈ t <-> p ∈ calls t.
Proof.
  induction t as [| a t IH]; simpl.
  - rewrite !elem_of_nil. tauto.
  - destruct a; rewrite ?elem_of_cons, IH; split;
      try (intros [[=] | H]; auto; fail); try (intros [-> | H]; auto; fail); auto.
Qed.

Lemma calls_app t1 t2 : calls (t1 ++ t2) = calls t1 ++ calls t2.
Proof.
  induction t1 as [| a t1 IH]; simpl; [reflexivity |].
  destruct a; simpl; rewrite ?IH; reflexivity.
Qed.

Lemma calls_rev t : calls (rev t) = rev (calls t).
Proof.
  induction t as [| a t IH]; simpl; [reflexivity |].
  rewrite calls_app, IH. destruct a; simpl; rewrite ?app_nil_r; reflexivity.
Qed.

Lemma ordered_initial files : ordered (initial files).
Proof. constructor; simpl; auto; constructor. Qed.

Lemma ordered_view st st' :
  pc st' = pc st -> pending st' = pending st ->
  calls (trace st') = calls (trace st) ->
  ordered st -> ordered st'.
Proof.
  intros E1 E2 E3 [H1 H2 H3]. constructor; rewrite ?E1, ?E2, ?E3; assumption.
Qed.

Lemma ordered_unwind e st : ordered st -> ordered (unwind e st).
Proof.
  intros Ho. pose proof Ho as [H1 H2 H3].
  unfold unwind. destruct (pc st) eqn:Epc; repeat case_goal; try exact Ho;
    constructor; simpl; try exact H1;
    try (eapply Forall_mono; [| exact H2]; rewrite ?Epc; simpl; intros; lia);
    try (intros; lia).
Qed.

Lemma ordered_finish st st' :
  pc st' = pc st -> pending st' = pending st -> trace st' = trace st ->
  pc st <> Done -> pc st <> Sleep ->
  ordered st -> ordered (finish st').
Proof.
  intros E1 E2 E3 Hd Hs [H1 H2 H3].
  unfold finish. rewrite E1.
  constructor; simpl; rewrite ?E2, ?E3.
  - constructor; [exact H1 |]. exact H2.
  - constructor.
    + destruct (pc st); simpl; try lia; congruence.
    + eapply Forall_mono; [| exact H2]. simpl. intros p Hp.
      destruct (pc st); simpl in *; lia.
  - intros Hle.
    assert (Hlt : (index (pc st) <= index Sleep)%nat)
      by (destruct (pc st); simpl in *; lia).
    destruct (H3 Hlt) as [Hp Hc]. split; [exact Hp |].
    rewrite Hc. destruct (pc st); simpl in *; try reflexivity; try lia; congruence.
Qed.

Lemma ordered_step st ev : ordered st -> ordered (step ev st).
Proof.
  intros Hs. destruct ev as [[e |] | | b | b | z | e | id | id].
  - apply ordered_unwind, Hs.
  - unfold step, advance, join.
    destruct (pc st) eqn:Epc; repeat case_goal;
      first [ exact Hs
            | apply ordered_unwind, Hs
            | apply (ordered_finish st);
              [reflexivity | reflexivity | reflexivity | congruence | congruence
              | exact Hs] ].
  - unfold step, pump_turn, log_turn. repeat case_goal;
      first [exact Hs | apply (ordered_view st); [reflexivity .. | exact Hs]].
  - unfold step, frame. repeat case_goal;
      first [exact Hs | apply (ordered_view st); [reflexivity .. | exact Hs]].
  - apply (ordered_view st); [reflexivity .. | exact Hs].
  - apply (ordered_view st); [reflexivity .. | exact Hs].
  - unfold step, request. repeat case_goal;
      first [exact Hs | apply (ordered_view st); [reflexivity .. | exact Hs]].
  - apply (ordered_view st); [reflexivity .. | exact Hs].
  - apply (ordered_view st); [reflexivity .. | exact Hs].
Qed.

Lemma ordered_run files schedule : ordered (run schedule (initial files)).
Proof. apply run_invariant; [apply ordered_step | apply ordered_initial]. Qed.

End OrderFacts.

Section EquipmentFacts.
Import Wire Pipeline Conduct.

Lemma equipped_initial files : equipped (initial files).
Proof.
  constructor; simpl; try lia; try (intros [H | H]; [lia | congruence]).
  - intros _. reflexivity.
  - constructor.
Qed.

Lemma equipped_view st st' :
  pc st' = pc st -> camera st' = camera st -> globals st' = globals st ->
  server_thread st' = server_thread st ->
  (broadcast_thread st <> Unstarted -> broadcast_thread st' <> Unstarted) ->
  (Forall well_answered (trace st) -> Forall well_answered (trace st')) ->
  equipped st -> equipped st'.
Proof.
  intros E1 E2 E3 E4 Hb Ht [H1 H2 H3 H4 H5 H6].
  constructor; rewrite ?E1, ?E2, ?E3, ?E4; auto.
Qed.

Lemma http_app_answer g e :
  loaded g -> exists r, Wsgi.http_app g e = Wsgi.Served r /\ Wsgi.status r ∈ statuses.
Proof.
  intros [Hi Hj]. destruct (http_app_loaded g e Hi Hj) as (r & Hr & Hs).
  exists r. split; [exact Hr |]. unfold statuses.
  destruct Hs as [[-> _] | [[-> _] | [-> _]]]; rewrite !elem_of_cons; auto.
Qed.

Lemma equipped_request st e : equipped st -> equipped (request e st).
Proof.
  intros Hq. pose proof Hq as [H1 H2 H3 H4 H5 H6].
  unfold request. destruct (server_thread st) eqn:Et; try exact Hq.
  assert (Hl : loaded (globals st)) by (apply H2; right; congruence).
  assert (Ha : Wsgi.WSGI_WS_APP (globals st) <> None) by (apply H3; right; congruence).
  unfold Wsgi.application. destruct (decide _) as [Hu | Hu].
  - destruct (Wsgi.WSGI_WS_APP (globals st)) as [app |]; [| congruence].
    destruct (manager st) as [h |]; [| exact Hq].
    destruct (Hub.register h) as [id h'].
    apply (equipped_view st); try reflexivity; auto.
    intros H. simpl. constructor; [exact I | exact H].
  - destruct (http_app_answer (globals st) e Hl) as (r & -> & Hr).
    apply (equipped_view st); try reflexivity; auto.
    intros H. simpl. constructor; [exact Hr | exact H].
Qed.

Lemma equipped_step st ev : equipped st -> equipped (step ev st).
Proof.
  intros Hq. pose proof Hq as [H1 H2 H3 H4 H5 H6].
  destruct ev as [[e |] | | b | b | z | e | id | id].
  - unfold step, unwind. destruct (pc st) eqn:Epc; repeat case_goal; try exact Hq;
      constructor; simpl; rewrite ?Epc in *; simpl in *;
      try (intros; lia); try assumption;
      try (intros [Hr | Hr]; [lia | auto]).
  - unfold step, advance, join, unwind, finish.
    destruct (pc st) eqn:Epc; repeat case_goal; try exact Hq;
      constructor; simpl; rewrite ?Epc in *; simpl in *;
      try (intros; lia); try assumption;
      try (constructor; [exact I | assumption]);
      try (intros [Hr | Hr]; [lia | auto]; fail);
      try (intros _; unfold loaded; simpl; split; congruence);
      try (intros _; rewrite H1 by lia; reflexivity);
      try (intros _; apply H2; left; lia);
      try (intros _; apply H3; left; lia);
      try (intros _; apply H4; lia);
      try (intros _; apply H5; lia);
      try (intros _; recall; congruence);
      try (intros _; congruence).
    all: try (intros [Hr | Hr]; first [apply H2 | apply H3]; left; lia).
  - unfold step, pump_turn, log_turn.
    destruct (broadcast_thread st) eqn:Eb; try exact Hq.
    destruct (converter st) as [c |]; try exact Hq.
    destruct (manager st) as [h |]; try exact Hq.
    destruct (Pump.iteration c h) as [[[c' h'] sent] t] eqn:Ei.
    pose proof (iteration_spec c h) as Hi. rewrite Ei in Hi.
    assert (Hu : t <> Unstarted).
    { intros ->. revert Hi. cbv zeta. repeat case_goal; congruence. }
    destruct sent, t; try congruence;
      apply (equipped_view st); try reflexivity; auto; simpl;
      try congruence;
      intros Ht; repeat (constructor; [exact I |]); exact Ht.
  - unfold step, frame. repeat case_goal; try exact Hq;
      apply (equipped_view st); try reflexivity; auto;
      intros Ht; simpl; (constructor; [exact I | exact Ht]).
  - apply (equipped_view st); try reflexivity; auto.
  - apply (equipped_view st); try reflexivity; auto.
  - apply equipped_request, Hq.
  - apply (equipped_view st); try reflexivity; auto.
  - apply (equipped_view st); try reflexivity; auto.
Qed.

End EquipmentFacts.

Section SettledFacts.
Import Wire Pipeline Conduct.

Lemma settled_initial files : settled (initial files).
Proof. constructor; simpl; intros H; apply elem_of_nil in H; destruct H. Qed.

Lemma settled_view st st' :
  (forall p, Call p ∈ trace st' <-> Call p ∈ trace st) ->
  server_thread st' = server_thread st ->
  (forall c, converter st = Some c ->
     exists c', converter st' = Some c' /\
       (Encoder.stdin_closed c = true -> Encoder.stdin_closed c' = true) /\
       (Encoder.exited c = true -> Encoder.exited c' = true)) ->
  settled st -> settled st'.
Proof.
  intros Ht Es Hc [H1 H2 H3]. constructor; rewrite ?Ht, ?Es; try assumption.
  - intros H. destruct (H1 H) as (c & Ec & Hin).
    destruct (Hc c Ec) as (c' & Ec' & Hi & _). eauto.
  - intros H. destruct (H2 H) as (c & Ec & Hex).
    destruct (Hc c Ec) as (c' & Ec' & _ & Hx). eauto.
Qed.

Lemma iteration_converter c h :
  let c' := (Pump.iteration c h).1.1.1 in
  Encoder.stdin_closed c' = Encoder.stdin_closed c /\
  Encoder.exited c' = Encoder.exited c /\
  Encoder.emitted c' = Encoder.emitted c.
Proof.
  rewrite iteration_spec. cbv zeta. repeat case_goal; simpl; auto.
Qed.

Lemma settled_step st ev :
  progress st -> stop_order st -> settled st -> settled (step ev st).
Proof.
  intros Hp Hs Hq. pose proof Hq as [H1 H2 H3].
  pose proof (call_behind st FlushClose Hs eq_refl) as B1.
  pose proof (call_behind st FlushWait Hs eq_refl) as B2.
  pose proof (call_behind st JoinServer Hs eq_refl) as B3.
  pose proof (converter_there st Hp) as P1.
  destruct ev as [[e |] | | b | b | z | e | id | id].
  - unfold step, unwind. repeat case_goal; try exact Hq;
      apply (settled_view st); try reflexivity; try exact Hq; eauto.
  - unfold step, advance, join, unwind, finish.
    destruct (pc st) eqn:Epc; repeat case_goal; try exact Hq;
      try (apply (settled_view st); try reflexivity; try exact Hq; eauto; fail);
      constructor; simpl in *; rewrite ?elem_of_cons;
      try (intros [[=] | H]; forward; try lia; auto; fail).
    all: try (intros [[=] | H]; forward; try lia; recall; auto; fail).
    all: try (intros _; recall; eauto; fail).
    + intros _. destruct (converter st) as [c |]; [| exfalso; apply P1; [lia | reflexivity]].
      simpl. eauto.
    + intros [[=] | H].
      match goal with E : converter st = _ |- _ => rewrite E end. exact (H1 H).
  - unfold step, pump_turn.
    destruct (broadcast_thread st) eqn:Eb; try exact Hq.
    destruct (converter st) as [c |] eqn:Ec; try exact Hq.
    destruct (manager st) as [h |] eqn:Em; try exact Hq.
    pose proof (iteration_converter c h) as Hi. cbv zeta in Hi.
    destruct (Pump.iteration c h) as [[[c' h'] sent] t]. simpl in Hi.
    destruct Hi as (Hi1 & Hi2 & _).
    unfold log_turn. destruct sent, t; simpl;
      apply (settled_view st); try reflexivity; try exact Hq; simpl;
      try (intros p; rewrite ?elem_of_cons; split;
           [intros H; split_all; try discriminate; assumption | auto]);
      rewrite Ec; intros c0 [= <-]; eexists; (split; [reflexivity |]);
      rewrite Hi1, Hi2; auto.
  - unfold step, frame.
    destruct (camera st) as [cam |]; try exact Hq.
    destruct (converter st) as [c |] eqn:Ec; try exact Hq.
    destruct (producing cam); try exact Hq.
    unfold Encoder.write, Encoder.stdin_write.
    destruct (Encoder.stdin_closed c) eqn:Ei; [| destruct (Encoder.exited c) eqn:Ex];
      apply (settled_view st); try reflexivity; try exact Hq; simpl;
      try (intros p; rewrite ?elem_of_cons; split;
           [intros H; split_all; try discriminate; assumption | auto]);
      rewrite Ec; intros c0 [= <-]; eexists; (split; [reflexivity |]);
      simpl; unfold Encoder.exited; simpl; auto; split; [congruence | auto].
  - apply (settled_view st); try reflexivity; try exact Hq. simpl.
    intros c Ec. rewrite Ec. simpl. eexists. split; [reflexivity |].
    unfold Encoder.emit. destruct (Encoder.exited c) eqn:Ex; [auto |].
    unfold Encoder.exited. simpl. split; [auto | intros; first [discriminate | reflexivity]].
  - apply (settled_view st); try reflexivity; try exact Hq. simpl.
    intros c Ec. rewrite Ec. simpl. eexists. split; [reflexivity |].
    unfold Encoder.terminate. destruct (Encoder.exited c) eqn:Ex; [auto |].
    unfold Encoder.exited. simpl. split; [auto | intros; first [discriminate | reflexivity]].
  - unfold step, request. repeat case_goal; try exact Hq;
      apply (settled_view st); try reflexivity; try exact Hq; simpl; eauto;
      try (intros p; rewrite ?elem_of_cons; split;
           [intros H; split_all; try discriminate; assumption | auto]).
  - apply (settled_view st); try reflexivity; try exact Hq; simpl; eauto.
  - apply (settled_view st); try reflexivity; try exact Hq; simpl; eauto.
Qed.

(** Everything that holds in every state of a run. *)
Lemma conduct_run files schedule :
  let st := run schedule (initial files) in
  sound st /\ ordered st /\ equipped st /\ settled st.
Proof.
  apply (run_invariant (fun st => sound st /\ ordered st /\ equipped st /\ settled st)).
  - intros st ev (Hs & Ho & He & Ht). split; [apply sound_step, Hs |].
    split; [apply ordered_step, Ho |]. split; [apply equipped_step, He |].
    apply settled_step; [apply Hs .. | exact Ht].
  - split; [apply sound_initial |]. split; [apply ordered_initial |].
    split; [apply equipped_initial | apply settled_initial].
Qed.

End SettledFacts.

Section ServingClaims.
Import Wire Pipeline Conduct.

(** X4: whatever the schedule, by the time the server thread has been
    started [main] has filled the three globals, so while the server runs
    no request fails in [application] on a global that is still [None]:
    an upgrade request is passed on to the WebSocket application with its
    environment, and every other request is answered by [http_app] with
    status 200, 301 or 404.  What the WebSocket application then does
    with the request is not part of [server.py].  Every request that was
    answered by [http_app] in a run got one of these three statuses. *)
Theorem requests_never_raise (files : option (string * string))
    (schedule : list event) :
  let st := run schedule (initial files) in
  (server_thread st <> Unstarted ->
   Wsgi.INDEX_TEMPLATE (globals st) <> None /\
   Wsgi.JSMPEG_CONTENT (globals st) <> None /\
   Wsgi.WSGI_WS_APP (globals st) <> None) /\
  (server_thread st = Alive ->
   forall e,
     (exists app, Wsgi.WSGI_WS_APP (globals st) = Some app /\
                  Wsgi.application (globals st) e = Wsgi.Upgraded app e) \/
     (exists r, Wsgi.application (globals st) e = Wsgi.Served r /\
                Wsgi.http_app (globals st) e = Wsgi.Served r /\
                (Wsgi.status r = "200 OK" \/
                 Wsgi.status r = "301 Moved Permanently" \/
                 Wsgi.status r = "404 Not Found"))) /\
  (forall o, Answered o ∈ history st ->
     exists r, o = Wsgi.Served r /\
               (Wsgi.status r = "200 OK" \/
                Wsgi.status r = "301 Moved Permanently" \/
                Wsgi.status r = "404 Not Found")).
Proof.
  intros st. destruct (conduct_run files schedule) as (_ & _ & He & _).
  fold st in He. destruct He as [_ H2 H3 _ _ H6].
  split; [| split].
  - intros Hs. destruct (H2 (or_intror Hs)) as [Hi Hj].
    split; [exact Hi |]. split; [exact Hj | exact (H3 (or_intror Hs))].
  - intros Hs e.
    assert (Hu : server_thread st <> Unstarted) by congruence.
    pose proof (H2 (or_intror Hu)) as Hl. pose proof (H3 (or_intror Hu)) as Ha.
    unfold Wsgi.application. destruct (decide _).
    + left. destruct (Wsgi.WSGI_WS_APP (globals st)) as [app |]; [eauto | congruence].
    + right. destruct (http_app_answer (globals st) e Hl) as (r & Hr & Hst).
      exists r. split; [exact Hr |]. split; [exact Hr |].
      unfold statuses in Hst. rewrite !elem_of_cons, elem_of_nil in Hst. tauto.
  - intros o Hin. unfold history in Hin. rewrite elem_of_rev in Hin.
    rewrite Forall_forall in H6. specialize (H6 _ Hin). simpl in H6.
    destruct o as [app e | r | x]; try contradiction.
    exists r. split; [reflexivity |]. unfold statuses in H6.
    rewrite !elem_of_cons, elem_of_nil in H6. tauto.
Qed.

Lemma requests_never_raise_witness :
  let st := run (Scenario.boot ++ [Request Scenario.page; Request ∅])
                (initial Scenario.files) in
  Wsgi.WSGI_WS_APP (globals st) <> None /\
  Wsgi.application (globals st) Scenario.upgrade
    = Wsgi.Upgraded Scenario.ws_app Scenario.upgrade /\
  exists r r', history st !! 13%nat = Some (Answered (Wsgi.Served r)) /\
               Wsgi.status r = "200 OK" /\
               history st !! 14%nat = Some (Answered (Wsgi.Served r')) /\
               Wsgi.status r' = "404 Not Found".
Proof.
  intros st.
  destruct (requests_never_raise Scenario.files
              (Scenario.boot ++ [Request Scenario.page; Request ∅]))
    as (H1 & H2 & _).
  split; [apply H1; vm_compute; discriminate |].
  split.
  - destruct (H2 ltac:(vm_compute; reflexivity) Scenario.upgrade)
      as [(app & Ea & Hu) | (r & Hr & _)].
    + unfold st. rewrite Hu. destruct app as [[]]. reflexivity.
    + vm_compute in Hr. discriminate Hr.
  - eexists. eexists. vm_compute. repeat split; reflexivity.
Defined.

End ServingClaims.

Section StartupClaims.
Import Wire Pipeline Conduct.

Lemma idle_step st ev :
  idle st ->
  idle (step ev st) /\
  (pc st = Done -> pc (step ev st) = Done /\ pending (step ev st) = pending st) /\
  ((exists f, ev = Main f) -> pc (step ev st) = Done) /\
  ((forall e, ev <> Main (Some e)) -> pending st = None -> pending (step ev st) = None).
Proof.
  intros (Hd & Hc & Hm & Hv & Hs & Hb & Ht & Hpc).
  destruct ev as [[e |] | | b | b | z | e | id | id].
  - unfold step, unwind.
    destruct Hpc as [Hpc | Hpc]; rewrite Hpc; [destruct e |];
      (split; [repeat split; simpl; auto |]);
      (split; [congruence || auto |]); (split; [auto |]);
      intros He; exfalso; eapply He; reflexivity.
  - unfold step, advance, unwind.
    destruct Hpc as [Hpc | Hpc]; rewrite Hpc, ?Hd;
      (split; [repeat split; simpl; auto |]);
      (split; [congruence || auto |]); (split; [auto |]); auto.
  - unfold step, pump_turn. rewrite Hb.
    split; [repeat split; auto |]. split; [auto |].
    split; [intros [f [=]] | auto].
  - unfold step, frame. rewrite Hc.
    split; [repeat split; auto |]. split; [auto |].
    split; [intros [f [=]] | auto].
  - simpl. split; [repeat split; simpl; auto; rewrite Hv; reflexivity |].
    split; [auto |]. split; [intros [f [=]] | auto].
  - simpl. split; [repeat split; simpl; auto; rewrite Hv; reflexivity |].
    split; [auto |]. split; [intros [f [=]] | auto].
  - unfold step, request. rewrite Hs.
    split; [repeat split; auto |]. split; [auto |].
    split; [intros [f [=]] | auto].
  - simpl. split; [repeat split; simpl; auto; rewrite Hm; reflexivity |].
    split; [auto |]. split; [intros [f [=]] | auto].
  - simpl. split; [repeat split; simpl; auto; rewrite Hm; reflexivity |].
    split; [auto |]. split; [intros [f [=]] | auto].
Qed.

Lemma idle_run schedule st :
  idle st ->
  idle (run schedule st) /\
  (pc st = Done -> pc (run schedule st) = Done) /\
  ((exists f, Main f ∈ schedule) -> pc (run schedule st) = Done) /\
  ((forall e, Main (Some e) ∉ schedule) -> pending st = None ->
   pending (run schedule st) = None).
Proof.
  revert st. induction schedule as [| ev rest IH]; intros st Hi.
  - simpl. split; [exact Hi |]. split; [auto |].
    split; [| auto]. intros [f Hf]. apply elem_of_nil in Hf. destruct Hf.
  - simpl. destruct (idle_step st ev Hi) as (Hi' & Hd & Hm & Hp).
    destruct (IH _ Hi') as (Ha & Hb & Hc & He).
    split; [exact Ha |]. split; [| split].
    + intros H. apply Hb, Hd, H.
    + intros [f Hf]. apply elem_of_cons in Hf as [<- | Hf].
      * apply Hb, Hm. eauto.
      * apply Hc. eauto.
    + intros Hno Hn. apply He.
      * intros e Hin. apply (Hno e). apply elem_of_cons. auto.
      * apply Hp; [| exact Hn]. intros e ->. apply (Hno e).
        apply elem_of_cons. auto.
Qed.

(** X5: when the files cannot be read, [main] ends at its first step and
    nothing is ever brought up: no camera, no server, no encoder, no thread
    started, no call recorded, whatever else is scheduled; and unless
    another exception is thrown at it, [main] returns without an error
    (line 157 catches the [IOError]). *)
Theorem missing_files_start_nothing (schedule : list event) :
  let st := run schedule (initial None) in
  camera st = None /\ manager st = None /\ converter st = None /\
  server_thread st = Unstarted /\ broadcast_thread st = Unstarted /\
  history st = [] /\
  ((exists f, Main f ∈ schedule) -> pc st = Done) /\
  ((forall e, Main (Some e) ∉ schedule) -> pending st = None).
Proof.
  intros st.
  assert (Hi : idle (initial None)) by (repeat split; auto).
  destruct (idle_run schedule _ Hi) as ((_ & Hc & Hm & Hv & Hs & Hb & Ht & _) & _ & Hd & Hp).
  fold st in Hc, Hm, Hv, Hs, Hb, Ht, Hd, Hp.
  repeat (split; [assumption |]).
  split; [unfold history; rewrite Ht; reflexivity |].
  split; [exact Hd |]. intros Hno. apply Hp; [exact Hno | reflexivity].
Qed.

Lemma missing_files_start_nothing_witness :
  let st := run [Main None; PumpTurn; Main None] (initial None) in
  pc st = Done /\ pending st = None /\ history st = [].
Proof.
  intros st.
  destruct (missing_files_start_nothing [Main None; PumpTurn; Main None])
    as (_ & _ & _ & _ & _ & Hh & Hd & Hp).
  split; [apply Hd; exists None; apply elem_of_cons; left; reflexivity |].
  split; [| exact Hh].
  apply Hp. intros e He.
  repeat (apply elem_of_cons in He as [He | He]; [discriminate He |]).
  apply elem_of_nil in He. exact He.
Defined.

End StartupClaims.

Section StopSteps.
Import Wire Pipeline Conduct.

Lemma advance_StopRecording st :
  pc st = StopRecording ->
  advance st = finish (set_camera (set_recording false <$> camera st) st).
Proof. intros H. unfold advance. rewrite H. reflexivity. Qed.

Lemma advance_FlushClose st :
  pc st = FlushClose ->
  advance st = finish (set_converter (Encoder.stdin_close <$> converter st) st).
Proof. intros H. unfold advance. rewrite H. reflexivity. Qed.

Lemma advance_FlushWait st c :
  pc st = FlushWait -> converter st = Some c -> Encoder.exited c = true ->
  advance st = finish st.
Proof. intros H Ec Hx. unfold advance. rewrite H, Ec, Hx. reflexivity. Qed.

Lemma advance_JoinBroadcast st r :
  pc st = JoinBroadcast -> broadcast_thread st = Ended r -> advance st = finish st.
Proof. intros H Hb. unfold advance. rewrite H, Hb. reflexivity. Qed.

Lemma advance_ServerShutdown st :
  pc st = ServerShutdown -> server_thread st = Alive ->
  advance st = finish (set_server_thread (Ended None) st).
Proof. intros H Hs. unfold advance. rewrite H, Hs. reflexivity. Qed.

Lemma advance_JoinServer st r :
  pc st = JoinServer -> server_thread st = Ended r -> advance st = finish st.
Proof. intros H Hs. unfold advance. rewrite H, Hs. reflexivity. Qed.

Lemma advance_CameraStop st :
  pc st = CameraStop ->
  advance st = finish (set_camera (set_started false <$> camera st) st).
Proof. intros H. unfold advance. rewrite H. reflexivity. Qed.

Lemma advance_CameraClose st :
  pc st = CameraClose ->
  advance st = finish (set_camera (release <$> camera st) st).
Proof. intros H. unfold advance. rewrite H. reflexivity. Qed.

(** The first calls of the stop sequence, on an interrupt in the sleep
    loop and an encoder that exits once its input is closed. *)
Lemma stop_head st status c :
  pc st = Sleep -> converter st = Some c ->
  let st' := run [Main (Some KeyboardInterrupt); Main None; Main None;
                  Exit status; Main None] st in
  pc st' = JoinBroadcast /\ pending st' = None /\
  camera st' = set_recording false <$> camera st /\
  server_thread st' = server_thread st /\
  broadcast_thread st' = broadcast_thread st /\
  manager st' = manager st /\
  trace st' = Call FlushWait :: Call FlushClose :: Call StopRecording :: trace st /\
  exists c', converter st' = Some c' /\ Encoder.exited c' = true /\
             Encoder.stdin_closed c' = true.
Proof.
  intros Hpc Ec. cbv zeta. unfold run. cbn [fold_left].
  change (step (Main (Some KeyboardInterrupt)) st) with (unwind KeyboardInterrupt st).
  assert (E1 : unwind KeyboardInterrupt st = set_pc StopRecording (set_pending None st))
    by (unfold unwind; rewrite Hpc; reflexivity).
  rewrite E1.
  change (step (Main None)) with advance.
  set (s1 := set_pc StopRecording (set_pending None st)).
  rewrite (advance_StopRecording s1 eq_refl).
  set (s2 := finish (set_camera _ s1)).
  rewrite (advance_FlushClose s2 eq_refl).
  set (s3 := finish (set_converter _ s2)).
  cbn [step].
  set (s4 := set_converter _ s3).
  assert (Ec4 : converter s4 = Some (Encoder.terminate status (Encoder.stdin_close c)))
    by (unfold s4; simpl; rewrite Ec; reflexivity).
  assert (Hx : Encoder.exited (Encoder.terminate status (Encoder.stdin_close c)) = true).
  { unfold Encoder.terminate, Encoder.exited. simpl.
    destruct (Encoder.returncode c) eqn:Er; simpl; [rewrite Er |]; reflexivity. }
  rewrite (advance_FlushWait s4 _ eq_refl Ec4 Hx).
  repeat (split; [reflexivity |]).
  eexists. split; [exact Ec4 |]. split; [exact Hx |].
  unfold Encoder.terminate, Encoder.exited. simpl.
  destruct (Encoder.returncode c); reflexivity.
Qed.

(** The rest of the stop sequence once the pump has ended. *)
Lemma stop_tail st r :
  pc st = JoinBroadcast -> broadcast_thread st = Ended r ->
  server_thread st = Alive ->
  let st' := run (repeat (Main None) 5) st in
  pc st' = Done /\ pending st' = pending st /\
  camera st' = release <$> (set_started false <$> camera st) /\
  manager st' = manager st /\
  server_thread st' = Ended None /\
  broadcast_thread st' = Ended r /\
  converter st' = converter st /\
  trace st' = Call CameraClose :: Call CameraStop :: Call JoinServer ::
              Call ServerShutdown :: Call JoinBroadcast :: trace st.
Proof.
  intros Hpc Hb Hs. cbv zeta. unfold run. cbn [repeat fold_left].
  change (step (Main None)) with advance.
  rewrite (advance_JoinBroadcast st r Hpc Hb).
  assert (P1 : pc (finish st) = ServerShutdown) by (unfold finish; simpl; rewrite Hpc; reflexivity).
  rewrite (advance_ServerShutdown _ P1 Hs).
  set (s2 := finish (set_server_thread _ _)).
  assert (P2 : pc s2 = JoinServer) by (unfold s2, finish; simpl; rewrite Hpc; reflexivity).
  rewrite (advance_JoinServer s2 None P2 eq_refl).
  assert (P3 : pc (finish s2) = CameraStop) by (unfold finish; simpl; rewrite Hpc; reflexivity).
  rewrite (advance_CameraStop _ P3).
  set (s4 := finish (set_camera _ (finish s2))).
  assert (P4 : pc s4 = CameraClose) by (unfold s4, finish; simpl; rewrite Hpc; reflexivity).
  rewrite (advance_CameraClose _ P4).
  unfold s4, s2, finish. simpl. rewrite Hpc. simpl.
  repeat (split; [first [reflexivity | assumption] |]). reflexivity.
Qed.

(** An exception under the outer [try] only, or inside the inner
    [finally], goes straight to the outer [finally]. *)
Lemma unwind_outer st e :
  (index MakeWsApp <= index (pc st) <= index StartRecording)%nat \/
  (index StopRecording <= index (pc st) <= index JoinServer)%nat ->
  unwind e st = set_pc CameraStop (set_pending (Some e) st).
Proof.
  intros H. unfold unwind. destruct (pc st); simpl in H; try reflexivity; lia.
Qed.

End StopSteps.

Section OrderClaims.
Import Wire Pipeline Conduct.

Lemma index_sorted_NoDup (l : list point) :
  StronglySorted (fun p q => (index p < index q)%nat) l -> NoDup l.
Proof.
  induction 1 as [| a l Hs IH Ha]; constructor; [| exact IH].
  intros Hin. rewrite Forall_forall in Ha. specialize (Ha a Hin). lia.
Qed.

(** X6: in every run the calls of [main] are made in the order of its
    text, each at most once, and each lies before the point where [main]
    stands; a call that comes later in the history comes later in the
    text. *)
Theorem calls_in_text_order (files : option (string * string))
    (schedule : list event) :
  let st := run schedule (initial files) in
  StronglySorted (fun p q => (index p < index q)%nat) (calls (history st)) /\
  NoDup (calls (history st)) /\
  (forall p, Call p ∈ history st -> (index p < index (pc st))%nat) /\
  (forall p q before after,
     history st = before ++ Call p :: after -> Call q ∈ after ->
     (index p < index q)%nat).
Proof.
  intros st. destruct (conduct_run files schedule) as (_ & Ho & _ & _).
  fold st in Ho. destruct Ho as [H1 H2 _].
  assert (Hs : StronglySorted (fun p q => (index p < index q)%nat)
                 (calls (history st))).
  { unfold history. rewrite calls_rev. apply StronglySorted_rev, H1. }
  split; [exact Hs |]. split; [apply index_sorted_NoDup, Hs |]. split.
  - intros p Hin. unfold history in Hin. rewrite elem_of_rev, calls_elem in Hin.
    rewrite Forall_forall in H2. apply H2, Hin.
  - intros p q before after E Hq. rewrite E, calls_app in Hs. simpl in Hs.
    apply StronglySorted_app in Hs as (_ & _ & Hs).
    apply StronglySorted_inv in Hs as [_ Hs].
    rewrite Forall_forall in Hs. apply Hs, calls_elem, Hq.
Qed.

Lemma calls_in_text_order_witness :
  let st := run Scenario.stop_once (initial Scenario.files) in
  calls (history st) = startup ++ stop_sequence /\
  (index FlushClose < index JoinBroadcast)%nat.
Proof.
  intros st.
  destruct (calls_in_text_order Scenario.files Scenario.stop_once)
    as (_ & _ & _ & H).
  split; [vm_compute; reflexivity |].
  apply (H FlushClose JoinBroadcast
           (take 16 (history st)) (drop 17 (history st))).
  - vm_compute. reflexivity.
  - vm_compute. repeat constructor.
Defined.

(** X7: whenever [main] is in its sleep loop, the whole startup has been
    done, once and in order, and nothing of the stop sequence: the camera
    is started and recording, the server thread runs, the pump has been
    started, encoder and hub exist, the globals are set and no exception
    is pending. *)
Theorem running_means_started (files : option (string * string))
    (schedule : list event) :
  let st := run schedule (initial files) in
  pc st = Sleep ->
  pending st = None /\
  calls (history st) = startup /\
  camera st = Some {| started := true; recording := true; released := false |} /\
  server_thread st = Alive /\
  broadcast_thread st <> Unstarted /\
  (exists c, converter st = Some c) /\
  (exists h, manager st = Some h) /\
  Wsgi.INDEX_TEMPLATE (globals st) <> None /\
  Wsgi.JSMPEG_CONTENT (globals st) <> None /\
  Wsgi.WSGI_WS_APP (globals st) <> None.
Proof.
  intros st Hpc. destruct (conduct_run files schedule) as (Hs & Ho & He & _).
  fold st in Hs, Ho, He.
  destruct Ho as [_ _ O3]. destruct He as [E1 E2 E3 E4 E5 _].
  destruct Hs as [Hp _ _ _ _ _].
  rewrite Hpc in *. simpl in *.
  destruct O3 as [O3 O4]; [lia |].
  split; [exact O3 |].
  split; [unfold history; rewrite calls_rev, O4; reflexivity |].
  split; [apply E1; lia |].
  split; [apply E4; lia |].
  split; [apply E5; lia |].
  split.
  { pose proof (converter_there st Hp) as Hc. rewrite Hpc in Hc.
    destruct (converter st) as [c |]; [eauto |].
    exfalso. apply Hc; [simpl; lia | reflexivity]. }
  split.
  { pose proof (manager_there st Hp) as Hm. rewrite Hpc in Hm.
    destruct (manager st) as [h |]; [eauto |].
    exfalso. apply Hm; [simpl; lia | reflexivity]. }
  destruct E2 as [Hi Hj]; [left; lia |].
  split; [exact Hi |]. split; [exact Hj |]. apply E3. left. lia.
Qed.

Lemma running_means_started_witness :
  let st := run Scenario.three_viewers (initial Scenario.files) in
  pc st = Sleep /\ server_thread st = Alive /\
  calls (history st) = startup.
Proof.
  intros st.
  assert (Hpc : pc st = Sleep) by (vm_compute; reflexivity).
  destruct (running_means_started Scenario.files Scenario.three_viewers Hpc)
    as (_ & Hc & _ & Hs & _).
  split; [exact Hpc |]. split; [exact Hs | exact Hc].
Defined.

(** X9: what the blocking calls of the stop sequence leave behind, in
    every run: after [converter.stdin.close()] the encoder's input is
    closed, and no frame reaches the encoder any more; after
    [converter.wait()] the process has an exit status; after
    [server_thread.join()] the server thread has ended. *)
Theorem stop_calls_leave_their_effect (files : option (string * string))
    (schedule : list event) :
  let st := run schedule (initial files) in
  (Call FlushClose ∈ history st ->
   exists c, converter st = Some c /\ Encoder.stdin_closed c = true) /\
  (Call FlushWait ∈ history st ->
   exists c z, converter st = Some c /\ Encoder.returncode c = Some z) /\
  (Call JoinServer ∈ history st -> exists r, server_thread st = Ended r) /\
  (Call FlushClose ∈ history st ->
   forall b, converter (step (Frame b) st) = converter st).
Proof.
  intros st. destruct (conduct_run files schedule) as (_ & _ & _ & Ht).
  fold st in Ht. destruct Ht as [H1 H2 H3]. unfold history.
  rewrite !elem_of_rev. split; [exact H1 |]. split; [| split; [exact H3 |]].
  - intros H. destruct (H2 H) as (c & Ec & Hx). unfold Encoder.exited in Hx.
    destruct (Encoder.returncode c) as [z |] eqn:Er; [eauto | discriminate].
  - intros H b. destruct (H1 H) as (c & Ec & Hc).
    unfold step, frame. rewrite Ec.
    destruct (camera st) as [cam |]; [| exact Ec].
    destruct (producing cam); [| exact Ec].
    unfold Encoder.write, Encoder.stdin_write. rewrite Hc. exact Ec.
Qed.

Lemma stop_calls_leave_their_effect_witness :
  let st := run Scenario.stop_once (initial Scenario.files) in
  (exists c, converter st = Some c /\ Encoder.stdin_closed c = true) /\
  (exists c z, converter st = Some c /\ Encoder.returncode c = Some z) /\
  exists r, server_thread st = Ended r.
Proof.
  intros st.
  destruct (stop_calls_leave_their_effect Scenario.files Scenario.stop_once)
    as (H1 & H2 & H3 & _).
  split; [apply H1; vm_compute; repeat constructor |].
  split; [apply H2; vm_compute; repeat constructor |].
  apply H3. vm_compute. repeat constructor.
Defined.

(** X10: an exception raised under the outer [try] only (lines 181-200)
    or inside the inner [finally] (lines 213-220) runs the outer
    [finally]: the camera is stopped and closed, nothing else is called,
    the encoder and the threads are left as they were, and [main] ends
    with that exception. *)
Theorem failure_under_outer_try_releases_camera
    (files : option (string * string)) (schedule : list event) (e : exn) :
  let st := run schedule (initial files) in
  (index MakeWsApp <= index (pc st) <= index StartRecording)%nat \/
  (index StopRecording <= index (pc st) <= index JoinServer)%nat ->
  exists cam,
    camera st = Some cam /\
    let st' := run [Main (Some e); Main None; Main None] st in
    pc st' = Done /\ pending st' = Some e /\
    camera st' = Some {| started := false; recording := recording cam;
                         released := true |} /\
    trace st' = Call CameraClose :: Call CameraStop :: trace st /\
    converter st' = converter st /\ server_thread st' = server_thread st /\
    broadcast_thread st' = broadcast_thread st.
Proof.
  intros st Hpc. destruct (conduct_run files schedule) as (Hs & _ & _ & _).
  fold st in Hs. pose proof (camera_there st (sound_progress st Hs)) as Hc.
  destruct (camera st) as [cam |] eqn:Ec;
    [| exfalso; apply Hc; [simpl in *; lia | reflexivity]].
  exists cam. split; [reflexivity |].
  cbv zeta. unfold run. cbn [fold_left].
  change (step (Main (Some e)) st) with (unwind e st).
  rewrite (unwind_outer st e Hpc).
  change (step (Main None)) with advance.
  set (s1 := set_pc CameraStop (set_pending (Some e) st)).
  rewrite (advance_CameraStop s1 eq_refl).
  set (s2 := finish (set_camera _ s1)).
  rewrite (advance_CameraClose s2 eq_refl).
  unfold s2, s1, finish. simpl. rewrite Ec. simpl.
  repeat (split; [reflexivity |]). reflexivity.
Qed.

Lemma failure_under_outer_try_releases_camera_witness :
  let st := run (repeat (Main None) 9) (initial Scenario.files) in
  let st' := run [Main (Some (OtherError "Popen")); Main None; Main None] st in
  pc st = MakeBroadcastThread /\
  pc st' = Done /\ pending st' = Some (OtherError "Popen") /\
  released <$> camera st' = Some true.
Proof.
  intros st st'.
  destruct (failure_under_outer_try_releases_camera Scenario.files
              (repeat (Main None) 9) (OtherError "Popen"))
    as (cam & Ec & Hd & Hp & Hc & _).
  - left. vm_compute. lia.
  - split; [vm_compute; reflexivity |]. split; [exact Hd |].
    split; [exact Hp |]. unfold st', st. rewrite Hc. reflexivity.
Defined.

End OrderClaims.

Section LivenessClaims.
Import Wire Pipeline Conduct.

Lemma pump_idle st n :
  broadcast_thread st <> Alive -> run (repeat PumpTurn n) st = st.
Proof.
  intros H. induction n as [| n IH]; simpl; [reflexivity |].
  unfold pump_turn. destruct (broadcast_thread st); try exact IH. congruence.
Qed.

(** What a turn of the pump leaves alone. *)
Lemma pump_turn_frame st :
  pc (pump_turn st) = pc st /\ pending (pump_turn st) = pending st /\
  camera (pump_turn st) = camera st /\
  server_thread (pump_turn st) = server_thread st /\
  globals (pump_turn st) = globals st /\
  output_of (pump_turn st) = output_of st /\
  calls (trace (pump_turn st)) = calls (trace st) /\
  (forall c, converter st = Some c ->
     exists c', converter (pump_turn st) = Some c' /\
                Encoder.stdin_closed c' = Encoder.stdin_closed c /\
                Encoder.exited c' = Encoder.exited c).
Proof.
  unfold pump_turn.
  destruct (broadcast_thread st); try (repeat split; eauto; fail).
  destruct (converter st) as [c |] eqn:Ec; try (repeat split; eauto; congruence).
  destruct (manager st) as [h |];
    try (repeat split; auto; intros c0 [= <-]; eauto; fail).
  pose proof (iteration_converter c h) as Hi. cbv zeta in Hi.
  destruct (Pump.iteration c h) as [[[c' h'] sent] t]. simpl in Hi.
  destruct Hi as (Hi1 & Hi2 & Hi3).
  unfold log_turn, output_of. rewrite Ec.
  destruct sent, t; simpl; repeat split; auto;
    intros c0 [= <-]; eauto.
Qed.

Lemma pump_turns_frame n st :
  let st' := run (repeat PumpTurn n) st in
  pc st' = pc st /\ pending st' = pending st /\ camera st' = camera st /\
  server_thread st' = server_thread st /\ globals st' = globals st /\
  output_of st' = output_of st /\
  calls (trace st') = calls (trace st) /\
  (forall c, converter st = Some c ->
     exists c', converter st' = Some c' /\
                Encoder.stdin_closed c' = Encoder.stdin_closed c /\
                Encoder.exited c' = Encoder.exited c).
Proof.
  revert st. induction n as [| n IH]; intros st; simpl.
  - repeat split; eauto.
  - destruct (pump_turn_frame st) as (A1 & A2 & A3 & A4 & A5 & A6 & A7 & A8).
    destruct (IH (pump_turn st)) as (B1 & B2 & B3 & B4 & B5 & B6 & B7 & B8).
    simpl in *.
    rewrite B1, B2, B3, B4, B5, B6, B7. repeat split; auto.
    intros c Ec. destruct (A8 c Ec) as (c1 & Ec1 & <- & <-).
    exact (B8 c1 Ec1).
Qed.

Lemma draining_ends k st :
  draining k st ->
  exists n, broadcast_thread (run (repeat PumpTurn n) st) = Ended None.
Proof.
  revert st. induction k as [| k IH]; intros st (Hb & c & h & Ec & Eh & Ho & Hx & Hl).
  - exists 1%nat. simpl. unfold pump_turn. rewrite Hb, Ec, Eh, iteration_spec.
    cbv zeta. rewrite Ho.
    assert (Encoder.stdout_pending c = []) as -> by (apply length_zero_iff_nil; lia).
    rewrite take_nil. simpl. unfold Encoder.exited in Hx.
    destruct (Encoder.returncode c); [reflexivity | discriminate].
  - destruct (Pump.is_empty (take (Z.to_nat Pump.READ_SIZE) (Encoder.stdout_pending c)))
      eqn:Ee.
    + exists 1%nat. simpl. unfold pump_turn. rewrite Hb, Ec, Eh, iteration_spec.
      cbv zeta. rewrite Ho, Ee. unfold Encoder.exited in Hx.
      destruct (Encoder.returncode c); [reflexivity | discriminate].
    + destruct (IH (pump_turn st)) as [n Hn].
      * unfold pump_turn. rewrite Hb, Ec, Eh, iteration_spec.
        cbv zeta. rewrite Ho, Ee. split; [reflexivity |].
        eexists. eexists. split; [reflexivity |]. split; [reflexivity |].
        split; [exact Ho |]. split; [exact Hx |].
        simpl. rewrite length_skipn. lia.
      * exists (S n). exact Hn.
Qed.

Lemma pump_ends files schedule c z :
  let st := run schedule (initial files) in
  broadcast_thread st = Alive ->
  converter st = Some c -> Encoder.returncode c = Some z ->
  exists n, broadcast_thread (run (repeat PumpTurn n) st) = Ended None.
Proof.
  intros st Hb Ec Ez.
  pose proof (sound_run files schedule) as Hs. fold st in Hs.
  pose proof (stdout_state st (sound_pump st Hs)) as Ho. rewrite Hb in Ho.
  destruct (Ho c Ec) as [Hopen _].
  destruct (pump_has_objects st (sound_progress st Hs)) as [Hm _]; [congruence |].
  destruct (manager st) as [h |] eqn:Em; [| congruence].
  apply (draining_ends (length (Encoder.stdout_pending c))).
  split; [exact Hb |]. exists c, h. split; [exact Ec |]. split; [exact Em |].
  split; [exact Hopen |]. split; [unfold Encoder.exited; rewrite Ez; reflexivity |].
  unfold Pump.READ_SIZE. nia.
Qed.

(** X8: once the encoder has exited, a pump that is in its loop leaves it
    after finitely many turns, normally, and further turns change nothing;
    by then it has handed the hub all the output the encoder ever wrote,
    in order, and the pipe is empty.  The turns of the pump do not move
    [main]. *)
Theorem pump_drains_and_ends (files : option (string * string))
    (schedule : list event) :
  let st := run schedule (initial files) in
  broadcast_thread st = Alive ->
  (exists c z, converter st = Some c /\ Encoder.returncode c = Some z) ->
  exists n, forall m, (n <= m)%nat ->
    let st' := run (repeat PumpTurn m) st in
    broadcast_thread st' = Ended None /\
    unread_of st' = [] /\
    concat (chunks_of st') = output_of st /\
    concat (chunks_of st') = concat (chunks_of st) ++ unread_of st /\
    pc st' = pc st.
Proof.
  intros st Hb (c & z & Ec & Ez).
  pose proof (sound_run files schedule) as Hs. fold st in Hs.
  pose proof (sound_pump st Hs) as Hps.
  destruct (pump_ends files schedule c z Hb Ec Ez) as [n Hn]. fold st in Hn.
  exists n. intros m Hle st'.
  assert (E : st' = run (repeat PumpTurn n) st).
  { unfold st'. replace m with (n + (m - n))%nat by lia.
    rewrite repeat_app, run_app. apply pump_idle. rewrite Hn. discriminate. }
  assert (Hr : st' = run (schedule ++ repeat PumpTurn n) (initial files)).
  { rewrite E, run_app. reflexivity. }
  pose proof (sound_pump _ (sound_run files (schedule ++ repeat PumpTurn n))) as Hps'.
  rewrite <- Hr in Hps'.
  pose proof (stdout_state st' Hps') as Ho'.
  assert (Hb' : broadcast_thread st' = Ended None) by (rewrite E; exact Hn).
  rewrite Hb' in Ho'. destruct Ho' as (_ & c' & Ec' & _ & _ & Hp' & _).
  assert (Hu : unread_of st' = []) by (unfold unread_of; rewrite Ec'; exact Hp').
  pose proof (nothing_lost st' Hps') as Hl'. rewrite Hu, app_nil_r in Hl'.
  destruct (pump_turns_frame n st) as (F1 & _ & _ & _ & _ & F6 & _).
  rewrite <- E in F1, F6.
  split; [exact Hb' |]. split; [exact Hu |].
  split; [rewrite <- Hl'; exact F6 |].
  split; [rewrite <- Hl', F6; apply (nothing_lost st Hps) | exact F1].
Qed.

Lemma pump_drains_and_ends_witness :
  let st := run (Scenario.boot ++ [Emit Scenario.A; Emit Scenario.B; Exit 0])
                (initial Scenario.files) in
  exists n,
    let st' := run (repeat PumpTurn n) st in
    broadcast_thread st' = Ended None /\
    concat (chunks_of st') = Scenario.A ++ Scenario.B.
Proof.
  intros st.
  destruct (pump_drains_and_ends Scenario.files
              (Scenario.boot ++ [Emit Scenario.A; Emit Scenario.B; Exit 0]))
    as [n Hn].
  - vm_compute. reflexivity.
  - eexists. eexists. split; vm_compute; reflexivity.
  - exists n. pose proof (Hn n (le_n n)) as H. cbv zeta in H.
    destruct H as (Hb & _ & Hc & _). cbv zeta. unfold st.
    split; [exact Hb |]. rewrite Hc. vm_compute. reflexivity.
Defined.

End LivenessClaims.

Section ShutdownClaims.
Import Wire Pipeline Conduct.

(** What a run in its sleep loop has in place. *)
Lemma running_state files schedule :
  let st := run schedule (initial files) in
  pc st = Sleep ->
  camera st = Some {| started := true; recording := true; released := false |} /\
  server_thread st = Alive /\ broadcast_thread st <> Unstarted /\
  rev (calls (trace st)) = startup /\ exists c, converter st = Some c.
Proof.
  intros st Hpc.
  destruct (conduct_run files schedule) as (Hs0 & Ho0 & He0 & _).
  fold st in Hs0, Ho0, He0.
  split; [rewrite (camera_state st He0) by (rewrite Hpc; simpl; lia);
          rewrite Hpc; reflexivity |].
  split; [apply (server_alive st He0); rewrite Hpc; simpl; lia |].
  split; [apply (pump_begun st He0); rewrite Hpc; simpl; lia |].
  split.
  - destruct (calls_startup st Ho0) as [_ H]; [rewrite Hpc; simpl; lia |].
    rewrite H, Hpc. reflexivity.
  - destruct (converter st) as [c |] eqn:Ec; [eauto |].
    exfalso. apply (converter_there st (sound_progress st Hs0));
      [rewrite Hpc; simpl; lia | exact Ec].
Qed.

(** After the interrupt, the first calls of the stop sequence and the exit
    of the encoder, the pump ends within some number of turns. *)
Lemma pump_joins files schedule head :
  let s5 := run (schedule ++ head) (initial files) in
  broadcast_thread s5 <> Unstarted ->
  (exists c, converter s5 = Some c /\ Encoder.exited c = true) ->
  exists n, broadcast_thread (run (repeat PumpTurn n) s5) = Ended None.
Proof.
  intros s5 Hu (c5 & Ec5 & Hx5).
  destruct (broadcast_thread s5) eqn:Eb5.
  - congruence.
  - unfold Encoder.exited in Hx5.
    destruct (Encoder.returncode c5) as [z |] eqn:Hz; [| discriminate].
    apply (pump_ends files (schedule ++ head) c5 z Eb5 Ec5 Hz).
  - exists 0%nat.
    pose proof (stdout_state s5 (sound_pump s5 (sound_run files (schedule ++ head))))
      as Ho.
    rewrite Eb5 in Ho. destruct Ho as [-> _]. exact Eb5.
Qed.

(** X11: an interrupt in the sleep loop shuts the pipeline down
    completely, provided the encoder exits once its input is closed: after
    finitely many turns of the pump [main] returns without an error,
    having made every call of the startup and of the stop sequence once
    and in order; the camera is stopped and released, both threads have
    ended, the encoder's pipes are closed, and all its output has been
    broadcast.  The calls that follow the pump's end leave the hub as it
    is: [main] closes no viewer's session. *)
Theorem interrupt_completes_shutdown (files : option (string * string))
    (schedule : list event) (status : Z) :
  let st := run schedule (initial files) in
  pc st = Sleep ->
  exists n,
    let st' := run ([Main (Some KeyboardInterrupt); Main None; Main None;
                     Exit status; Main None]
                    ++ repeat PumpTurn n ++ repeat (Main None) 5) st in
    pc st' = Done /\ pending st' = None /\
    calls (history st') = startup ++ stop_sequence /\
    camera st' = Some {| started := false; recording := false; released := true |} /\
    broadcast_thread st' = Ended None /\
    server_thread st' = Ended None /\
    manager st' = manager (run ([Main (Some KeyboardInterrupt); Main None;
                                 Main None; Exit status; Main None]
                                ++ repeat PumpTurn n) st) /\
    (exists c, converter st' = Some c /\ Encoder.stdin_closed c = true /\
               Encoder.stdout_closed c = true /\ Encoder.returncode c <> None) /\
    concat (chunks_of st') = output_of st'.
Proof.
  intros st Hpc.
  destruct (running_state files schedule Hpc) as (Hcam & Hsrv & Hpump & Hcalls & c & Ec).
  fold st in Hcam, Hsrv, Hpump, Hcalls, Ec.
  pose (head := [Main (Some KeyboardInterrupt); Main None; Main None;
                 Exit status; Main None]).
  destruct (stop_head st status c Hpc Ec)
    as (P1 & P2 & P3 & P4 & P5 & P6 & P7 & c5 & Ec5 & Hx5 & Hi5).
  fold head in P1, P2, P3, P4, P5, P6, P7, Ec5.
  destruct (pump_joins files schedule head) as [n Hn].
  { rewrite run_app. fold st. rewrite P5. exact Hpump. }
  { rewrite run_app. fold st. eauto. }
  rewrite run_app in Hn. fold st in Hn.
  exists n. intros st'.
  destruct (pump_turns_frame n (run head st)) as (F1 & F2 & F3 & F4 & _ & _ & F7 & F8).
  destruct (stop_tail (run (repeat PumpTurn n) (run head st)) None)
    as (T1 & T2 & T3 & T4 & T5 & T6 & T7 & T8).
  { rewrite F1. exact P1. }
  { exact Hn. }
  { rewrite F4, P4. exact Hsrv. }
  assert (E : st' = run (repeat (Main None) 5) (run (repeat PumpTurn n) (run head st))).
  { unfold st'. fold head. rewrite !run_app. reflexivity. }
  rewrite <- E in T1, T2, T3, T4, T5, T6, T7, T8.
  assert (Hs : sound st').
  { rewrite E. unfold st. rewrite <- !run_app. apply sound_run. }
  split; [exact T1 |]. split; [rewrite T2, F2; exact P2 |].
  split; [| split; [| split; [| split; [| split]]]].
  - unfold history. rewrite calls_rev, T8. cbn [calls]. rewrite F7, P7.
    cbn [calls rev]. rewrite Hcalls. reflexivity.
  - rewrite T3, F3, P3, Hcam. reflexivity.
  - exact T6.
  - exact T5.
  - rewrite T4. fold head. rewrite run_app. reflexivity.
  - pose proof (sound_pump st' Hs) as Hps.
    pose proof (stdout_state st' Hps) as Hso. rewrite T6 in Hso.
    destruct Hso as (_ & c' & Ec' & Hc1 & _ & Hc3 & Hc4).
    split.
    + exists c'. split; [exact Ec' |]. split; [| split; [exact Hc1 | exact Hc4]].
      destruct (F8 c5 Ec5) as (c6 & Ec6 & Hin & _).
      rewrite T7, Ec6 in Ec'. injection Ec' as <-. rewrite Hin. exact Hi5.
    + pose proof (nothing_lost st' Hps) as Hl. unfold unread_of in Hl.
      rewrite Ec', Hc3, app_nil_r in Hl. symmetry. exact Hl.
Qed.

Lemma interrupt_completes_shutdown_witness :
  exists n,
    let st' := run ([Main (Some KeyboardInterrupt); Main None; Main None;
                     Exit 0; Main None]
                    ++ repeat PumpTurn n ++ repeat (Main None) 5)
                   (run Scenario.three_viewers (initial Scenario.files)) in
    pc st' = Done /\ pending st' = None /\
    calls (history st') = startup ++ stop_sequence /\
    server_thread st' = Ended None.
Proof.
  destruct (interrupt_completes_shutdown Scenario.files Scenario.three_viewers 0)
    as [n Hn].
  - vm_compute. reflexivity.
  - exists n. cbv zeta in Hn. cbv zeta.
    destruct Hn as (H1 & H2 & H3 & _ & _ & H6 & _).
    split; [exact H1 |]. split; [exact H2 |]. split; [exact H3 | exact H6].
Defined.

End ShutdownClaims.

(** * Delivery, the stop sequence and the pump *)

Section DeliveryFacts.
Import Wire Pipeline Conduct.

Lemma broadcasts_app t1 t2 : broadcasts (t1 ++ t2) = broadcasts t1 ++ broadcasts t2.
Proof.
  induction t1 as [| a t1 IH]; simpl; [reflexivity |].
  destruct a; simpl; rewrite ?IH; reflexivity.
Qed.

Lemma broadcasts_rev t : broadcasts (rev t) = rev (broadcasts t).
Proof.
  induction t as [| a t IH]; simpl; [reflexivity |].
  rewrite broadcasts_app, IH. destruct a; simpl; rewrite ?app_nil_r; reflexivity.
Qed.

(** Where [heard] finds the registration: the trace splits there, and the
    chunks are the broadcasts of the newer part. *)
Lemma heard_split id t cs :
  heard id t = Some cs ->
  exists newer older,
    t = newer ++ Registered (Some id) :: older /\ cs = rev (broadcasts newer).
Proof.
  revert cs. induction t as [| a t IH]; intros cs; simpl; [discriminate |].
  destruct a as [p | b | r | | e | [j |] | o];
    try (intros H; destruct (IH cs H) as (newer & older & -> & ->);
         eexists (_ :: newer), older; split; reflexivity).
  - destruct (heard id t) as [cs' |]; simpl; [| discriminate].
    intros [= <-]. destruct (IH cs' eq_refl) as (newer & older & -> & ->).
    exists (Broadcast b :: newer), older. split; reflexivity.
  - destruct (decide (j = id)) as [-> | Hne].
    + intros [= <-]. exists [], t. split; reflexivity.
    + intros H. destruct (IH cs H) as (newer & older & -> & ->).
      eexists (_ :: newer), older. split; reflexivity.
Qed.

Lemma attended_initial files : attended (initial files).
Proof. constructor; simpl; [reflexivity | constructor]. Qed.

Lemma attended_view st st' :
  manager st' = manager st ->
  broadcasts (trace st') = broadcasts (trace st) ->
  (forall id, heard id (trace st') = heard id (trace st)) ->
  attended st -> attended st'.
Proof.
  intros E1 E2 E3 [H1 H2].
  constructor; unfold chunks_of, viewers, departed in *; rewrite ?E1, ?E2; [exact H1 |].
  eapply Forall_mono; [| exact H2]. intros s Hs. rewrite E3. exact Hs.
Qed.

(** The operations of the hub keep the identifier of a session and the
    moment it joined. *)
Lemma labels_broadcast (Q : Hub.session -> Prop) chunk h :
  (forall s s', Hub.sid s' = Hub.sid s -> Hub.joined s' = Hub.joined s -> Q s -> Q s') ->
  Forall Q (Hub.sessions h) -> Forall Q (Hub.sessions (Hub.broadcast chunk h)).
Proof.
  intros HQ H. unfold Hub.sessions in *. apply Forall_app in H as [Ha Hg].
  rewrite broadcast_active, broadcast_gone. rewrite Forall_forall in Ha.
  apply Forall_app. split.
  - apply Forall_kept. intros s Hs _. apply (HQ s); [reflexivity .. | apply Ha, Hs].
  - apply Forall_moved; [| exact Hg].
    intros s Hs _. apply (HQ s); [reflexivity .. | apply Ha, Hs].
Qed.

Lemma labels_fail_peer (Q : Hub.session -> Prop) id h :
  (forall s s', Hub.sid s' = Hub.sid s -> Hub.joined s' = Hub.joined s -> Q s -> Q s') ->
  Forall Q (Hub.sessions h) -> Forall Q (Hub.sessions (Hub.fail_peer id h)).
Proof.
  intros HQ H. unfold Hub.sessions in *. apply Forall_app in H as [Ha Hg].
  simpl. apply Forall_app. split; [| exact Hg].
  rewrite Forall_fmap. eapply Forall_mono; [| exact Ha].
  intros s Hs. simpl. destruct (decide _); [| exact Hs].
  apply (HQ s); [reflexivity .. | exact Hs].
Qed.

Lemma labels_hang_up (Q : Hub.session -> Prop) id h :
  (forall s s', Hub.sid s' = Hub.sid s -> Hub.joined s' = Hub.joined s -> Q s -> Q s') ->
  Forall Q (Hub.sessions h) -> Forall Q (Hub.sessions (Hub.hang_up id h)).
Proof.
  intros HQ H. unfold Hub.sessions in *. apply Forall_app in H as [Ha Hg].
  simpl. rewrite Forall_forall in Ha. apply Forall_app. split.
  - apply Forall_forall. intros s Hs. apply list_elem_of_filter in Hs as [_ Hs].
    apply Ha, Hs.
  - apply Forall_moved; [| exact Hg].
    intros s Hs _. apply (HQ s); [reflexivity .. | apply Ha, Hs].
Qed.

(** Every session joined when no more chunks had been broadcast than now. *)
Lemma joined_bound h :
  Hub.in_order h ->
  Forall (fun s => (Hub.joined s <= length (Hub.chunks h))%nat) (Hub.sessions h).
Proof.
  intros [Ha Hg]. unfold Hub.sessions. apply Forall_app. split.
  - eapply Forall_mono; [| exact Ha]. intros s [H _]. exact H.
  - eapply Forall_mono; [| exact Hg]. intros s (k & H & _). lia.
Qed.

Lemma attended_pump st :
  hub_sound st -> attended st -> attended (pump_turn st).
Proof.
  intros Hh Ha. unfold pump_turn.
  destruct (broadcast_thread st) eqn:Eb; try exact Ha.
  destruct (converter st) as [c |] eqn:Ec; try exact Ha.
  destruct (manager st) as [h |] eqn:Em; try exact Ha.
  destruct (Hh h Em) as [_ Ho]. pose proof (joined_bound h Ho) as Hj.
  destruct Ha as [H1 H2]. unfold chunks_of, viewers, departed in H1, H2.
  rewrite Em in H1, H2. fold (Hub.sessions h) in H2.
  rewrite iteration_spec. cbv zeta. unfold log_turn.
  destruct (Encoder.stdout_closed c); [| destruct (Pump.is_empty _);
    [destruct (Encoder.returncode c) |]];
    try (constructor; unfold chunks_of, viewers, departed; simpl; assumption).
  set (buf := take (Z.to_nat Pump.READ_SIZE) (Encoder.stdout_pending c)).
  constructor; unfold chunks_of, viewers, departed; simpl.
  - rewrite broadcast_chunks, rev_app_distr, H1. reflexivity.
  - fold (Hub.sessions (Hub.broadcast buf h)).
    apply labels_broadcast; [intros s s' E1 E2; rewrite E1, E2; auto |].
    rewrite broadcast_chunks.
    rewrite Forall_forall in H2, Hj. apply Forall_forall. intros s Hs.
    rewrite (H2 s Hs). simpl. rewrite drop_app_le by (apply Hj, Hs). reflexivity.
Qed.

Lemma attended_request st e :
  hub_sound st -> attended st -> attended (request e st).
Proof.
  intros Hh Ha. unfold request.
  destruct (server_thread st); try exact Ha.
  destruct (Wsgi.application _ _);
    try (apply (attended_view st); [reflexivity | reflexivity | intros; reflexivity | exact Ha]).
  destruct (manager st) as [h |] eqn:Em; try exact Ha.
  destruct (Hh h Em) as [(_ & _ & Hlt & _) _].
  destruct Ha as [H1 H2]. unfold chunks_of, viewers, departed in H1, H2.
  rewrite Em in H1, H2. fold (Hub.sessions h) in H2.
  unfold Hub.register. destruct (Hub.closed h).
  - constructor; unfold chunks_of, viewers, departed; simpl; rewrite ?Em; assumption.
  - rewrite opened_connect.
    constructor; unfold chunks_of, viewers, departed; simpl; [exact H1 |].
    rewrite <- app_assoc. apply Forall_app in H2 as [Hact Hgone].
    rewrite Forall_forall in Hlt.
    assert (Hold : forall s, s ∈ Hub.sessions h ->
              heard (Hub.sid s) (trace st) = Some (drop (Hub.joined s) (Hub.chunks h)) ->
              (if decide (Hub.next_sid h = Hub.sid s) then Some []
               else heard (Hub.sid s) (trace st))
              = Some (drop (Hub.joined s) (Hub.chunks h))).
    { intros s Hs H. specialize (Hlt s Hs).
      destruct (decide _) as [E | _]; [lia | exact H]. }
    apply Forall_app. split; [| apply Forall_app; split].
    + apply Forall_forall. intros s Hs. apply Hold.
      * unfold Hub.sessions. apply elem_of_app. left. exact Hs.
      * rewrite Forall_forall in Hact. apply Hact, Hs.
    + constructor; [| constructor]. simpl.
      rewrite decide_True by reflexivity. rewrite drop_all. reflexivity.
    + apply Forall_forall. intros s Hs. apply Hold.
      * unfold Hub.sessions. apply elem_of_app. right. exact Hs.
      * rewrite Forall_forall in Hgone. apply Hgone, Hs.
Qed.

Lemma attended_step st ev :
  progress st -> hub_sound st -> attended st -> attended (step ev st).
Proof.
  intros Hp Hh Ha. destruct ev as [[e |] | | b | b | z | e | id | id].
  - unfold step, unwind. repeat case_goal; try exact Ha;
      (apply (attended_view st); [reflexivity | reflexivity | intros; reflexivity | exact Ha]).
  - unfold step, advance, join, unwind, finish.
    destruct (pc st) eqn:Epc; repeat case_goal; try exact Ha;
      try (apply (attended_view st); [reflexivity | reflexivity | intros; reflexivity | exact Ha]).
    (* InitManager *)
    pose proof (manager_made st Hp) as Hm. rewrite Epc in Hm.
    destruct (manager st) eqn:Em; [exfalso; simpl in Hm; assert (H : Some h <> None) by discriminate; specialize (Hm H); lia |].
    destruct Ha as [H1 H2]. unfold chunks_of, viewers, departed in H1, H2.
    rewrite Em in H1, H2.
    constructor; unfold chunks_of, viewers, departed; simpl; [exact H1 | constructor].
  - apply attended_pump; assumption.
  - unfold step, frame. repeat case_goal; try exact Ha;
      (apply (attended_view st); [reflexivity | reflexivity | intros; reflexivity | exact Ha]).
  - (apply (attended_view st); [reflexivity | reflexivity | intros; reflexivity | exact Ha]).
  - (apply (attended_view st); [reflexivity | reflexivity | intros; reflexivity | exact Ha]).
  - apply attended_request; assumption.
  - simpl. destruct (manager st) as [h |] eqn:Em.
    + destruct Ha as [H1 H2]. unfold chunks_of, viewers, departed in H1, H2.
      rewrite Em in H1, H2. fold (Hub.sessions h) in H2.
      constructor; unfold chunks_of, viewers, departed; simpl; [exact H1 |].
      fold (Hub.sessions (Hub.fail_peer id h)).
      apply (labels_fail_peer _ id h); [intros s s' E1 E2; rewrite E1, E2; auto |].
      exact H2.
    + apply (attended_view st); [simpl; rewrite Em; reflexivity | reflexivity | intros; reflexivity | exact Ha].
  - simpl. destruct (manager st) as [h |] eqn:Em.
    + destruct Ha as [H1 H2]. unfold chunks_of, viewers, departed in H1, H2.
      rewrite Em in H1, H2. fold (Hub.sessions h) in H2.
      constructor; unfold chunks_of, viewers, departed; simpl; [exact H1 |].
      fold (Hub.sessions (Hub.hang_up id h)).
      apply (labels_hang_up _ id h); [intros s s' E1 E2; rewrite E1, E2; auto |].
      exact H2.
    + apply (attended_view st); [simpl; rewrite Em; reflexivity | reflexivity | intros; reflexivity | exact Ha].
Qed.

Lemma attended_run files schedule : attended (run schedule (initial files)).
Proof.
  apply (run_invariant (fun st => sound st /\ attended st)).
  - intros st ev [Hs Ha]. split; [apply sound_step, Hs |].
    apply attended_step; [apply Hs .. | exact Ha].
  - split; [apply sound_initial | apply attended_initial].
Qed.

End DeliveryFacts.

Section EffectFacts.
Import Wire Pipeline Conduct.






End EffectFacts.

Section ChainFacts.
Import Wire Pipeline Conduct.





End ChainFacts.

Section DeliveryClaims.
Import Wire Pipeline Conduct.

(** A turn of the pump as a step of the whole program: what it does to
    the thread, the hub, the encoder and the trace, and that it leaves
    [main] where it is. *)
Lemma pump_turn_spec s c h :
  broadcast_thread s = Alive -> converter s = Some c -> manager s = Some h ->
  Encoder.stdout_closed c = false ->
  let n := Z.to_nat Pump.READ_SIZE in
  let s' := step PumpTurn s in
  pc s' = pc s /\ pending s' = pending s /\
  match take n (Encoder.stdout_pending c), Encoder.returncode c with
  | [], Some _ =>
      broadcast_thread s' = Ended None /\ manager s' = Some h /\
      converter s' = Some (Encoder.stdout_close (Encoder.consume n c)) /\
      trace s' = PumpExit None :: trace s
  | [], None =>
      broadcast_thread s' = Alive /\ manager s' = Some h /\
      converter s' = Some (Encoder.consume n c) /\ trace s' = trace s
  | buf, _ =>
      broadcast_thread s' = Alive /\ manager s' = Some (Hub.broadcast buf h) /\
      converter s' = Some (Encoder.consume n c) /\
      trace s' = Broadcast buf :: trace s
  end.
Proof.
  intros Hb Ec Em Ho n s'. unfold s', step, pump_turn.
  rewrite Hb, Ec, Em, iteration_spec. cbv zeta. rewrite Ho. fold n.
  destruct (take n (Encoder.stdout_pending c)) as [| x buf]; simpl.
  - destruct (Encoder.returncode c); simpl; repeat split; reflexivity.
  - destruct (Encoder.returncode c); simpl; repeat split; reflexivity.
Qed.

Lemma iteration_cases c h :
  Encoder.stdout_closed c = false ->
  let n := Z.to_nat Pump.READ_SIZE in
  Pump.iteration c h =
    match take n (Encoder.stdout_pending c), Encoder.poll c with
    | [], Some _ => (Encoder.stdout_close (Encoder.consume n c), h, None, Ended None)
    | [], None => (Encoder.consume n c, h, None, Alive)
    | buf, _ => (Encoder.consume n c, Hub.broadcast buf h, Some buf, Alive)
    end.
Proof.
  intros Hopen n. rewrite iteration_spec. cbv zeta. rewrite Hopen.
  fold n. unfold Encoder.poll.
  destruct (take n (Encoder.stdout_pending c)); simpl; [| reflexivity].
  destruct (Encoder.returncode c); reflexivity.
Qed.

(** An upgrade request as a step of the whole program: the hub registers
    a viewer under the next free identifier, and the trace says so. *)
Lemma request_registers s e app h :
  server_thread s = Alive ->
  Wsgi.application (globals s) e = Wsgi.Upgraded app e ->
  manager s = Some h -> Hub.closed h = false ->
  manager (step (Request e) s) = Some (Hub.register h).2 /\
  trace (step (Request e) s) = Registered (Some (Hub.next_sid h)) :: trace s.
Proof.
  intros Hs Ha Em Hc. unfold step, request. rewrite Hs, Ha, Em.
  unfold Hub.register. rewrite Hc, opened_connect. split; reflexivity.
Qed.

Lemma history_split st id cs :
  heard id (trace st) = Some cs ->
  exists before after,
    history st = before ++ Registered (Some id) :: after /\ broadcasts after = cs.
Proof.
  intros H. destruct (heard_split _ _ _ H) as (newer & older & Et & ->).
  exists (rev older), (rev newer). unfold history. rewrite Et.
  rewrite rev_app_distr. simpl. rewrite <- app_assoc. split; [reflexivity |].
  apply broadcasts_rev.
Qed.

(** C1: what the encoder writes is appended to its output pipe; a turn of
    the pump on an open pipe with unread output takes the first bytes of
    it, at most 32768, hands them to the hub as one chunk and logs the
    broadcast; the hub appends the chunk to the connection of every active
    session whose connection takes it, in the order of the set; a
    registration adds the new session at the end of the set with only the
    header sent.  So in every run: the chunks handed to the hub are the
    broadcasts of the history, in order, and are the encoder's output cut
    in consecutive pieces without a gap; every active session has been
    sent, after its header, exactly the chunks broadcast after its
    registration in the history, in that order; a session that left has
    been sent the first few of them.  With three viewers registered and
    the chunks A, B, C read, each viewer has received the header followed
    by A, B and C. *)
Theorem broadcast_in_encoder_order (files : option (string * string))
    (schedule : list event) :
  let st := run schedule (initial files) in
  let n := Z.to_nat Pump.READ_SIZE in
  (forall b c, Encoder.exited c = false ->
     Encoder.stdout_pending (Encoder.emit b c) = Encoder.stdout_pending c ++ b /\
     Encoder.emitted (Encoder.emit b c) = Encoder.emitted c ++ b) /\
  (forall c h, Encoder.stdout_closed c = false ->
     take n (Encoder.stdout_pending c) <> [] ->
     Pump.iteration c h =
       (Encoder.consume n c,
        Hub.broadcast (take n (Encoder.stdout_pending c)) h,
        Some (take n (Encoder.stdout_pending c)), Alive) /\
     Encoder.stdout_pending (Encoder.consume n c)
       = drop n (Encoder.stdout_pending c)) /\
  (forall s c h,
     broadcast_thread s = Alive -> converter s = Some c -> manager s = Some h ->
     Encoder.stdout_closed c = false ->
     take n (Encoder.stdout_pending c) <> [] ->
     manager (step PumpTurn s)
       = Some (Hub.broadcast (take n (Encoder.stdout_pending c)) h) /\
     converter (step PumpTurn s) = Some (Encoder.consume n c) /\
     history (step PumpTurn s)
       = history s ++ [Broadcast (take n (Encoder.stdout_pending c))]) /\
  (forall chunk h,
     Hub.active (Hub.broadcast chunk h)
       = Hub.push (Hub.Chunk chunk)
           <$> filter (fun s => Hub.deliverable s = true) (Hub.active h) /\
     Hub.chunks (Hub.broadcast chunk h) = Hub.chunks h ++ [chunk]) /\
  (forall s m, Hub.outbound (Hub.push m s) = Hub.outbound s ++ [m] /\
               Hub.sid (Hub.push m s) = Hub.sid s) /\
  (forall h, Hub.closed h = false ->
     (Hub.register h).1 = Some (Hub.next_sid h) /\
     Hub.active (Hub.register h).2
       = Hub.active h ++
         [Hub.push (Hub.Header Hub.stream_header)
            (Hub.connect (Hub.next_sid h) (length (Hub.chunks h)))]) /\
  (forall s e app h,
     server_thread s = Alive ->
     Wsgi.application (globals s) e = Wsgi.Upgraded app e ->
     manager s = Some h -> Hub.closed h = false ->
     manager (step (Request e) s) = Some (Hub.register h).2 /\
     history (step (Request e) s)
       = history s ++ [Registered (Some (Hub.next_sid h))]) /\
  output_of st = concat (chunks_of st) ++ unread_of st /\
  chunks_of st = broadcasts (history st) /\
  Forall (fun s => exists before after,
            history st = before ++ Registered (Some (Hub.sid s)) :: after /\
            Hub.outbound s = Hub.Header Hub.stream_header
                             :: (Hub.Chunk <$> broadcasts after) /\
            Hub.received s = Hub.stream_header ++ concat (broadcasts after))
         (viewers st) /\
  Forall (fun s => exists before after k,
            history st = before ++ Registered (Some (Hub.sid s)) :: after /\
            Hub.outbound s = Hub.Header Hub.stream_header
                             :: (Hub.Chunk <$> take k (broadcasts after)) /\
            Hub.received s = Hub.stream_header
                             ++ concat (take k (broadcasts after)))
         (departed st) /\
  Forall (fun s =>
            Hub.outbound s = Hub.Header Hub.stream_header
                             :: (Hub.Chunk <$> drop (Hub.joined s) (chunks_of st)) /\
            Hub.received s = Hub.stream_header
                             ++ concat (drop (Hub.joined s) (chunks_of st)))
         (viewers st) /\
  Forall (fun s => exists k,
            Hub.outbound s = Hub.Header Hub.stream_header
                             :: (Hub.Chunk <$> take k (drop (Hub.joined s) (chunks_of st))) /\
            Hub.received s = Hub.stream_header
                             ++ concat (take k (drop (Hub.joined s) (chunks_of st))))
         (departed st) /\
  (let st3 := run Scenario.three_viewers (initial Scenario.files) in
   chunks_of st3 = [Scenario.A; Scenario.B; Scenario.C] /\
   map Hub.sid (viewers st3) = [0; 1; 2]%nat /\
   map Hub.received (viewers st3) =
     repeat (Hub.stream_header ++ Scenario.A ++ Scenario.B ++ Scenario.C) 3 /\
   departed st3 = []).
Proof.
  intros st n.
  pose proof (attended_run files schedule) as [A1 A2]. fold st in A1, A2.
  pose proof (sound_run files schedule) as Hs. fold st in Hs.
  split.
  { intros b c Hx. unfold Encoder.emit. rewrite Hx. split; reflexivity. }
  split.
  { intros c h Ho Hne. rewrite (iteration_cases c h Ho). cbv zeta. fold n.
    split; [| reflexivity].
    destruct (take n (Encoder.stdout_pending c)); [congruence | reflexivity]. }
  split.
  { intros s c h Hb Ec Em Ho Hne.
    destruct (pump_turn_spec s c h Hb Ec Em Ho) as (_ & _ & H). fold n in H.
    destruct (take n (Encoder.stdout_pending c)) as [| x buf]; [congruence |].
    assert (H' : manager (step PumpTurn s) = Some (Hub.broadcast (x :: buf) h) /\
                 converter (step PumpTurn s) = Some (Encoder.consume n c) /\
                 trace (step PumpTurn s) = Broadcast (x :: buf) :: trace s).
    { destruct (Encoder.returncode c); destruct H as (_ & H1 & H2 & H3); auto. }
    destruct H' as (H1 & H2 & H3). split; [exact H1 |]. split; [exact H2 |].
    unfold history. rewrite H3. reflexivity. }
  split.
  { intros chunk h. split; [apply broadcast_active | apply broadcast_chunks]. }
  split.
  { intros s m. split; reflexivity. }
  split.
  { intros h Hc. unfold Hub.register. rewrite Hc, opened_connect.
    split; reflexivity. }
  split.
  { intros s e app h Hsv Ha Em Hc.
    destruct (request_registers s e app h Hsv Ha Em Hc) as [H1 H2].
    split; [exact H1 |]. unfold history. rewrite H2. reflexivity. }
  split; [apply (nothing_lost _ (sound_pump _ Hs)) |].
  split.
  { unfold history. rewrite broadcasts_rev, A1. symmetry. apply rev_involutive. }
  assert (Hv : forall s, s ∈ viewers st ++ departed st ->
            exists before after,
              history st = before ++ Registered (Some (Hub.sid s)) :: after /\
              broadcasts after = drop (Hub.joined s) (chunks_of st)).
  { intros s Hin. rewrite Forall_forall in A2. apply history_split, A2, Hin. }
  unfold viewers, departed, chunks_of in *.
  destruct (manager st) as [h |] eqn:Em.
  2: { repeat (split; [constructor |]). vm_compute. repeat split; reflexivity. }
  destruct (sound_hub st Hs h Em) as [_ [Ha Hg]].
  split.
  { apply Forall_forall. intros s Hin.
    destruct (Hv s) as (before & after & E & Eb);
      [apply elem_of_app; left; exact Hin |].
    rewrite Forall_forall in Ha. destruct (Ha s Hin) as [_ Ho].
    exists before, after. rewrite Eb.
    split; [exact E |]. split; [exact Ho | apply received_header_chunks, Ho]. }
  split.
  { apply Forall_forall. intros s Hin.
    destruct (Hv s) as (before & after & E & Eb);
      [apply elem_of_app; right; exact Hin |].
    rewrite Forall_forall in Hg. destruct (Hg s Hin) as (k & _ & Ho).
    exists before, after, k. rewrite Eb.
    split; [exact E |]. split; [exact Ho | apply received_header_chunks, Ho]. }
  split.
  { eapply Forall_mono; [| exact Ha]. intros s [_ Ho].
    split; [exact Ho | apply received_header_chunks, Ho]. }
  split.
  { eapply Forall_mono; [| exact Hg]. intros s (k & _ & Ho). exists k.
    split; [exact Ho | apply received_header_chunks, Ho]. }
  vm_compute. repeat split; reflexivity.
Qed.

Lemma broadcast_in_encoder_order_witness :
  let c := Encoder.emit Scenario.A Encoder.spawn in
  let h := (Hub.register Hub.empty).2 in
  Pump.iteration c h
    = (Encoder.consume (Z.to_nat Pump.READ_SIZE) c, Hub.broadcast Scenario.A h,
       Some Scenario.A, Alive) /\
  map Hub.outbound (Hub.active (Hub.broadcast Scenario.A h))
    = [[Hub.Header Hub.stream_header; Hub.Chunk Scenario.A]].
Proof.
  intros c h.
  destruct (broadcast_in_encoder_order None []) as (_ & Hturn & _ & Hb & _).
  destruct (Hturn c h) as [Hi _].
  - reflexivity.
  - vm_compute. discriminate.
  - split.
    + rewrite Hi. vm_compute. reflexivity.
    + destruct (Hb Scenario.A h) as [-> _]. vm_compute. reflexivity.
Defined.

End DeliveryClaims.

Section StopClaims.
Import Wire Pipeline Conduct.



End StopClaims.

Section PumpClaims.
Import Wire Pipeline Conduct.

(** C2, amended: on an open pipe a turn of the pump loop hands a
    non-empty read to the hub and goes on, goes on unchanged when the
    read is empty and the encoder runs, and leaves the loop, closing the
    encoder's output, when the read is empty and the encoder has exited.
    Leaving the loop tells the controller nothing: no turn of the pump
    changes where [main] stands or what it has pending, and in its sleep
    loop [main] is moved only by an exception raised in the main thread
    (the operator's interrupt).  From Running the controller goes to
    Stopping and from there to Stopped, never back.  The server is shut
    down at most once in a run; that ends the server thread and closes no
    session: once the hub has been made, no step of [main] changes it.
    At any time a session that is in the active set has never been
    closed and a session that has left it has been closed exactly
    once. *)
Theorem controller_stops_on_interrupt_only (files : option (string * string))
    (schedule : list event) :
  let st := run schedule (initial files) in
  let n := Z.to_nat Pump.READ_SIZE in
  (forall c h, Encoder.stdout_closed c = false ->
     Pump.iteration c h =
       match take n (Encoder.stdout_pending c), Encoder.poll c with
       | [], Some _ => (Encoder.stdout_close (Encoder.consume n c), h, None, Ended None)
       | [], None => (Encoder.consume n c, h, None, Alive)
       | buf, _ => (Encoder.consume n c, Hub.broadcast buf h, Some buf, Alive)
       end) /\
  (forall s c h,
     broadcast_thread s = Alive -> converter s = Some c -> manager s = Some h ->
     Encoder.stdout_closed c = false ->
     let s' := step PumpTurn s in
     pc s' = pc s /\ pending s' = pending s /\
     match take n (Encoder.stdout_pending c), Encoder.returncode c with
     | [], Some _ =>
         broadcast_thread s' = Ended None /\ manager s' = Some h /\
         converter s' = Some (Encoder.stdout_close (Encoder.consume n c)) /\
         trace s' = PumpExit None :: trace s
     | [], None =>
         broadcast_thread s' = Alive /\ manager s' = Some h /\
         converter s' = Some (Encoder.consume n c) /\ trace s' = trace s
     | buf, _ =>
         broadcast_thread s' = Alive /\ manager s' = Some (Hub.broadcast buf h) /\
         converter s' = Some (Encoder.consume n c) /\
         trace s' = Broadcast buf :: trace s
     end) /\
  (forall s, pc (step PumpTurn s) = pc s /\ pending (step PumpTurn s) = pending s) /\
  (forall s ev, pc s = Sleep -> (forall e, ev <> Main (Some e)) ->
                pc (step ev s) = Sleep /\ pending (step ev s) = pending s) /\
  (forall s ev,
     match phase s with
     | Starting => True
     | Running => phase (step ev s) = Running \/ phase (step ev s) = Stopping
     | Stopping => phase (step ev s) = Stopping \/ phase (step ev s) = Stopped
     | Stopped => phase (step ev s) = Stopped
     end) /\
  NoDup (stop_calls (history st)) /\
  (Call ServerShutdown ∈ history st -> server_thread st = Ended None) /\
  (forall s f, pc s <> InitManager -> manager (step (Main f) s) = manager s) /\
  (forall s, pc s = ServerShutdown -> server_thread s = Alive ->
     let s' := step (Main None) s in
     server_thread s' = Ended None /\ manager s' = manager s /\
     trace s' = Call ServerShutdown :: trace s) /\
  Forall (fun s => Hub.alive s = true /\ Hub.closes s = 0%nat) (viewers st) /\
  Forall (fun s => Hub.alive s = false /\ Hub.closes s = 1%nat) (departed st).
Proof.
  intros st n. split; [| split; [| split; [| split; [| split; [| split]]]]].
  - intros c h Ho. apply (iteration_cases c h Ho).
  - intros s c h Hb Ec Em Ho. apply (pump_turn_spec s c h Hb Ec Em Ho).
  - intros s. apply other_threads_leave_main. discriminate.
  - intros s ev Hpc Hev. destruct (classic_main ev) as [[[e |] ->] | Hother].
    + exfalso. apply (Hev e). reflexivity.
    + simpl. unfold advance. rewrite Hpc. split; [exact Hpc | reflexivity].
    + destruct (other_threads_leave_main s ev Hother) as [E1 E2].
      split; congruence.
  - apply phase_moves_forward.
  - apply stop_calls_once.
  - pose proof (sound_run files schedule) as [_ Hh _ _ Ht _]. fold st in Hh, Ht.
    split; [| split; [| split]].
    + intros Hin. unfold history in Hin. rewrite elem_of_rev in Hin.
      apply (shutdown_stops st Ht Hin).
    + intros s [e |] Hpc.
      * simpl. unfold unwind. repeat case_goal; reflexivity.
      * simpl. unfold advance, join, unwind, finish.
        destruct (pc s) eqn:Epc; try congruence; repeat case_goal; reflexivity.
    + intros s Hpc Hsv. cbv zeta. change (step (Main None) s) with (advance s).
      rewrite (advance_ServerShutdown s Hpc Hsv).
      unfold finish. simpl. rewrite Hpc. repeat split; reflexivity.
    + unfold viewers, departed.
      destruct (manager st) as [h |] eqn:Em; [| split; constructor].
      destruct (Hh h Em) as [(Ha & Hg & _) _]. split.
      * eapply Forall_mono; [| exact Ha]. intros s (H1 & _ & H2). auto.
      * eapply Forall_mono; [| exact Hg]. intros s (H1 & _ & H2). auto.
Qed.

Lemma controller_stops_on_interrupt_only_witness :
  let st := run Scenario.stop_once (initial Scenario.files) in
  phase st = Stopped /\ server_thread st = Ended None /\
  map Hub.closes (viewers st) = [0%nat] /\ departed st = [] /\
  pc (step PumpTurn (run Scenario.end_of_stream (initial Scenario.files))) = Sleep.
Proof.
  intros st.
  destruct (controller_stops_on_interrupt_only Scenario.files Scenario.stop_once)
    as (_ & _ & _ & Hsleep & _ & _ & Hshut & _).
  split; [vm_compute; reflexivity |].
  split; [apply Hshut; vm_compute; repeat constructor |].
  split; [vm_compute; reflexivity |]. split; [vm_compute; reflexivity |].
  apply Hsleep; [vm_compute; reflexivity | discriminate].
Defined.

End PumpClaims.
